(** * pi-recall: the semantic memory retrieval engine, embedded in Rocq

    A shallow embedding of three TypeScript modules of the repository and
    the properties its specification states about them:

    - [Extractor]  : [parseResponse] of the memory extraction module
                     (the file that defines [extractMemories]);
    - [Signature]  : [detectLanguage], [extractSignature] and
                     [extractSignatureLines] of [src/signature.ts];
    - [Store]      : the [MemoryStore] class of [src/store.ts].

    Conventions of the embedding.

    - A JavaScript string is a [string] whose characters are the UTF-16
      code units U+0000..U+00FF; code units above U+00FF are outside the
      model.
    - A JavaScript [number] that the code uses as an integer (a length, a
      limit, a row id) is a [Z]; a [number] that holds an embedding
      component, a distance or a similarity is a real [R]: IEEE rounding,
      NaN and the infinities are outside the model.
    - A [throw] is the [Throw] outcome; [try]/[catch] is [try_catch].
    - The libraries the code calls ([JSON.parse], the tree-sitter parser,
      the sqlite tables and the vec0 index) are modelled by what the calls
      of the sources observe of them. *)

From Stdlib Require Import ZArith Reals Lra Lia Ascii String List.
From stdpp Require Import base tactics option list gmap strings pretty sorting.

Set Warnings "-register-all,-clear-no-such-hyp".

Local Open Scope string_scope.
Local Open Scope list_scope.

(** * Part I. The embedding *)

(** ** JavaScript built-ins *)

Module JS.

(** *** Exceptions *)

Inductive exn : Type :=
| Error (message : string)
| SyntaxError (message : string)
| SqliteError (message : string)
| RangeError (message : string).

Inductive outcome (A : Type) : Type :=
| Ok (a : A)
| Throw (e : exn).
Arguments Ok {A} a.
Arguments Throw {A} e.

Definition bind {A B} (m : outcome A) (k : A → outcome B) : outcome B :=
  match m with
  | Ok a => k a
  | Throw e => Throw e
  end.

(** [try { body } catch { handler }] *)
Definition try_catch {A} (body : outcome A) (handler : exn → outcome A)
  : outcome A :=
  match body with
  | Ok a => Ok a
  | Throw e => handler e
  end.

(** A statement list either runs to its end with a value for the code
    that follows, or leaves the function through [return]. *)
Inductive completion (R A : Type) : Type :=
| Normal (a : A)
| Return (r : R).
Arguments Normal {R A} a.
Arguments Return {R A} r.

(** *** Strings *)

Definition chars (s : string) : list ascii := list_ascii_of_string s.
Definition str (l : list ascii) : string := string_of_list_ascii l.

(** ECMAScript WhiteSpace and LineTerminator code units below U+0100:
    TAB, LF, VT, FF, CR, SP and NBSP. The same set is the regular
    expression class [\s]. *)
Definition is_white_space (c : ascii) : bool :=
  let n := N_of_ascii c in
  ((9 <=? n) && (n <=? 13) || (n =? 32) || (n =? 160))%N.

Fixpoint drop_while {A} (p : A → bool) (l : list A) : list A :=
  match l with
  | [] => []
  | x :: l' => if p x then drop_while p l' else l
  end.

Definition drop_while_end {A} (p : A → bool) (l : list A) : list A :=
  rev (drop_while p (rev l)).

Definition trimStart_chars : list ascii → list ascii :=
  drop_while is_white_space.
Definition trimEnd_chars : list ascii → list ascii :=
  drop_while_end is_white_space.

(** [String.prototype.trim] *)
Definition trim (s : string) : string :=
  str (trimEnd_chars (trimStart_chars (chars s))).

(** [String.prototype.startsWith] *)
Definition startsWith (s prefix : string) : bool := String.prefix prefix s.

Fixpoint strip_prefix (prefix l : list ascii) : option (list ascii) :=
  match prefix, l with
  | [], _ => Some l
  | p :: prefix', c :: l' =>
      if Ascii.eqb p c then strip_prefix prefix' l' else None
  | _ :: _, [] => None
  end.

(** [Array.prototype.join] on an array of strings *)
Fixpoint join (sep : string) (l : list string) : string :=
  match l with
  | [] => ""
  | [s] => s
  | s :: l' => s +:+ sep +:+ join sep l'
  end.

(** [String.prototype.toLowerCase] on code units below U+0100: the
    letters A-Z and the Latin-1 capitals U+00C0..U+00DE, the
    multiplication sign U+00D7 apart. *)
Definition lower_char (c : ascii) : ascii :=
  let n := N_of_ascii c in
  if ((65 <=? n) && (n <=? 90)
      || (192 <=? n) && (n <=? 222) && negb (n =? 215))%N
  then ascii_of_N (n + 32) else c.

Definition toLowerCase (s : string) : string := str (map lower_char (chars s)).

(** [s.lastIndexOf(".")]: the offset of the last occurrence of the
    character, [None] for -1. *)
Fixpoint lastIndexOf_chars (c : ascii) (l : list ascii) : option nat :=
  match l with
  | [] => None
  | x :: l' =>
      match lastIndexOf_chars c l' with
      | Some i => Some (S i)
      | None => if Ascii.eqb x c then Some 0 else None
      end
  end.

Definition lastIndexOf (s : string) (c : ascii) : option nat :=
  lastIndexOf_chars c (chars s).

(** [s.substring(start)] *)
Definition substring_from (start : nat) (s : string) : string :=
  str (drop start (chars s)).

(** [s.includes(sub)] *)
Fixpoint includes_chars (sub l : list ascii) : bool :=
  match strip_prefix sub l with
  | Some _ => true
  | None =>
      match l with
      | [] => false
      | _ :: l' => includes_chars sub l'
      end
  end.

Definition includes (s sub : string) : bool :=
  includes_chars (chars sub) (chars s).

(** [s.split("\n")[0]]: the text before the first line feed. *)
Fixpoint first_line_chars (l : list ascii) : list ascii :=
  match l with
  | [] => []
  | c :: l' => if Ascii.eqb c "010" then [] else c :: first_line_chars l'
  end.

Definition first_line (s : string) : string := str (first_line_chars (chars s)).

(** The line feed, ["\n"] in the sources. *)
Definition LF : string := String "010" "".

End JS.

(** ** JSON values and [JSON.parse] *)

Module Json.
Import JS.

(** The values [JSON.parse] can return. A number keeps its source
    lexeme: the code below only ever asks for its [typeof]. An object
    keeps its members in source order; a later member with the same key
    shadows an earlier one, as [JSON.parse] does. *)
Inductive json : Type :=
| JNull
| JBool (b : bool)
| JNumber (lexeme : string)
| JString (s : string)
| JArray (items : list json)
| JObject (members : list (string * json)).

(** [o[key]] on the members of a parsed object; [None] is [undefined]. *)
Fixpoint lookup_member (key : string) (members : list (string * json))
  : option json :=
  match members with
  | [] => None
  | (k, v) :: rest =>
      match lookup_member key rest with
      | Some v' => Some v'
      | None => if String.eqb k key then Some v else None
      end
  end.

(** *** A reference reader for the JSON grammar (ECMA-404)

    [JSON.parse] itself is a built-in: [parseResponse] below takes it
    as a parameter. This reader instantiates the parameter on concrete
    texts. *)

Definition is_json_space (c : ascii) : bool :=
  let n := N_of_ascii c in ((n =? 32) || (n =? 9) || (n =? 10) || (n =? 13))%N.

Definition skip_ws : list ascii → list ascii := drop_while is_json_space.

Definition is_digit (c : ascii) : bool :=
  let n := N_of_ascii c in ((48 <=? n) && (n <=? 57))%N.

Fixpoint span {A} (p : A → bool) (l : list A) : list A * list A :=
  match l with
  | [] => ([], [])
  | x :: l' =>
      if p x then let '(a, b) := span p l' in (x :: a, b) else ([], l)
  end.

(** int: [0] or a non-zero digit followed by digits *)
Definition scan_int (l : list ascii) : option (list ascii * list ascii) :=
  match l with
  | "0"%char :: r => Some (["0"%char], r)
  | c :: r =>
      if is_digit c then let '(ds, r') := span is_digit r in Some (c :: ds, r')
      else None
  | [] => None
  end.

Definition scan_digits1 (l : list ascii) : option (list ascii * list ascii) :=
  match span is_digit l with
  | ([], _) => None
  | (ds, r) => Some (ds, r)
  end.

Definition scan_frac (l : list ascii) : option (list ascii * list ascii) :=
  match l with
  | "."%char :: r =>
      match scan_digits1 r with
      | Some (ds, r') => Some ("."%char :: ds, r')
      | None => None
      end
  | _ => Some ([], l)
  end.

Definition scan_exp (l : list ascii) : option (list ascii * list ascii) :=
  match l with
  | c :: r =>
      if (Ascii.eqb c "e" || Ascii.eqb c "E")%bool then
        let '(sign, r1) :=
          match r with
          | s :: r1 =>
              if (Ascii.eqb s "+" || Ascii.eqb s "-")%bool then ([s], r1)
              else ([], r)
          | [] => ([], r)
          end in
        match scan_digits1 r1 with
        | Some (ds, r2) => Some (c :: sign ++ ds, r2)
        | None => None
        end
      else Some ([], l)
  | [] => Some ([], l)
  end.

Definition scan_number (l : list ascii) : option (list ascii * list ascii) :=
  let '(minus, r0) :=
    match l with
    | "-"%char :: r => (["-"%char], r)
    | _ => ([], l)
    end in
  '(i, r1) ← scan_int r0;
  '(f, r2) ← scan_frac r1;
  '(e, r3) ← scan_exp r2;
  Some (minus ++ i ++ f ++ e, r3).

Definition hex_digit (c : ascii) : option N :=
  let n := N_of_ascii c in
  if ((48 <=? n) && (n <=? 57))%N then Some (n - 48)%N
  else if ((65 <=? n) && (n <=? 70))%N then Some (n - 55)%N
  else if ((97 <=? n) && (n <=? 102))%N then Some (n - 87)%N
  else None.

(** The characters of a string literal after its opening quote. An
    escape [\uXXXX] above U+00FF names a code unit outside the model and
    is refused. *)
Fixpoint scan_string (fuel : nat) (l : list ascii)
  : option (list ascii * list ascii) :=
  match fuel with
  | 0 => None
  | S fuel =>
      match l with
      | [] => None
      | "034"%char :: r => Some ([], r)
      | "\"%char :: e :: r =>
          let continue_with (c : ascii) (r : list ascii) :=
            '(s, r') ← scan_string fuel r; Some (c :: s, r') in
          match e with
          | "034"%char => continue_with "034"%char r
          | "\"%char => continue_with "\"%char r
          | "/"%char => continue_with "/"%char r
          | "b"%char => continue_with "008"%char r
          | "f"%char => continue_with "012"%char r
          | "n"%char => continue_with "010"%char r
          | "r"%char => continue_with "013"%char r
          | "t"%char => continue_with "009"%char r
          | "u"%char =>
              match r with
              | h1 :: h2 :: h3 :: h4 :: r' =>
                  a ← hex_digit h1; b ← hex_digit h2;
                  c ← hex_digit h3; d ← hex_digit h4;
                  let n := (((a * 16 + b) * 16 + c) * 16 + d)%N in
                  if (n <? 256)%N then continue_with (ascii_of_N n) r'
                  else None
              | _ => None
              end
          | _ => None
          end
      | c :: r =>
          if (N_of_ascii c <? 32)%N then None
          else '(s, r') ← scan_string fuel r; Some (c :: s, r')
      end
  end.

Fixpoint parse_value (fuel : nat) (l : list ascii)
  : option (json * list ascii) :=
  match fuel with
  | 0 => None
  | S fuel =>
      match skip_ws l with
      | "n"%char :: r => r' ← strip_prefix (chars "ull") r; Some (JNull, r')
      | "t"%char :: r => r' ← strip_prefix (chars "rue") r; Some (JBool true, r')
      | "f"%char :: r => r' ← strip_prefix (chars "alse") r; Some (JBool false, r')
      | "034"%char :: r =>
          '(s, r') ← scan_string (S (length r)) r; Some (JString (str s), r')
      | "["%char :: r =>
          match skip_ws r with
          | "]"%char :: r' => Some (JArray [], r')
          | _ => parse_elements fuel r []
          end
      | "{"%char :: r =>
          match skip_ws r with
          | "}"%char :: r' => Some (JObject [], r')
          | _ => parse_members fuel r []
          end
      | l' => '(n, r) ← scan_number l'; Some (JNumber (str n), r)
      end
  end
with parse_elements (fuel : nat) (l : list ascii) (acc : list json)
  : option (json * list ascii) :=
  match fuel with
  | 0 => None
  | S fuel =>
      '(v, r) ← parse_value fuel l;
      match skip_ws r with
      | ","%char :: r' => parse_elements fuel r' (acc ++ [v])
      | "]"%char :: r' => Some (JArray (acc ++ [v]), r')
      | _ => None
      end
  end
with parse_members (fuel : nat) (l : list ascii) (acc : list (string * json))
  : option (json * list ascii) :=
  match fuel with
  | 0 => None
  | S fuel =>
      match skip_ws l with
      | "034"%char :: r =>
          '(k, r1) ← scan_string (S (length r)) r;
          match skip_ws r1 with
          | ":"%char :: r2 =>
              '(v, r3) ← parse_value fuel r2;
              match skip_ws r3 with
              | ","%char :: r4 => parse_members fuel r4 (acc ++ [(str k, v)])
              | "}"%char :: r4 => Some (JObject (acc ++ [(str k, v)]), r4)
              | _ => None
              end
          | _ => None
          end
      | _ => None
      end
  end.

(** [JSON.parse(text)]: the value when the whole text is one JSON value
    between optional white space, a [SyntaxError] otherwise. The strings
    of this development are texts of code units up to U+00FF, and this
    reader agrees with [JSON.parse] on the texts whose string literals
    name no code unit above: for an escape [\uXXXX] above U+00FF
    [JSON.parse] returns a string that these texts cannot hold, and the
    reader here throws. The theorems about [parseResponse] take the
    reader as a parameter and hold of every reader; this one serves to
    evaluate [parseResponse] on the concrete responses of the tests,
    which have no such escape. *)
Definition JSON_parse (text : string) : outcome json :=
  let l := chars text in
  match parse_value (2 * length l + 2) l with
  | Some (v, r) =>
      match skip_ws r with
      | [] => Ok v
      | _ => Throw (SyntaxError "Unexpected non-whitespace character after JSON")
      end
  | None => Throw (SyntaxError "Unexpected token in JSON")
  end.

End Json.

(** ** Memory extraction: parsing the model's reply *)

Module Extractor.
Import JS Json.

Record ExtractedMemory : Type := {
  text : string;       (* the fact to remember *)
  rationale : string;  (* why it is worth remembering *)
}.

Definition fence : list ascii := chars "```".

(** [json.replace(/^```(?:json)?\s*\n?/, "")]. After the fence the
    greedy [(?:json)?] takes the tag when it is there and the greedy
    [\s*] takes every white-space character that follows, line feeds
    included, so [\n?] is left with nothing to take. *)
Definition remove_opening_fence (l : list ascii) : list ascii :=
  match strip_prefix fence l with
  | None => l
  | Some l1 =>
      let l2 := match strip_prefix (chars "json") l1 with
                | Some l2 => l2
                | None => l1
                end in
      drop_while is_white_space l2
  end.

(** [json.replace(/\n?\s*```\s*$/, "")]. Without the [m] flag [$] is
    the end of the text, so a match is a suffix made of white space, a
    fence and white space; the leftmost one starts at the beginning of
    the white space that precedes the fence. *)
Definition remove_closing_fence (l : list ascii) : list ascii :=
  match strip_prefix (rev fence) (drop_while is_white_space (rev l)) with
  | None => l
  | Some r => rev (drop_while is_white_space r)
  end.

(** [json.match(/\[[\s\S]*\]/)]: the leftmost match starts at the first
    opening bracket and the greedy star runs to the last closing bracket
    after it; [None] is the [null] of no match, [Some] carries
    [match[0]]. *)
Definition match_array (l : list ascii) : option (list ascii) :=
  match drop_while (λ c, negb (Ascii.eqb c "[")) l with
  | [] => None
  | l1 =>
      match drop_while_end (λ c, negb (Ascii.eqb c "]")) l1 with
      | [] => None
      | m => Some m
      end
  end.

(** The first half of [parseResponse]: the text handed to [JSON.parse]. *)
Definition strip_fences (response : string) : string :=
  let json := trim response in
  if startsWith json "```" then
    str (remove_closing_fence (remove_opening_fence (chars json)))
  else json.

(** [typeof v === "object"]: true of objects, of arrays and of [null]. *)
Definition typeof_object (v : json) : bool :=
  match v with
  | JNull | JArray _ | JObject _ => true
  | _ => false
  end.

(** [item.key] for an item that passed [typeof item === "object" &&
    item !== null]. An array has no property named [text] or
    [rationale]. *)
Definition property (item : json) (key : string) : option json :=
  match item with
  | JObject members => lookup_member key members
  | _ => None
  end.

(** The test of the [if] inside the loop, with the memory pushed when it
    holds. *)
Definition accept (item : json) : option ExtractedMemory :=
  if typeof_object item then
    match item with
    | JNull => None
    | _ =>
        match property item "text", property item "rationale" with
        | Some (JString t), Some (JString r) =>
            if (0 <? String.length (trim t))%nat
            then Some {| text := trim t; rationale := trim r |}
            else None
        | _, _ => None
        end
    end
  else None.

(** [for (const item of parsed) { if (...) memories.push({...}) }] *)
Definition collect (parsed : list json) : list ExtractedMemory :=
  fold_left
    (λ memories item,
       match accept item with
       | Some m => memories ++ [m]
       | None => memories
       end)
    parsed [].

Section WithParser.
(** The built-in [JSON.parse]. *)
Variable JSON_parse : string → outcome json.

Definition parseResponse (response : string)
  : outcome (list ExtractedMemory) :=
  let json := strip_fences response in
  bind
    (try_catch
       (bind (JSON_parse json) (λ parsed, Ok (Normal parsed)))
       (λ _,
          match match_array (chars json) with
          | Some m =>
              try_catch
                (bind (JSON_parse (str m)) (λ parsed, Ok (Normal parsed)))
                (λ _, Ok (Return []))
          | None => Ok (Return [])
          end))
    (λ c,
       match c with
       | Return r => Ok r
       | Normal parsed =>
           match parsed with
           | JArray items => Ok (collect items)
           | _ => Ok []
           end
       end).
End WithParser.

End Extractor.

(** ** [src/signature.ts]: structural signatures *)

Module Signature.
Import JS.

(** *** The syntax tree and the queries of tree-sitter

    A named node of a parsed tree: its identity, its grammar type, the
    offset and the text of the source it spans and its named children,
    each with the field name under which its parent holds it. Anonymous
    tokens are leaves that no pattern below can match; they are left
    out. *)
Inductive Node : Type :=
  mkNode {
    id : nat;
    type : string;
    startIndex : nat;
    text : string;
    children : list (option string * Node);
  }.

(** The query patterns of [LANGUAGES] are chains: a node type, at most
    a field name, one child pattern, and the capture [@name] on the
    innermost node. *)
Inductive Pattern : Type :=
| Capture (ty : string)
| Child (ty : string) (field : option string) (inner : Pattern).

(** A captured node together with its chain of parents, nearest first
    ([node.parent], [node.parent.parent], ...). *)
Record QueryCapture : Type := {
  node : Node;
  parents : list Node;
}.

Definition field_matches (wanted actual : option string) : bool :=
  match wanted with
  | None => true
  | Some f =>
      match actual with
      | Some f' => String.eqb f f'
      | None => false
      end
  end.

(** Every way in which a pattern matches at node [n]. *)
Fixpoint match_pattern (p : Pattern) (ps : list Node) (n : Node)
  : list QueryCapture :=
  match p with
  | Capture ty =>
      if String.eqb (type n) ty then [{| node := n; parents := ps |}] else []
  | Child ty field inner =>
      if String.eqb (type n) ty then
        flat_map
          (λ fc : option string * Node,
             if field_matches field fc.1
             then match_pattern inner (n :: ps) fc.2
             else [])
          (children n)
      else []
  end.

(** The matches that start at [n] or at any node below it: a query
    cursor without a start-depth limit visits the whole tree. *)
Fixpoint matches_below (q : list Pattern) (ps : list Node) (n : Node)
  : list QueryCapture :=
  flat_map (λ p, match_pattern p ps n) q
  ++ flat_map
       (λ fc : option string * Node, matches_below q (n :: ps) fc.2)
       (children n).

Fixpoint insert_capture (c : QueryCapture) (l : list QueryCapture)
  : list QueryCapture :=
  match l with
  | [] => [c]
  | d :: l' =>
      if (startIndex (node c) <=? startIndex (node d))%nat then c :: l
      else d :: insert_capture c l'
  end.

(** [query.captures(tree.rootNode)], called without options: the
    captures of all matches, in the order of their position in the
    source. *)
Definition Query_captures (q : list Pattern) (rootNode : Node)
  : list QueryCapture :=
  foldr insert_capture [] (matches_below q [] rootNode).

(** *** Language configurations *)

Record LanguageConfig : Type := {
  query : list Pattern;
  wasmFile : string;
}.

Definition named (ty idty : string) : Pattern :=
  Child ty (Some "name") (Capture idty).
Definition exported (p : Pattern) : Pattern :=
  Child "export_statement" (Some "declaration") p.
Definition lexical : Pattern :=
  Child "lexical_declaration" None (named "variable_declarator" "identifier").

Definition typescript_query : list Pattern :=
  [ named "class_declaration" "type_identifier";
    named "abstract_class_declaration" "type_identifier";
    named "interface_declaration" "type_identifier";
    named "type_alias_declaration" "type_identifier";
    named "function_declaration" "identifier";
    named "enum_declaration" "identifier";
    exported (named "class_declaration" "type_identifier");
    exported (named "abstract_class_declaration" "type_identifier");
    exported (named "interface_declaration" "type_identifier");
    exported (named "type_alias_declaration" "type_identifier");
    exported (named "function_declaration" "identifier");
    exported (named "enum_declaration" "identifier");
    exported lexical;
    lexical ].

Definition javascript_query : list Pattern :=
  [ named "class_declaration" "identifier";
    named "function_declaration" "identifier";
    exported (named "class_declaration" "identifier");
    exported (named "function_declaration" "identifier");
    exported lexical;
    lexical ].

Definition c_function : Pattern :=
  Child "function_definition" (Some "declarator")
    (Child "function_declarator" (Some "declarator") (Capture "identifier")).

Definition LANGUAGES_table : list (string * LanguageConfig) :=
  [ ("typescript",
      {| wasmFile := "tree-sitter-typescript.wasm"; query := typescript_query |});
    (* the query of tsx is, pattern for pattern, the one of typescript *)
    ("tsx",
      {| wasmFile := "tree-sitter-tsx.wasm"; query := typescript_query |});
    ("javascript",
      {| wasmFile := "tree-sitter-javascript.wasm"; query := javascript_query |});
    ("python",
      {| wasmFile := "tree-sitter-python.wasm";
         query := [ named "class_definition" "identifier";
                    named "function_definition" "identifier" ] |});
    ("ruby",
      {| wasmFile := "tree-sitter-ruby.wasm";
         query := [ named "module" "constant";
                    named "class" "constant";
                    named "method" "identifier";
                    named "singleton_method" "identifier" ] |});
    ("go",
      {| wasmFile := "tree-sitter-go.wasm";
         query := [ Child "package_clause" None (Capture "package_identifier");
                    Child "type_declaration" None
                      (named "type_spec" "type_identifier");
                    named "function_declaration" "identifier";
                    named "method_declaration" "field_identifier" ] |});
    ("rust",
      {| wasmFile := "tree-sitter-rust.wasm";
         query := [ named "mod_item" "identifier";
                    named "struct_item" "type_identifier";
                    named "enum_item" "type_identifier";
                    named "trait_item" "type_identifier";
                    Child "impl_item" (Some "type") (Capture "type_identifier");
                    named "function_item" "identifier";
                    named "type_item" "type_identifier" ] |});
    ("c",
      {| wasmFile := "tree-sitter-c.wasm";
         query := [ c_function;
                    Child "function_definition" (Some "declarator")
                      (Child "pointer_declarator" (Some "declarator")
                         (Child "function_declarator" (Some "declarator")
                            (Capture "identifier")));
                    named "struct_specifier" "type_identifier";
                    named "enum_specifier" "type_identifier";
                    Child "type_definition" (Some "declarator")
                      (Capture "type_identifier") ] |});
    ("cpp",
      {| wasmFile := "tree-sitter-cpp.wasm";
         query := [ c_function;
                    named "class_specifier" "type_identifier";
                    named "struct_specifier" "type_identifier";
                    named "enum_specifier" "type_identifier";
                    named "namespace_definition" "identifier";
                    Child "type_definition" (Some "declarator")
                      (Capture "type_identifier") ] |});
    ("java",
      {| wasmFile := "tree-sitter-java.wasm";
         query := [ Child "package_declaration" None (Capture "scoped_identifier");
                    named "class_declaration" "identifier";
                    named "interface_declaration" "identifier";
                    named "enum_declaration" "identifier";
                    named "method_declaration" "identifier" ] |});
    ("swift",
      {| wasmFile := "tree-sitter-swift.wasm";
         query := [ named "class_declaration" "type_identifier";
                    named "protocol_declaration" "type_identifier";
                    named "function_declaration" "simple_identifier" ] |});
    ("dart",
      {| wasmFile := "tree-sitter-dart.wasm";
         query := [ named "class_definition" "identifier";
                    named "function_signature" "identifier";
                    named "enum_declaration" "identifier" ] |});
    ("php",
      {| wasmFile := "tree-sitter-php.wasm";
         query := [ named "class_declaration" "name";
                    named "interface_declaration" "name";
                    named "trait_declaration" "name";
                    named "function_definition" "name";
                    named "namespace_definition" "namespace_name" ] |});
    ("csharp",
      {| wasmFile := "tree-sitter-c_sharp.wasm";
         query := [ named "class_declaration" "identifier";
                    named "interface_declaration" "identifier";
                    named "struct_declaration" "identifier";
                    named "enum_declaration" "identifier";
                    named "namespace_declaration" "identifier";
                    named "method_declaration" "identifier" ] |}) ].

Definition LANGUAGES : gmap string LanguageConfig :=
  list_to_map LANGUAGES_table.

(** Map file extensions to language keys *)
Definition EXTENSION_MAP : gmap string string :=
  list_to_map
    [ (".ts", "typescript"); (".tsx", "tsx");
      (".js", "javascript"); (".jsx", "javascript");
      (".mjs", "javascript"); (".cjs", "javascript");
      (".py", "python"); (".rb", "ruby"); (".go", "go"); (".rs", "rust");
      (".c", "c"); (".h", "c");
      (".cpp", "cpp"); (".hpp", "cpp"); (".cc", "cpp"); (".cxx", "cpp");
      (".java", "java"); (".swift", "swift"); (".dart", "dart");
      (".php", "php"); (".cs", "csharp") ].

(** *** Public API *)

Definition detectLanguage (filePath : string) : option string :=
  match lastIndexOf filePath "." with
  | None => None
  | Some dotIndex =>
      let ext := toLowerCase (substring_from dotIndex filePath) in
      EXTENSION_MAP !! ext
  end.

Definition supportedLanguages : list string := LANGUAGES_table.*1.

(** The loop of [extractSignature] over the captures: the state is the
    array [names] and the set [seen]. *)
Definition names_step (st : list string * gset string) (capture : QueryCapture)
  : list string * gset string :=
  let '(names, seen) := st in
  let text := trim (text (node capture)) in
  if negb (String.eqb text "") && negb (bool_decide (text ∈ seen))
  then (names ++ [text], {[ text ]} ∪ seen)
  else st.

Definition collect_names (captures : list QueryCapture) : list string :=
  (fold_left names_step captures ([], ∅)).1.

Definition is_declaration_type (parentType : string) : bool :=
  includes parentType "declaration"
  || includes parentType "definition"
  || includes parentType "item"
  || includes parentType "specifier"
  || String.eqb parentType "export_statement"
  || String.eqb parentType "impl_item"
  || String.eqb parentType "type_declaration"
  || String.eqb parentType "program"
  || String.eqb parentType "module".

(** The [while (current.parent)] loop, on the node and its chain of
    parents. *)
Fixpoint findDeclarationAncestor (current : Node) (ps : list Node) : Node :=
  match ps with
  | [] => current
  | parent :: ps' =>
      if is_declaration_type (type parent) then
        if String.eqb (type parent) "program"
           || String.eqb (type parent) "module"
        then current else parent
      else findDeclarationAncestor parent ps'
  end.

(** The loop of [extractSignatureLines]: the array [lines] and the set
    [seen] of node identities. *)
Definition lines_step (st : list string * gset nat) (capture : QueryCapture)
  : list string * gset nat :=
  let '(lines, seen) := st in
  let declNode := findDeclarationAncestor (node capture) (parents capture) in
  if bool_decide (id declNode ∈ seen) then st
  else
    let firstLine := trim (first_line (text declNode)) in
    if negb (String.eqb firstLine "")
    then (lines ++ [firstLine], {[ id declNode ]} ∪ seen)
    else (lines, {[ id declNode ]} ∪ seen).

Definition collect_lines (captures : list QueryCapture) : list string :=
  (fold_left lines_step captures ([], ∅)).1.

Section WithParser.
(** [parser.parse(content)] with the grammar of a language key; [None]
    is the [null] tree. *)
Variable parse : string → string → option Node.

Definition extractSignature (filePath content : string) : option string :=
  match detectLanguage filePath with
  | None => None
  | Some langKey =>
      match LANGUAGES !! langKey with
      | None => None
      | Some config =>
          match parse langKey content with
          | None => None
          | Some rootNode =>
              let captures := Query_captures (query config) rootNode in
              let names := collect_names captures in
              if (length names =? 0)%nat then None
              else Some (filePath +:+ " | " +:+ join " | " names)
          end
      end
  end.

Definition extractSignatureLines (filePath content : string)
  : option string :=
  match detectLanguage filePath with
  | None => None
  | Some langKey =>
      match LANGUAGES !! langKey with
      | None => None
      | Some config =>
          match parse langKey content with
          | None => None
          | Some rootNode =>
              let captures := Query_captures (query config) rootNode in
              let lines := collect_lines captures in
              if (length lines =? 0)%nat then None
              else Some (filePath +:+ " | " +:+ join " | " lines)
          end
      end
  end.
End WithParser.

End Signature.

(** ** The signature extractor: parser management *)

Module SignatureRuntime.
Import JS Signature.

(** The objects of the tree-sitter runtime, each with its identity. A
    language is loaded from a grammar file; a query is compiled for a
    language from a query source. *)
Record Language : Type := {
  language_id : nat;
  wasmPath : string;
}.

Record Query : Type := {
  query_id : nat;
  query_language : Language;
  query_source : list Pattern;
}.

(** The variables of the module, and what the module holds of the
    runtime and of the process: the number of listeners it has added to
    the [exit] event, the queries created and not deleted, and the
    number of objects created so far, which is the identity of the
    next one. The parser and the tree of a call are local to it. *)
Record State : Type := {
  parserInitialized : bool;
  loadedLanguages : gmap string Language;
  compiledQueries : gmap string Query;
  exitHandlerRegistered : bool;
  exit_listeners : nat;
  live_queries : gset nat;
  objects : nat;
}.

(** The state when the module has been loaded. *)
Definition initial : State :=
  {| parserInitialized := false; loadedLanguages := ∅; compiledQueries := ∅;
     exitHandlerRegistered := false; exit_listeners := 0; live_queries := ∅;
     objects := 0 |}.

Section WithRuntime.
(** The directory of the grammar files, [getWasmDir()]; whether
    [Parser.init()], [Language.load(path)] and [new Query(language,
    source)] succeed; and the tree that a parser set to the grammar of
    a file makes of a text, [None] for [null]. *)
Variable wasmDir : string.
Variable Parser_init : outcome unit.
Variable Language_load : string → outcome unit.
Variable Query_new : Language → list Pattern → outcome unit.
Variable parse_with : string → string → option Node.

(** [join(getWasmDir(), config.wasmFile)] *)
Definition wasm_path (config : LanguageConfig) : string :=
  wasmDir +:+ "/" +:+ wasmFile config.

Definition registerExitHandler (s : State) : State :=
  if exitHandlerRegistered s then s
  else
    {| parserInitialized := parserInitialized s;
       loadedLanguages := loadedLanguages s;
       compiledQueries := compiledQueries s;
       exitHandlerRegistered := true;
       exit_listeners := S (exit_listeners s);      (* process.on("exit", ...) *)
       live_queries := live_queries s;
       objects := objects s |}.

Definition ensureInit (s : State) : outcome unit * State :=
  if negb (parserInitialized s) then
    match Parser_init with
    | Throw e => (Throw e, s)
    | Ok _ =>
        (Ok (),
         registerExitHandler
           {| parserInitialized := true;
              loadedLanguages := loadedLanguages s;
              compiledQueries := compiledQueries s;
              exitHandlerRegistered := exitHandlerRegistered s;
              exit_listeners := exit_listeners s;
              live_queries := live_queries s;
              objects := objects s |})
    end
  else (Ok (), s).

Definition getLanguage (langKey : string) (s : State)
  : outcome (option Language) * State :=
  match LANGUAGES !! langKey with
  | None => (Ok None, s)
  | Some config =>
      match loadedLanguages s !! langKey with
      | Some cached => (Ok (Some cached), s)
      | None =>
          let wasmPath := wasm_path config in
          match Language_load wasmPath with
          | Throw e => (Throw e, s)
          | Ok _ =>
              let language :=
                {| language_id := objects s; wasmPath := wasmPath |} in
              (Ok (Some language),
               {| parserInitialized := parserInitialized s;
                  loadedLanguages := <[langKey := language]> (loadedLanguages s);
                  compiledQueries := compiledQueries s;
                  exitHandlerRegistered := exitHandlerRegistered s;
                  exit_listeners := exit_listeners s;
                  live_queries := live_queries s;
                  objects := S (objects s) |})
          end
      end
  end.

Definition getQuery (langKey : string) (language : Language) (s : State)
  : outcome Query * State :=
  match compiledQueries s !! langKey with
  | Some cached => (Ok cached, s)
  | None =>
      match LANGUAGES !! langKey with
      | None => (Throw (Error ("No config for language: " +:+ langKey)), s)
      | Some config =>
          match Query_new language (query config) with
          | Throw e => (Throw e, s)
          | Ok _ =>
              let query :=
                {| query_id := objects s; query_language := language;
                   query_source := query config |} in
              (Ok query,
               {| parserInitialized := parserInitialized s;
                  loadedLanguages := loadedLanguages s;
                  compiledQueries := <[langKey := query]> (compiledQueries s);
                  exitHandlerRegistered := exitHandlerRegistered s;
                  exit_listeners := exit_listeners s;
                  live_queries := {[ objects s ]} ∪ live_queries s;
                  objects := S (objects s) |})
          end
      end
  end.

(** Clean up tree-sitter resources: [query.delete()] for every cached
    query, then the two caches are cleared. *)
Definition disposeSignatureExtractor (s : State) : State :=
  {| parserInitialized := false;
     loadedLanguages := ∅;
     compiledQueries := ∅;
     exitHandlerRegistered := exitHandlerRegistered s;
     exit_listeners := exit_listeners s;
     live_queries :=
       foldr (λ query live, live ∖ {[ query_id query ]}) (live_queries s)
         (map_to_list (compiledQueries s)).*2;
     objects := objects s |}.

(** The two public functions with the state of the module. [collect]
    is the loop over the captures, [collect_names] or [collect_lines];
    the rest of the two functions is the same. *)
Definition extract_with (collect : list QueryCapture → list string)
    (filePath content : string) (s : State) : outcome (option string) * State :=
  match detectLanguage filePath with
  | None => (Ok None, s)
  | Some langKey =>
      match ensureInit s with
      | (Throw e, s1) => (Throw e, s1)
      | (Ok _, s1) =>
          match getLanguage langKey s1 with
          | (Throw e, s2) => (Throw e, s2)
          | (Ok None, s2) => (Ok None, s2)
          | (Ok (Some language), s2) =>
              (* parser.setLanguage(language); parser.parse(content) *)
              match parse_with (wasmPath language) content with
              | None => (Ok None, s2)
              | Some rootNode =>
                  match getQuery langKey language s2 with
                  | (Throw e, s3) => (Throw e, s3)
                  | (Ok query, s3) =>
                      let captures :=
                        Query_captures (query_source query) rootNode in
                      let names := collect captures in
                      if (length names =? 0)%nat then (Ok None, s3)
                      else
                        (Ok (Some (filePath +:+ " | " +:+ join " | " names)),
                         s3)
                  end
              end
          end
      end
  end.

Definition extractSignature_in : string → string → State
    → outcome (option string) * State :=
  extract_with collect_names.

Definition extractSignatureLines_in : string → string → State
    → outcome (option string) * State :=
  extract_with collect_lines.

(** The parser of the two functions without the state: a language key
    stands for the grammar file of its configuration. *)
Definition parse_of (langKey content : string) : option Node :=
  match LANGUAGES !! langKey with
  | Some config => parse_with (wasm_path config) content
  | None => None
  end.

(** The calls a client can make on the module. *)
Inductive call : Type :=
| ExtractSignature (filePath content : string)
| ExtractSignatureLines (filePath content : string)
| Dispose.

Definition step (c : call) (s : State) : State :=
  match c with
  | ExtractSignature filePath content =>
      (extractSignature_in filePath content s).2
  | ExtractSignatureLines filePath content =>
      (extractSignatureLines_in filePath content s).2
  | Dispose => disposeSignatureExtractor s
  end.

Definition run (calls : list call) (s : State) : State :=
  fold_left (λ st c, step c st) calls s.

(** The caches agree with the configuration and with each other: a
    cached language is the grammar of its key, a cached query was
    compiled from the query source of its key for the cached language
    of that key; the live queries are the cached ones, each under one
    key; and the module has added one listener to [exit] if it has
    registered its handler, none otherwise. *)
Definition cache_ok (s : State) : Prop :=
  (∀ k l, loadedLanguages s !! k = Some l →
     ∃ config, LANGUAGES !! k = Some config ∧ wasmPath l = wasm_path config)
  ∧ (∀ k q, compiledQueries s !! k = Some q →
       (∃ config, LANGUAGES !! k = Some config ∧ query_source q = query config)
       ∧ loadedLanguages s !! k = Some (query_language q)
       ∧ (query_id q < objects s)%nat)
  ∧ (∀ k1 k2 q1 q2,
       compiledQueries s !! k1 = Some q1 → compiledQueries s !! k2 = Some q2 →
       query_id q1 = query_id q2 → k1 = k2)
  ∧ (∀ i, i ∈ live_queries s ↔
          ∃ k q, compiledQueries s !! k = Some q ∧ query_id q = i)
  ∧ exit_listeners s = (if exitHandlerRegistered s then 1 else 0)%nat.

End WithRuntime.

End SignatureRuntime.

(** ** [src/store.ts]: the vector store *)

#[global] Instance Rlt_decision (x y : R) : Decision (x < y)%R := Rlt_dec x y.
#[global] Instance Rle_decision (x y : R) : Decision (x <= y)%R := Rle_dec x y.

Module Vector.
Local Open Scope R_scope.

Definition sum (l : list R) : R := foldr Rplus 0 l.

(** The dot product, the Euclidean norm and the cosine of the angle of
    two vectors. *)
Definition dot (a b : list R) : R := sum (zip_with Rmult a b).
Definition norm (a : list R) : R := sqrt (dot a a).
Definition sub (a b : list R) : list R := zip_with Rminus a b.
Definition cosine (a b : list R) : R := dot a b / (norm a * norm b).

(** The L2 distance of the vec0 index. *)
Definition l2_distance (a b : list R) : R := norm (sub a b).
End Vector.

Module Store.
Import JS.

Record Memory : Type := {
  id : Z;
  text : string;
  createdAt : string;  (* ISO timestamp of when this memory was created *)
  sessionId : string;  (* session this memory was extracted from *)
}.

Record MemoryMatch : Type := {
  memory : Memory;
  similarity : R;      (* cosine similarity score *)
}.

(** *** The database

    Table [memories (id INTEGER PRIMARY KEY AUTOINCREMENT, text,
    created_at, session_id)] with the counter that [AUTOINCREMENT] keeps
    in [sqlite_sequence], and the virtual table [memories_vec] of the
    vec0 index, from row id to embedding. *)
Record MemoryRow : Type := {
  row_text : string;
  created_at : string;
  session_id : string;
}.

(** The L2 distance that the vec0 module reports for a stored embedding
    and a query. It is computed in float32 from the float32 values that
    [toF32Bytes] makes of the numbers, so it need not be the exact
    distance of the two vectors. What is known of it, for embeddings
    whose numbers are in the range of float32: it is a number that is
    not negative, it is symmetric, and it is zero between a vector and
    itself. *)
Record Distance : Type := {
  reported :> list R → list R → R;
  reported_nonneg : ∀ a b, (0 <= reported a b)%R;
  reported_sym : ∀ a b, reported a b = reported b a;
  reported_self : ∀ a, reported a a = 0%R;
}.

(** The exact distance: the index in ideal arithmetic. *)
Definition exact_distance : Distance.
Proof.
  refine {| reported := Vector.l2_distance |}.
  - abstract (intros a b; apply sqrt_pos).
  - abstract
      (intros a b; unfold Vector.l2_distance, Vector.norm; f_equal;
       unfold Vector.dot, Vector.sub; revert b;
       induction a as [|x a IH]; intros [|y b]; simpl; try reflexivity;
       rewrite IH; ring).
  - abstract
      (intros a; unfold Vector.l2_distance, Vector.norm;
       replace (Vector.dot (Vector.sub a a) (Vector.sub a a)) with 0%R;
       [apply sqrt_0 |];
       unfold Vector.dot, Vector.sub;
       induction a as [|x a IH]; simpl; [reflexivity |];
       rewrite <- IH; ring).
Defined.

(** [vec_dimensions] is the dimension of the [embedding] column with
    which the table [memories_vec] was created, [None] while the table
    does not exist; [vec_distance] is the distance of the vec0 module
    loaded into the connection. *)
Record Database : Type := {
  memories : gmap Z MemoryRow;
  sqlite_sequence : Z;
  memories_vec : gmap Z (list R);
  vec_dimensions : option Z;
  vec_distance : Distance;
}.

Record MemoryStore : Type := {
  db : Database;
  dimensions : Z;
}.

(** A database without tables, as [":memory:"] or a new file is. *)
Definition empty_database : Database :=
  {| memories := ∅; sqlite_sequence := 0; memories_vec := ∅;
     vec_dimensions := None; vec_distance := exact_distance |}.

(** [new MemoryStore(options)] on a database file with the given
    contents. The [CREATE ... IF NOT EXISTS] statements keep the tables
    that exist: the table [memories_vec] of an existing file keeps the
    dimension it was created with, whatever [options.dimensions] is
    now. *)
Definition constructor (dimensions : option Z) (file : Database) : MemoryStore :=
  let dimensions := default 384%Z dimensions in
  {| db :=
       {| memories := memories file;
          sqlite_sequence := sqlite_sequence file;
          memories_vec := memories_vec file;
          vec_dimensions := Some (default dimensions (vec_dimensions file));
          vec_distance := vec_distance file |};
     dimensions := dimensions |}.

(** A statement runs on the database and returns or throws. *)
Definition stmt (A : Type) : Type := Database → outcome A * Database.

(** [db.transaction(fn)()]: commit when [fn] returns, roll back and
    rethrow when it throws. *)
Definition transaction {A} (fn : stmt A) : stmt A :=
  λ d, match fn d with
       | (Ok a, d') => (Ok a, d')
       | (Throw e, _) => (Throw e, d)
       end.

Definition max_rowid (m : gmap Z MemoryRow) : Z :=
  map_fold (λ k _ acc, Z.max k acc) 0%Z m.

(** The integers that sqlite stores: 64 bits, signed. *)
Definition is_int64 (n : Z) : bool :=
  ((- 2 ^ 63 <=? n) && (n <? 2 ^ 63))%Z.

(** [INSERT INTO memories (text, created_at, session_id) VALUES (?, ?, ?)];
    the result is [lastInsertRowid]. With [AUTOINCREMENT] the row id is
    one more than the largest row id ever used; when that was the
    largest 64-bit integer the insertion fails with [SQLITE_FULL]. *)
Definition insert_memory (text created_at session_id : string) : stmt Z :=
  λ d,
    let rowid := (Z.max (sqlite_sequence d) (max_rowid (memories d)) + 1)%Z in
    if negb (is_int64 rowid) then
      (Throw (SqliteError "database or disk is full"), d)
    else
      (Ok rowid,
       {| memories :=
            <[rowid := {| row_text := text; created_at := created_at;
                          session_id := session_id |}]> (memories d);
          sqlite_sequence := rowid;
          memories_vec := memories_vec d;
          vec_dimensions := vec_dimensions d;
          vec_distance := vec_distance d |}).

(** The double quote. *)
Definition quote : string := String "034" "".

(** The errors of the vec0 module for a vector that has not the dimension
    of the column, and of sqlite for a table that does not exist. *)
Definition vec_dimension_error (what : string) (expected received : Z) : exn :=
  SqliteError
    ("Dimension mismatch for " +:+ what +:+ " vector for the " +:+ quote
     +:+ "embedding" +:+ quote +:+ " column. Expected " +:+ pretty expected
     +:+ " dimensions but received " +:+ pretty received +:+ ".").

Definition no_such_table : exn := SqliteError "no such table: memories_vec".

(** [INSERT INTO memories_vec(rowid, embedding) VALUES (:rowid, :embedding)]:
    the vector must have the dimension of the column, and the row id
    must be free. *)
Definition insert_vec (rowid : Z) (embedding : list R) : stmt unit :=
  λ d,
    match vec_dimensions d with
    | None => (Throw no_such_table, d)
    | Some n =>
        if negb (n =? Z.of_nat (length embedding))%Z then
          (Throw (vec_dimension_error "inserted" n
                    (Z.of_nat (length embedding))), d)
        else
          match memories_vec d !! rowid with
          | Some _ =>
              (Throw (SqliteError "UNIQUE constraint failed on memories_vec primary key"), d)
          | None =>
              (Ok (),
               {| memories := memories d;
                  sqlite_sequence := sqlite_sequence d;
                  memories_vec := <[rowid := embedding]> (memories_vec d);
                  vec_dimensions := vec_dimensions d;
                  vec_distance := vec_distance d |})
          end
    end.

(** [DELETE FROM memories WHERE id = ?] *)
Definition delete_memory (id : Z) : stmt unit :=
  λ d,
    (Ok (),
     {| memories := base.delete id (memories d);
        sqlite_sequence := sqlite_sequence d;
        memories_vec := memories_vec d;
        vec_dimensions := vec_dimensions d;
        vec_distance := vec_distance d |}).

(** [DELETE FROM memories_vec WHERE rowid = ?] with the parameter
    [BigInt(id)]: a BigInt that is not a 64-bit integer cannot be bound,
    and [run] throws a [RangeError]. *)
Definition delete_vec (rowid : Z) : stmt unit :=
  λ d,
    if negb (is_int64 rowid) then
      (Throw (RangeError "The bound string, buffer, or bigint is too big"), d)
    else
      (Ok (),
       {| memories := memories d;
          sqlite_sequence := sqlite_sequence d;
          memories_vec := base.delete rowid (memories_vec d);
          vec_dimensions := vec_dimensions d;
          vec_distance := vec_distance d |}).

(** Convert L2 distance to cosine similarity. *)
Definition l2ToCosine (l2Distance : R) : R :=
  (1 - (l2Distance * l2Distance) / 2)%R.

(** The rows of the search statement. *)
Record SearchRow : Type := {
  rowid : Z;
  distance : R;
  s_text : string;
  s_created_at : string;
  s_session_id : string;
}.

Fixpoint insert_nearest (x : Z * R) (l : list (Z * R)) : list (Z * R) :=
  match l with
  | [] => [x]
  | y :: l' =>
      if Rle_dec x.2 y.2 then x :: l else y :: insert_nearest x l'
  end.

(** [WHERE v.embedding MATCH :query AND k = :k] on the vec0 table: the
    [k] rows nearest to the query by the distance that the module
    reports, nearest first, each with that distance. Rows at the same
    distance come in an order that the index does not specify. *)
Definition knn (distance : Distance) (vec : gmap Z (list R)) (query : list R)
    (k : Z) : list (Z * R) :=
  take (Z.to_nat k)
    (foldr insert_nearest []
       ((λ re : Z * list R, (re.1, distance re.2 query))
          <$> map_to_list vec)).

(** [SELECT v.rowid, v.distance, m.text, m.created_at, m.session_id
     FROM memories_vec v JOIN memories m ON m.id = v.rowid
     WHERE v.embedding MATCH :query AND k = :k] *)
Definition select_nearest (query : list R) (k : Z) (d : Database)
  : list SearchRow :=
  omap
    (λ rd : Z * R,
       m ← memories d !! rd.1;
       Some {| rowid := rd.1; distance := rd.2; s_text := row_text m;
               s_created_at := created_at m; s_session_id := session_id m |})
    (knn (vec_distance d) (memories_vec d) query k).

(** The largest [k] that the vec0 module accepts. *)
Definition K_MAX : Z := 4096.

(** The search statement run by [all] with the parameter [BigInt(k)]:
    a BigInt that is not a 64-bit integer cannot be bound; the vec0
    module refuses a query vector that has not the dimension of the
    column, and a [k] above 4096. *)
Definition all_nearest (query : list R) (k : Z) : stmt (list SearchRow) :=
  λ d,
    match vec_dimensions d with
    | None => (Throw no_such_table, d)
    | Some n =>
        if negb (is_int64 k) then
          (Throw (RangeError "The bound string, buffer, or bigint is too big"), d)
        else if negb (n =? Z.of_nat (length query))%Z then
          (Throw (vec_dimension_error "query" n (Z.of_nat (length query))), d)
        else if (K_MAX <? k)%Z then
          (Throw (SqliteError
                    ("k value in knn query too large, provided " +:+ pretty k
                     +:+ " and the limit is " +:+ pretty K_MAX)), d)
        else (Ok (select_nearest query k d), d)
    end.

Definition dimension_error (this : MemoryStore) (embedding : list R) : exn :=
  Error ("Expected " +:+ pretty (dimensions this) +:+ "-dim embedding, got "
         +:+ pretty (Z.of_nat (length embedding))).

(** Store a memory with its embedding. Returns the memory ID. [now] is
    the reading of the clock, [new Date().toISOString()]; the bytes of
    [toF32Bytes(embedding)] stand for the embedding itself; and
    [lastInsertRowid], a number, stands for the row id itself, which it
    is for the row ids below 2^53 that a number holds exactly. *)
Definition add (text : string) (embedding : list R) (sessionId : string)
    (now : string) (this : MemoryStore) : outcome Z * MemoryStore :=
  if negb (Z.of_nat (length embedding) =? dimensions this)%Z then
    (Throw (dimension_error this embedding), this)
  else
    let insertMemory : stmt Z :=
      transaction
        (λ d,
           match insert_memory text now sessionId d with
           | (Ok rowid, d1) =>
               match insert_vec rowid embedding d1 with
               | (Ok _, d2) => (Ok rowid, d2)
               | (Throw e, d2) => (Throw e, d2)
               end
           | (Throw e, d1) => (Throw e, d1)
           end) in
    let '(r, d') := insertMemory (db this) in
    (r, {| db := d'; dimensions := dimensions this |}).

(** The [for (const row of rows)] loop of [search], with the array
    [results] as accumulator. *)
Fixpoint search_loop (threshold : R) (limit : Z) (rows : list SearchRow)
    (results : list MemoryMatch) : list MemoryMatch :=
  match rows with
  | [] => results
  | row :: rows' =>
      let similarity := l2ToCosine (distance row) in
      if Rlt_dec similarity threshold then
        search_loop threshold limit rows' results          (* continue *)
      else
        let results' :=
          results ++
            [{| memory := {| id := rowid row; text := s_text row;
                             createdAt := s_created_at row;
                             sessionId := s_session_id row |};
                similarity := similarity |}] in
        if (Z.of_nat (length results') >=? limit)%Z then results'  (* break *)
        else search_loop threshold limit rows' results'
  end.

(** Search for memories similar to the given embedding. *)
Definition search (embedding : list R) (threshold : R) (limit : Z)
    (this : MemoryStore) : outcome (list MemoryMatch) * MemoryStore :=
  if negb (Z.of_nat (length embedding) =? dimensions this)%Z then
    (Throw (dimension_error this embedding), this)
  else
    (* Fetch more than limit since we filter by threshold after conversion *)
    let fetchLimit := Z.max (limit * 2) 20 in
    match all_nearest embedding fetchLimit (db this) with
    | (Throw e, _) => (Throw e, this)
    | (Ok rows, _) => (Ok (search_loop threshold limit rows []), this)
    end.

(** Get total number of memories. *)
Definition count (this : MemoryStore) : outcome Z * MemoryStore :=
  (Ok (Z.of_nat (size (memories (db this)))), this).

(** Delete a memory by ID. The id is an integer, for which [BigInt(id)]
    returns; the second statement throws when that BigInt is not a
    64-bit integer, and the transaction rolls back. *)
Definition delete (id : Z) (this : MemoryStore) : outcome unit * MemoryStore :=
  let deleteMemory : stmt unit :=
    transaction
      (λ d,
         match delete_memory id d with
         | (Ok _, d1) => delete_vec id d1
         | (Throw e, d1) => (Throw e, d1)
         end) in
  let '(r, d') := deleteMemory (db this) in
  (r, {| db := d'; dimensions := dimensions this |}).

Fixpoint insert_newest (x : Z * MemoryRow) (l : Datatypes.list (Z * MemoryRow))
  : Datatypes.list (Z * MemoryRow) :=
  match l with
  | [] => [x]
  | y :: l' =>
      if String.leb (created_at y.2) (created_at x.2) then x :: l
      else y :: insert_newest x l'
  end.

(** [SELECT id, text, created_at, session_id FROM memories
     ORDER BY created_at DESC] *)
Definition select_all (d : Database) : Datatypes.list (Z * MemoryRow) :=
  foldr insert_newest [] (map_to_list (memories d)).

(** List all memories, ordered by creation time (newest first). *)
Definition list (this : MemoryStore)
  : outcome (Datatypes.list Memory) * MemoryStore :=
  (Ok ((λ row : Z * MemoryRow,
          {| id := row.1; text := row_text row.2;
             createdAt := created_at row.2; sessionId := session_id row.2 |})
         <$> select_all (db this)),
   this).

End Store.

(** ** The extension: recall on read, extraction at shutdown *)

Module Extension.
Import JS.

Definition SIMILARITY_THRESHOLD : R := (3 / 10)%R.
Definition DEDUP_THRESHOLD : R := (9 / 10)%R.
Definition MAX_MEMORIES_PER_READ : Z := 5.

(** The [SessionMessage] of the extractor. *)
Inductive Role : Type := user | assistant.

Record SessionMessage : Type := {
  role : Role;
  text : string;
}.

(** An element of a content array: its [type] when it is an object that
    has one, its [text] when it has one (a string, as the host declares
    it), and its other properties. An element that is not an object has
    neither. *)
Record Part : Type := {
  part_type : option string;
  part_text : option string;
  part_rest : list (string * Json.json);
}.

(** The [content] of a message: a string, an array, or another value,
    of which only the truthiness matters. *)
Inductive Content : Type :=
| CString (s : string)
| CParts (parts : list Part)
| COther (truthy : bool).

(** A message of the session; [None] is a [content] that is missing. *)
Record Message : Type := {
  msg_role : string;
  msg_content : option Content;
}.

(** An entry of the session branch; the message is read for the entries
    of type ["message"] only. *)
Record Entry : Type := {
  entry_type : string;
  entry_message : Message;
}.

(** The truthiness of [msg.content]: the empty string is falsy, an
    array is truthy. *)
Definition truthy (content : option Content) : bool :=
  match content with
  | None => false
  | Some (CString s) => negb (String.eqb s "")
  | Some (CParts _) => true
  | Some (COther b) => b
  end.

(** The loop of [extractText] over the parts, with the array [texts]. *)
Definition texts_step (texts : list string) (part : Part) : list string :=
  match part_type part with
  | Some type =>
      if String.eqb type "text" then
        match part_text part with
        | Some t => if String.eqb t "" then texts else texts ++ [t]
        | None => texts
        end
      else texts
  | None => texts
  end.

Definition extractText (content : Content) : option string :=
  match content with
  | CString s => Some s
  | CParts parts =>
      let texts := fold_left texts_step parts [] in
      if (0 <? length texts)%nat then Some (join LF texts) else None
  | COther _ => None
  end.

(** The body of the loop of [collectSessionMessages]. *)
Definition collect_step (messages : list SessionMessage) (entry : Entry)
  : list SessionMessage :=
  if negb (String.eqb (entry_type entry) "message") then messages
  else
    let msg := entry_message entry in
    let push (r : Role) :=
      match msg_content msg ≫= extractText with
      | Some text =>
          if String.eqb text "" then messages
          else messages ++ [{| role := r; text := text |}]
      | None => messages
      end in
    if String.eqb (msg_role msg) "user" && truthy (msg_content msg)
    then push user
    else if String.eqb (msg_role msg) "assistant" && truthy (msg_content msg)
    then push assistant
    else messages.

(** Collect user/assistant text messages from the session; [branch] is
    [ctx.sessionManager.getBranch()]. *)
Definition collectSessionMessages (branch : list Entry) : list SessionMessage :=
  fold_left collect_step branch [].

Definition formatMemoryBlock (matches : list Store.MemoryMatch) : string :=
  let lines :=
    (λ m, "- " +:+ Store.text (Store.memory m)) <$> matches in
  LF +:+ LF +:+ "<memory>" +:+ LF +:+ join LF lines +:+ LF +:+ "</memory>".

(** The event of a tool result: [input_path] is [event.input?.path],
    [content] is [event.content]. *)
Record ToolResultEvent : Type := {
  toolName : string;
  isError : bool;
  input_path : option string;
  content : option (list Part);
}.


Section WithServices.
(** [parser.parse] of the signature extractor, and [embedder.embed],
    whose promise may be rejected. *)
Variable parse : string → string → option Signature.Node.
Variable embed : string → outcome (list R).

(** The [try] block of the handler of [tool_result]: the signature of
    the file is embedded and searched for; the block of the memories
    found is appended to the text of the part at position [i]. The
    elements of [event.content] are distinct objects, so
    [c === textContent] holds at the position where [find] stopped and
    nowhere else. *)
Definition recall (filePath text : string) (i : nat) (content : list Part)
    (store : Store.MemoryStore) : outcome (option (list Part)) :=
  match Signature.extractSignature parse filePath text with
  | None => Ok None
  | Some signature =>
      if String.eqb signature "" then Ok None
      else
        bind (embed signature)
          (λ queryVec,
             bind (Store.search queryVec SIMILARITY_THRESHOLD
                     MAX_MEMORIES_PER_READ store).1
               (λ matches,
                  if (length matches =? 0)%nat then Ok None
                  else
                    let memoryBlock := formatMemoryBlock matches in
                    let newContent :=
                      imap
                        (λ j c,
                           if decide (j = i) then
                             {| part_type := part_type c;
                                part_text := Some (text +:+ memoryBlock);
                                part_rest := part_rest c |}
                           else c)
                        content in
                    Ok (Some newContent)))
  end.

(** The handler of [tool_result]. [store] is the store once
    [ensureInit] has run, [None] when the extension is not ready. The
    result [None] is the handler returning nothing, which leaves the
    tool result as it is. [count] and [search] leave the store as it
    is. *)
Definition on_tool_result (event : ToolResultEvent)
    (store : option Store.MemoryStore) : outcome (option (list Part)) :=
  if negb (String.eqb (toolName event) "read") then Ok None
  else if isError event then Ok None
  else
    match input_path event with
    | None => Ok None
    | Some filePath =>
        if String.eqb filePath "" then Ok None
        else
          match Signature.detectLanguage filePath with
          | None => Ok None
          | Some langKey =>
              if String.eqb langKey "" then Ok None
              else
                match content event
                      ≫= list_find (λ c, part_type c = Some "text") with
                | None => Ok None
                | Some (i, textContent) =>
                    match part_text textContent with
                    | None => Ok None
                    | Some text =>
                        if String.eqb text "" then Ok None
                        else
                          match store with
                          | None => Ok None
                          | Some store =>
                              bind (Store.count store).1
                                (λ cnt,
                                   if (cnt =? 0)%Z then Ok None
                                   else
                                     try_catch
                                       (recall filePath text i
                                          (default [] (content event)) store)
                                       (λ _, Ok None))
                          end
                    end
                end
          end
    end.

(** The loop [for (const memory of extracted)] of the handler of
    [session_shutdown] and of the extraction worker, with its counters
    [stored] and [skipped]. [clock n] is the reading of the clock in the
    call of [add] that follows [n] stored memories. A rejected [embed]
    or a throwing call leaves the loop with the store as it is then. *)
Fixpoint store_extracted (clock : nat → string)
    (extracted : list Extractor.ExtractedMemory) (sessionId : string)
    (dedupThreshold : R) (stored skipped : nat) (store : Store.MemoryStore)
  : outcome (nat * nat) * Store.MemoryStore :=
  match extracted with
  | [] => (Ok (stored, skipped), store)
  | memory :: rest =>
      match embed (Extractor.text memory) with
      | Throw e => (Throw e, store)
      | Ok vec =>
          match Store.count store with
          | (Throw e, store1) => (Throw e, store1)
          | (Ok cnt, store1) =>
              let duplicate : outcome bool * Store.MemoryStore :=
                if (cnt >? 0)%Z then
                  match Store.search vec dedupThreshold 1 store1 with
                  | (Throw e, store2) => (Throw e, store2)
                  | (Ok dupes, store2) =>
                      (Ok (0 <? length dupes)%nat, store2)
                  end
                else (Ok false, store1) in
              match duplicate with
              | (Throw e, store2) => (Throw e, store2)
              | (Ok true, store2) =>
                  store_extracted clock rest sessionId dedupThreshold
                    stored (S skipped) store2               (* continue *)
              | (Ok false, store2) =>
                  match Store.add (Extractor.text memory) vec sessionId
                          (clock stored) store2 with
                  | (Throw e, store3) => (Throw e, store3)
                  | (Ok _, store3) =>
                      store_extracted clock rest sessionId dedupThreshold
                        (S stored) skipped store3
                  end
              end
          end
      end
  end.

End WithServices.

End Extension.

(** * Part II. The vocabulary of the properties *)

(** ** Reply parsing *)

Module ExtractorSpec.
Import JS Json Extractor.

(** An array element is valid when it is an object whose [text] is a
    string that is not empty once trimmed and whose [rationale] is a
    string. *)
Definition valid_item (item : json) (t r : string) : Prop :=
  ∃ members,
    item = JObject members
    ∧ lookup_member "text" members = Some (JString t)
    ∧ lookup_member "rationale" members = Some (JString r)
    ∧ trim t ≠ "".

(** What [parseResponse] makes of a parsed value. *)
Definition memories_of (parsed : json) : list ExtractedMemory :=
  match parsed with
  | JArray items => collect items
  | _ => []
  end.

(** The value that [parseResponse] goes on with: the result of parsing
    the stripped text, or else of parsing the bracketed span in it. *)
Definition parses_to (JSON_parse : string → outcome json)
    (response : string) (parsed : json) : Prop :=
  JSON_parse (strip_fences response) = Ok parsed
  ∨ ∃ e m,
      JSON_parse (strip_fences response) = Throw e
      ∧ match_array (chars (strip_fences response)) = Some m
      ∧ JSON_parse (str m) = Ok parsed.

Definition open_bracket : ascii := "["%char.
Definition close_bracket : ascii := "]"%char.

(** A reply in a markdown code fence. *)
Definition fenced (tag body : string) : string :=
  "```" +:+ tag +:+ LF +:+ body +:+ LF +:+ "```".

(** Follows the words of the specification, not the source: the prefix
    of [l], which starts at an opening bracket, that ends at the bracket
    closing it. Brackets inside string literals do not count. *)
Fixpoint balanced_prefix (depth : nat) (in_string escaped : bool)
    (l : list ascii) : option (list ascii) :=
  match l with
  | [] => None
  | c :: r =>
      if in_string then
        if escaped then cons c <$> balanced_prefix depth true false r
        else if Ascii.eqb c "\" then cons c <$> balanced_prefix depth true true r
        else if Ascii.eqb c "034" then cons c <$> balanced_prefix depth false false r
        else cons c <$> balanced_prefix depth true false r
      else if Ascii.eqb c "034" then cons c <$> balanced_prefix depth true false r
      else if Ascii.eqb c "[" then cons c <$> balanced_prefix (S depth) false false r
      else if Ascii.eqb c "]" then
        match depth with
        | 0 => None
        | 1 => Some [c]
        | S depth' => cons c <$> balanced_prefix depth' false false r
        end
      else cons c <$> balanced_prefix depth false false r
  end.

(** Follows the words of the specification, not the source: "the first
      balanced top-level array literal within the text". *)
Fixpoint first_balanced_array (l : list ascii) : option (list ascii) :=
  match l with
  | [] => None
  | c :: r =>
      if Ascii.eqb c "[" then
        match balanced_prefix 0 false false l with
        | Some m => Some m
        | None => first_balanced_array r
        end
      else first_balanced_array r
  end.

(** Follows the words of the specification, not the source:
    [parseResponse] with the fallback the specification describes. *)
Definition parseResponse_as_specified (JSON_parse : string → outcome json)
    (response : string) : outcome (list ExtractedMemory) :=
  let json := strip_fences response in
  match JSON_parse json with
  | Ok parsed => Ok (memories_of parsed)
  | Throw _ =>
      match first_balanced_array (chars json) with
      | Some m =>
          match JSON_parse (str m) with
          | Ok parsed => Ok (memories_of parsed)
          | Throw _ => Ok []
          end
      | None => Ok []
      end
  end.

(** A text written with the apostrophe standing for the double quote. *)
Definition quoted (s : string) : string :=
  str (map (λ c, if Ascii.eqb c "'" then "034"%char else c) (chars s)).

(** The reply of the repository's test "skips items with missing fields"
    and a reply with two bracketed spans. *)
Definition reply_mixed : string :=
quoted
  "[ {'text': 'valid', 'rationale': 'good'},
     {'text': 'missing rationale'},
     {'rationale': 'missing text'},
     {'text': '', 'rationale': 'empty text'},
     {'text': 'also valid', 'rationale': 'fine'} ]".

Definition reply_two_spans : string :=
  quoted "[{'text': 'use tabs', 'rationale': 'convention'}] (see [1])".

End ExtractorSpec.

(** ** Signatures *)

Module SignatureSpec.
Import JS Signature.

(** The list without the later occurrences of its elements. *)
Fixpoint first_occurrences (l : list string) : list string :=
  match l with
  | [] => []
  | x :: l' => x :: filter (λ y, y ≠ x) (first_occurrences l')
  end.

(** The names of a list of captures: the trimmed texts that are not
    empty, each once, in the order of first appearance. *)
Definition names_of (captures : list QueryCapture) : list string :=
  first_occurrences
    (filter (λ s, s ≠ "") ((λ c, trim (text (node c))) <$> captures)).

(** The nodes of the tree below [n], [n] included, each with its chain
    of parents. *)
Fixpoint subnodes (ps : list Node) (n : Node) : list (Node * list Node) :=
  (n, ps) :: flat_map (λ fc : option string * Node, subnodes (n :: ps) fc.2)
               (children n).

(** The declaration that a capture names is the parent of the captured
    node; a capture is nested when the declaration named by another
    capture encloses its declaration. *)
Definition nested (captures : list QueryCapture) (c : QueryCapture) : Prop :=
  ∃ outer d,
    outer ∈ captures ∧ head (parents outer) = Some d ∧ d ∈ tail (parents c).

(** Follows the words of the specification, not the source: the query
    capture step matches top-level declarations only, no capture is
    nested. *)
Definition top_level_only (q : list Pattern) (rootNode : Node) : Prop :=
  ∀ c, c ∈ Query_captures q rootNode → ¬ nested (Query_captures q rootNode) c.

(** The declaration node and the line that [extractSignatureLines]
    takes for a capture. *)
Definition declaration_of (c : QueryCapture) : Node :=
  findDeclarationAncestor (node c) (parents c).

Definition line_of (c : QueryCapture) : string :=
  trim (first_line (text (declaration_of c))).

(** Node identities identify the declaration nodes of the captures. *)
Definition distinct_ids (captures : list QueryCapture) : Prop :=
  ∀ c1 c2,
    c1 ∈ captures → c2 ∈ captures →
    id (declaration_of c1) = id (declaration_of c2) →
    declaration_of c1 = declaration_of c2.

(** The query of a language key. *)
Definition query_of (langKey : string) : list Pattern :=
  from_option query [] (LANGUAGES !! langKey).

Definition is_child_pattern (p : Pattern) : bool :=
  match p with
  | Child _ _ _ => true
  | Capture _ => false
  end.

(** *** The Ruby file of the repository's test "extracts Ruby module
      and class names" and its syntax tree *)

Definition ruby_source : string :=
"
module Payments
  class RefundProcessor
    def initialize(gateway)
      @gateway = gateway
    end

    def process(refund)
      @gateway.refund(refund.amount)
    end
  end
end
".

(** The node of type [ty] that spans the offsets [start..stop) of a
    source. *)
Definition node_at (source : string) (id : nat) (ty : string) (start stop : nat)
    (children : list (option string * Node)) : Node :=
  mkNode id ty start (String.substring start (stop - start) source) children.

Definition at_ : nat → string → nat → nat → list (option string * Node) → Node :=
  node_at ruby_source.

Definition ruby_initialize : Node :=
  at_ 6 "method" 45 101
    [ (Some "name", at_ 7 "identifier" 49 59 []);
      (Some "parameters",
        at_ 8 "method_parameters" 59 68 [ (None, at_ 9 "identifier" 60 67 []) ]);
      (Some "body",
        at_ 10 "body_statement" 75 93
          [ (None,
              at_ 11 "assignment" 75 93
                [ (Some "left", at_ 12 "instance_variable" 75 83 []);
                  (Some "right", at_ 13 "identifier" 86 93 []) ]) ]) ].

Definition ruby_process : Node :=
  at_ 14 "method" 107 171
    [ (Some "name", at_ 15 "identifier" 111 118 []);
      (Some "parameters",
        at_ 16 "method_parameters" 118 126 [ (None, at_ 17 "identifier" 119 125 []) ]);
      (Some "body",
        at_ 18 "body_statement" 133 163
          [ (None,
              at_ 19 "call" 133 163
                [ (Some "receiver", at_ 20 "instance_variable" 133 141 []);
                  (Some "method", at_ 21 "identifier" 142 148 []);
                  (Some "arguments",
                    at_ 22 "argument_list" 148 163
                      [ (None,
                          at_ 23 "call" 149 162
                            [ (Some "receiver", at_ 24 "identifier" 149 155 []);
                              (Some "method", at_ 25 "identifier" 156 162 []) ]) ]) ]) ]) ].

Definition ruby_class : Node :=
  at_ 3 "class" 19 177
    [ (Some "name", at_ 4 "constant" 25 40 []);
      (Some "body", at_ 5 "body_statement" 45 171
                      [ (None, ruby_initialize); (None, ruby_process) ]) ].

Definition ruby_module_body : Node :=
  at_ 26 "body_statement" 19 177 [ (None, ruby_class) ].

Definition ruby_module : Node :=
  at_ 1 "module" 1 181
    [ (Some "name", at_ 2 "constant" 8 16 []);
      (Some "body", ruby_module_body) ].

Definition ruby_tree : Node := at_ 0 "program" 1 182 [ (None, ruby_module) ].

(** The two captures of the query on this tree that the counterexample
    names: the module [Payments] and the class [RefundProcessor] that is
    declared inside it. *)
Definition capture_Payments : QueryCapture :=
  {| node := at_ 2 "constant" 8 16 []; parents := [ruby_module; ruby_tree] |}.

Definition capture_RefundProcessor : QueryCapture :=
  {| node := at_ 4 "constant" 25 40 [];
     parents := [ruby_class; ruby_module_body; ruby_module; ruby_tree] |}.

(** *** An exported TypeScript class: two patterns of the query capture
    its name *)

Definition ts_source : string := "export class A {}".

Definition ts_tree : Node :=
  node_at ts_source 0 "program" 0 17
    [ (None,
        node_at ts_source 1 "export_statement" 0 17
          [ (Some "declaration",
              node_at ts_source 2 "class_declaration" 7 17
                [ (Some "name", node_at ts_source 3 "type_identifier" 13 14 []);
                  (Some "body", node_at ts_source 4 "class_body" 15 17 []) ]) ]) ].

(** A parser that knows these two files and the empty file. *)
Definition test_parse (langKey content : string) : option Node :=
  if String.eqb content "" then Some (mkNode 0 "program" 0 "" [])
  else if String.eqb langKey "ruby" && String.eqb content ruby_source
  then Some ruby_tree
  else if String.eqb langKey "typescript" && String.eqb content ts_source
  then Some ts_tree
  else None.

End SignatureSpec.

(** ** The store *)

Module StoreSpec.
Import JS.

(** The calls a client can make on a store. *)
Inductive operation : Type :=
| Add (text : string) (embedding : list R) (sessionId now : string)
| Search (embedding : list R) (threshold : R) (limit : Z)
| Delete (id : Z)
| List
| Count.

Definition step (op : operation) (this : Store.MemoryStore) : Store.MemoryStore :=
  match op with
  | Add text embedding sessionId now =>
      (Store.add text embedding sessionId now this).2
  | Search embedding threshold limit =>
      (Store.search embedding threshold limit this).2
  | Delete id => (Store.delete id this).2
  | List => (Store.list this).2
  | Count => (Store.count this).2
  end.

(** The store after a sequence of calls. *)
Definition run (ops : list operation) (this : Store.MemoryStore)
  : Store.MemoryStore :=
  fold_left (λ st op, step op st) ops this.

(** The memories that [list()] returns. *)
Definition listed (this : Store.MemoryStore) : list Store.Memory :=
  match (Store.list this).1 with
  | Ok l => l
  | Throw _ => []
  end.

(** The matches that [search] returns; none when it throws. *)
Definition found (embedding : list R) (threshold : R) (limit : Z)
    (this : Store.MemoryStore) : list Store.MemoryMatch :=
  match (Store.search embedding threshold limit this).1 with
  | Ok l => l
  | Throw _ => []
  end.

(** The match that [search] builds from a row of the index. *)
Definition match_of (row : Store.SearchRow) : Store.MemoryMatch :=
  {| Store.memory :=
       {| Store.id := Store.rowid row; Store.text := Store.s_text row;
          Store.createdAt := Store.s_created_at row;
          Store.sessionId := Store.s_session_id row |};
     Store.similarity := Store.l2ToCosine (Store.distance row) |}.

(** The matches of the rows that pass the threshold. *)
Definition passing (threshold : R) (rows : list Store.SearchRow)
  : list Store.MemoryMatch :=
  match_of <$>
    filter (λ row, ¬ (Store.l2ToCosine (Store.distance row) < threshold)%R) rows.

(** The rows that [search] reads from the index, and the number of
    matches after which its loop stops: the limit, and one when the
    limit is less than one. *)
Definition rows_of (embedding : list R) (limit : Z) (this : Store.MemoryStore)
  : list Store.SearchRow :=
  Store.select_nearest embedding (Z.max (limit * 2) 20) (Store.db this).

Definition stop_after (limit : Z) : nat := Z.to_nat (Z.max limit 1).

(** The calls of [search] that return rows: the embedding has the
    dimension of the store, the index was created with that dimension,
    and [max(2·limit, 20)] is at most the 4096 that the index accepts
    for [k]. *)
Definition searchable (embedding : list R) (limit : Z)
    (this : Store.MemoryStore) : Prop :=
  Z.of_nat (length embedding) = Store.dimensions this
  ∧ Store.vec_dimensions (Store.db this) = Some (Store.dimensions this)
  ∧ (limit <= 2048)%Z.

(** Nearest first. *)
Definition nearer (x y : Z * R) : Prop := (x.2 <= y.2)%R.
Definition row_nearer (a b : Store.SearchRow) : Prop :=
  (Store.distance a <= Store.distance b)%R.

(** The row id that the next [INSERT INTO memories] assigns. *)
Definition next_rowid (d : Store.Database) : Z :=
  (Z.max (Store.sqlite_sequence d) (Store.max_rowid (Store.memories d)) + 1)%Z.

(** Every row id in use is at most the [AUTOINCREMENT] counter, as
    sqlite keeps it. *)
Definition sequence_ok (this : Store.MemoryStore) : Prop :=
  ∀ k, is_Some (Store.memories (Store.db this) !! k) →
       (k <= Store.sqlite_sequence (Store.db this))%Z.

(** Highest similarity first. *)
Definition by_similarity_desc (l : list Store.MemoryMatch) : Prop :=
  StronglySorted (λ a b, (Store.similarity b <= Store.similarity a)%R) l.

(** The store of the repository's test "deletes memories" before the
    deletion: four dimensions, one memory. *)
Definition e1 : list R := [1; 0; 0; 0]%R.
Definition e2 : list R := [0; 1; 0; 0]%R.

Definition store0 : Store.MemoryStore :=
  Store.constructor (Some 4%Z) Store.empty_database.

Definition store1 : Store.MemoryStore :=
  (Store.add "to be deleted" e1 "s1" "2026-01-01T00:00:00.000Z" store0).2.



End StoreSpec.

(** ** The store: more vocabulary *)

Module StoreInvariants.
Import JS.

(** The two tables hold the same row ids, every embedding of the index
    has the dimension of the store, and no row id exceeds the
    [AUTOINCREMENT] counter. *)
Definition consistent (this : Store.MemoryStore) : Prop :=
  (∀ k, is_Some (Store.memories (Store.db this) !! k)
        ↔ is_Some (Store.memories_vec (Store.db this) !! k))
  ∧ (∀ k e, Store.memories_vec (Store.db this) !! k = Some e →
            Z.of_nat (length e) = Store.dimensions this)
  ∧ StoreSpec.sequence_ok this.

(** The index was created with the dimension of the store. It is so for
    a store on a new database; it is not for a store opened on a file
    whose index was created with another dimension. *)
Definition index_matches (this : Store.MemoryStore) : Prop :=
  Store.vec_dimensions (Store.db this) = Some (Store.dimensions this).

(** The calls of [add] that return: the embedding has the dimension of
    the store, the index was created with that dimension, the next row
    id is a 64-bit integer, and the index has no row under it. *)
Definition addable (embedding : list R) (this : Store.MemoryStore) : Prop :=
  Z.of_nat (length embedding) = Store.dimensions this
  ∧ Store.vec_dimensions (Store.db this) = Some (Store.dimensions this)
  ∧ Store.is_int64 (StoreSpec.next_rowid (Store.db this)) = true
  ∧ Store.memories_vec (Store.db this) !! StoreSpec.next_rowid (Store.db this)
    = None.

(** The row ids that [n] calls of [add] would assign are below 2^53,
    the integers that a number of JS holds exactly: [add] reads the row
    id as a number, [lastInsertRowid], and returns it as one. *)
Definition room_for (n : nat) (this : Store.MemoryStore) : Prop :=
  (StoreSpec.next_rowid (Store.db this) + Z.of_nat n <= 2 ^ 53)%Z.

(** The similarity that [search] computes for a stored embedding, from
    the distance that the index of the store reports. *)
Definition similarity_to (this : Store.MemoryStore) (query e : list R) : R :=
  Store.l2ToCosine (Store.reported (Store.vec_distance (Store.db this)) e query).

(** The ids of a list of matches. *)
Definition ids (l : list Store.MemoryMatch) : list Z :=
  (λ m, Store.id (Store.memory m)) <$> l.

(** The memory that [list()] shows for a row. *)
Definition memory_of (k : Z) (row : Store.MemoryRow) : Store.Memory :=
  {| Store.id := k; Store.text := Store.row_text row;
     Store.createdAt := Store.created_at row;
     Store.sessionId := Store.session_id row |}.

(** No two embeddings of the index are as similar as the threshold. *)
Definition separated (threshold : R) (this : Store.MemoryStore) : Prop :=
  ∀ i j ei ej,
    i ≠ j →
    Store.memories_vec (Store.db this) !! i = Some ei →
    Store.memories_vec (Store.db this) !! j = Some ej →
    (similarity_to this ei ej < threshold)%R.

(** The store after a successful [add]: one more row in each table,
    under the next row id. *)
Definition added (text : string) (embedding : list R) (sessionId now : string)
    (this : Store.MemoryStore) : Store.MemoryStore :=
  {| Store.db :=
       {| Store.memories :=
            <[StoreSpec.next_rowid (Store.db this) :=
                {| Store.row_text := text; Store.created_at := now;
                   Store.session_id := sessionId |}]>
              (Store.memories (Store.db this));
          Store.sqlite_sequence := StoreSpec.next_rowid (Store.db this);
          Store.memories_vec :=
            <[StoreSpec.next_rowid (Store.db this) := embedding]>
              (Store.memories_vec (Store.db this));
          Store.vec_dimensions := Store.vec_dimensions (Store.db this);
          Store.vec_distance := Store.vec_distance (Store.db this) |};
     Store.dimensions := Store.dimensions this |}.

End StoreInvariants.

(** ** The signature extractor: more vocabulary *)

Module SignatureLinesSpec.
Import JS Signature SignatureSpec.

(** The captures whose declaration node was not the declaration node of
    an earlier capture, by node identity; [seen] holds the identities
    met before. *)
Fixpoint first_declarations (seen : gset nat) (captures : list QueryCapture)
  : list QueryCapture :=
  match captures with
  | [] => []
  | c :: captures' =>
      if decide (id (declaration_of c) ∈ seen)
      then first_declarations seen captures'
      else c :: first_declarations ({[ id (declaration_of c) ]} ∪ seen) captures'
  end.

(** The lines of a list of captures: the first lines of the declaration
    nodes, one for a node, the empty ones left out. *)
Definition lines_of (captures : list QueryCapture) : list string :=
  filter (λ s, s ≠ "") (line_of <$> first_declarations ∅ captures).

(** Not a declaration type. *)
Definition plain (n : Node) : Prop := is_declaration_type (type n) = false.

(** The root types that [findDeclarationAncestor] does not return. *)
Definition is_root_type (t : string) : bool :=
  String.eqb t "program" || String.eqb t "module".

End SignatureLinesSpec.

(** ** The store: the order of the list *)

Module StoreListSpec.
(** Newest first: every memory was created no earlier than the ones
    after it, by the order of the [created_at] texts. *)
Definition newest_first (l : list Store.Memory) : Prop :=
  StronglySorted
    (λ a b, String.leb (Store.createdAt b) (Store.createdAt a) = true) l.
End StoreListSpec.

(** * Part III. Properties *)

(** ** Strings *)

Section StringFacts.
Import JS.

Lemma str_chars (s : string) : str (chars s) = s.
Proof. apply string_of_list_ascii_of_string. Qed.

Lemma chars_str (l : list ascii) : chars (str l) = l.
Proof. apply list_ascii_of_string_of_list_ascii. Qed.

Lemma chars_app (s t : string) : chars (s +:+ t) = chars s ++ chars t.
Proof. induction s as [|c s IH]; simpl; [done | by rewrite IH]. Qed.

Lemma drop_while_split {A} (p : A → bool) (l : list A) :
  ∃ pre, l = pre ++ drop_while p l ∧ Forall (λ x, p x = true) pre.
Proof.
  induction l as [|x l [pre [Hl Hpre]]]; simpl.
  - by exists [].
  - destruct (p x) eqn:Hx.
    + exists (x :: pre). split; [simpl; by f_equal | by constructor].
    + by exists [].
Qed.

Lemma drop_while_head {A} (p : A → bool) (l : list A) (x : A) (r : list A) :
  drop_while p l = x :: r → p x = false.
Proof.
  induction l as [|y l IH]; simpl; [done |].
  destruct (p y) eqn:Hy; [done |]. by intros [= <- <-].
Qed.

Lemma drop_while_app {A} (p : A → bool) (pre l : list A) :
  Forall (λ x, p x = true) pre → drop_while p (pre ++ l) = drop_while p l.
Proof. induction 1 as [|x pre Hx _ IH]; simpl; [done | by rewrite Hx]. Qed.

Lemma drop_while_stop {A} (p : A → bool) (x : A) (l : list A) :
  p x = false → drop_while p (x :: l) = x :: l.
Proof. intros Hx. simpl. by rewrite Hx. Qed.

Lemma drop_while_end_app {A} (p : A → bool) (l post : list A) :
  Forall (λ x, p x = true) post →
  drop_while_end p (l ++ post) = drop_while_end p l.
Proof.
  intros Hpost. unfold drop_while_end. rewrite rev_app_distr.
  rewrite drop_while_app; [done |]. by apply Forall_rev.
Qed.

Lemma drop_while_end_stop {A} (p : A → bool) (l : list A) (x : A) :
  p x = false → drop_while_end p (l ++ [x]) = l ++ [x].
Proof.
  intros Hx. unfold drop_while_end. rewrite rev_app_distr. simpl.
  rewrite Hx. simpl. by rewrite rev_involutive.
Qed.

Lemma drop_while_end_split {A} (p : A → bool) (l : list A) :
  ∃ post, l = drop_while_end p l ++ post ∧ Forall (λ x, p x = true) post.
Proof.
  destruct (drop_while_split p (rev l)) as [pre [Hl Hpre]].
  exists (rev pre). split; [| by apply Forall_rev].
  unfold drop_while_end. rewrite <- rev_app_distr, <- Hl.
  by rewrite rev_involutive.
Qed.

Lemma drop_while_end_last {A} (p : A → bool) (l m : list A) (x : A) :
  drop_while_end p l = m ++ [x] → p x = false.
Proof.
  unfold drop_while_end. intros H.
  apply (f_equal (@rev A)) in H. rewrite rev_involutive, rev_app_distr in H.
  simpl in H. by apply drop_while_head in H.
Qed.

Lemma strip_prefix_app (pre l : list ascii) : strip_prefix pre (pre ++ l) = Some l.
Proof.
  induction pre as [|c pre IH]; simpl; [done |]. by rewrite Ascii.eqb_refl.
Qed.

Lemma startsWith_app (s t : string) : startsWith (s +:+ t) s = true.
Proof.
  unfold startsWith. induction s as [|c s IH]; simpl.
  - by destruct t.
  - destruct (ascii_dec c c); [done | congruence].
Qed.
End StringFacts.

(** ** Reply parsing *)

Section ExtractorFacts.
Import JS Json Extractor ExtractorSpec.

Lemma match_array_greedy (l m : list ascii) :
  match_array l = Some m ↔
  ∃ pre body post,
    l = pre ++ open_bracket :: body ++ close_bracket :: post
    ∧ (open_bracket ∉ pre) ∧ (close_bracket ∉ post)
    ∧ m = open_bracket :: body ++ [close_bracket].
Proof.
  set (not_open := λ c, negb (Ascii.eqb c "[")).
  set (not_close := λ c, negb (Ascii.eqb c "]")).
  assert (Hopen : ∀ c, not_open c = false → c = open_bracket).
  { intros c Hc. apply negb_false_iff in Hc. by apply Ascii.eqb_eq. }
  assert (Hclose : ∀ c, not_close c = false → c = close_bracket).
  { intros c Hc. apply negb_false_iff in Hc. by apply Ascii.eqb_eq. }
  assert (Hno : ∀ (c : ascii) (p : ascii → bool) l',
             (∀ x, p x = negb (Ascii.eqb x c)) →
             (Forall (λ x, p x = true) l' ↔ c ∉ l')).
  { intros c p l' Hp. rewrite Forall_forall. split.
    - intros H Hin. specialize (H c Hin). by rewrite Hp, Ascii.eqb_refl in H.
    - intros H x Hx. rewrite Hp. apply negb_true_iff, Ascii.eqb_neq.
      by intros ->. }
  unfold match_array. fold not_open not_close. split.
  - destruct (drop_while_split not_open l) as [pre [Hl Hpre]].
    destruct (drop_while not_open l) as [|x r] eqn:Hdrop; [done |].
    apply drop_while_head, Hopen in Hdrop. subst x.
    destruct (drop_while_end_split not_close (open_bracket :: r))
      as [post [Hr Hpost]].
    destruct (drop_while_end not_close (open_bracket :: r))
      as [|y m'] eqn:Hend; [done |].
    intros [= <-]. simpl in Hr. injection Hr as <- ->.
    destruct m' as [|z body _] using rev_ind.
    + by apply (drop_while_end_last _ _ []) in Hend.
    + apply (drop_while_end_last _ _ (open_bracket :: body)), Hclose in Hend.
      subst z. exists pre, body, post. repeat split.
      * rewrite Hl at 1. by rewrite <- app_assoc.
      * by apply (Hno open_bracket not_open).
      * by apply (Hno close_bracket not_close).
  - intros (pre & body & post & -> & Hpre & Hpost & ->).
    rewrite drop_while_app by by apply (Hno open_bracket not_open).
    rewrite drop_while_stop by done.
    replace (open_bracket :: body ++ close_bracket :: post)
      with (((open_bracket :: body) ++ [close_bracket]) ++ post)
      by (by rewrite <- app_assoc).
    rewrite drop_while_end_app by by apply (Hno close_bracket not_close).
    rewrite drop_while_end_stop by done. done.
Qed.

Lemma drop_while_fence (l : list ascii) :
  drop_while is_white_space (fence ++ l) = fence ++ l.
Proof. reflexivity. Qed.

Lemma drop_while_end_fence (l : list ascii) :
  drop_while_end is_white_space (l ++ fence) = l ++ fence.
Proof.
  unfold drop_while_end. rewrite rev_app_distr.
  change (rev fence) with fence. rewrite drop_while_fence.
  rewrite rev_app_distr, rev_involutive. done.
Qed.

Lemma strip_fences_fenced (tag body : string) :
  tag = "" ∨ tag = "json" → strip_fences (fenced tag body) = trim body.
Proof.
  intros Htag.
  set (rest := chars body ++ chars LF ++ fence).
  assert (Hchars : chars (fenced tag body)
                   = fence ++ chars tag ++ chars LF ++ rest).
  { unfold fenced, rest. by rewrite !chars_app. }
  assert (Htrim : trim (fenced tag body) = fenced tag body).
  { unfold trim, trimStart_chars, trimEnd_chars.
    rewrite Hchars, drop_while_fence. unfold rest.
    rewrite !app_assoc, drop_while_end_fence, <- !app_assoc.
    fold rest. rewrite <- Hchars. apply str_chars. }
  unfold strip_fences. rewrite Htrim.
  replace (startsWith (fenced tag body) "```") with true
    by (symmetry; apply (startsWith_app "```")).
  rewrite Hchars.
  assert (Hopen : remove_opening_fence (fence ++ chars tag ++ chars LF ++ rest)
                  = drop_while is_white_space rest).
  { unfold remove_opening_fence. rewrite strip_prefix_app.
    destruct Htag as [-> | ->]; [done |].
    by rewrite (strip_prefix_app (chars "json")). }
  rewrite Hopen. unfold rest, trim, trimStart_chars, trimEnd_chars.
  destruct (drop_while_split is_white_space (chars body)) as [pre [Hb Hpre]].
  rewrite Hb at 1. rewrite <- app_assoc, drop_while_app by done.
  destruct (drop_while is_white_space (chars body)) as [|x r] eqn:Hdrop.
  - done.
  - apply drop_while_head in Hdrop as Hx.
    rewrite <- app_comm_cons, drop_while_stop by done.
    unfold remove_closing_fence.
    rewrite app_comm_cons, !rev_app_distr.
    change (rev fence) with fence.
    rewrite <- app_assoc, drop_while_fence, strip_prefix_app. done.
Qed.

Lemma collect_omap (items : list json) : collect items = omap accept items.
Proof.
  unfold collect.
  enough (H : ∀ acc,
            fold_left
              (λ memories item,
                 match accept item with
                 | Some m => memories ++ [m]
                 | None => memories
                 end) items acc = acc ++ omap accept items) by apply (H []).
  induction items as [|item items IH]; intros acc; simpl.
  - by rewrite app_nil_r.
  - rewrite IH. destruct (accept item); [by rewrite <- app_assoc | done].
Qed.

Lemma nonempty_length (s : string) : (0 <? String.length s)%nat = true ↔ s ≠ "".
Proof. destruct s; simpl; split; done. Qed.

Lemma accept_valid (item : json) (m : ExtractedMemory) :
  accept item = Some m ↔
  ∃ t r, valid_item item t r ∧ m = {| text := trim t; rationale := trim r |}.
Proof.
  unfold accept, valid_item. split.
  - destruct item as [| | | |items|members]; simpl; try done.
    destruct (lookup_member "text" members) as [[| | |t| |]|] eqn:Ht; try done.
    destruct (lookup_member "rationale" members) as [[| | |r| |]|] eqn:Hr;
      try done.
    destruct (0 <? String.length (trim t))%nat eqn:Hlen; [|done].
    intros [= <-]. exists t, r. split; [|done].
    exists members. by rewrite nonempty_length in Hlen.
  - intros (t & r & (members & -> & Ht & Hr & Hne) & ->). simpl.
    rewrite Ht, Hr. apply nonempty_length in Hne. by rewrite Hne.
Qed.

Lemma parseResponse_parsed (JSON_parse : string → outcome json)
    (response : string) (parsed : json) :
  parses_to JSON_parse response parsed →
  parseResponse JSON_parse response = Ok (memories_of parsed).
Proof.
  unfold parses_to, parseResponse.
  intros [H | (e & m & He & Hm & H)].
  - rewrite H. simpl. by destruct parsed.
  - rewrite He. simpl. rewrite Hm, H. simpl. by destruct parsed.
Qed.
End ExtractorFacts.

Section ExtractorClaims.
Import JS Json Extractor ExtractorSpec.

(** C5, as the code has it. For every [JSON.parse] and every reply,
    [parseResponse] returns a list and never throws. A reply in a code
    fence, bare or tagged [json], is handed to [JSON.parse] as its
    trimmed body. When the stripped text parses, the result is made of
    the parsed value. When it does not, the text from its first opening
    bracket to its last closing bracket is parsed instead (the greedy
    match of the regular expression, not the first balanced array); the
    result is empty when there is no such text or when it does not parse
    either. *)
Theorem parseResponse_never_throws (JSON_parse : string → outcome json)
    (response : string) :
  let json := strip_fences response in
  (∃ memories, parseResponse JSON_parse response = Ok memories)
  ∧ (∀ tag body,
       tag = "" ∨ tag = "json" → strip_fences (fenced tag body) = trim body)
  ∧ (∀ parsed,
       JSON_parse json = Ok parsed →
       parseResponse JSON_parse response = Ok (memories_of parsed))
  ∧ (∀ e,
       JSON_parse json = Throw e →
       match match_array (chars json) with
       | Some m =>
           (∃ pre body post,
              chars json = pre ++ open_bracket :: body ++ close_bracket :: post
              ∧ (open_bracket ∉ pre) ∧ (close_bracket ∉ post)
              ∧ m = open_bracket :: body ++ [close_bracket])
           ∧ parseResponse JSON_parse response
             = match JSON_parse (str m) with
               | Ok parsed => Ok (memories_of parsed)
               | Throw _ => Ok []
               end
       | None => parseResponse JSON_parse response = Ok []
       end).
Proof.
  intros json. repeat split.
  - unfold parseResponse. fold json.
    destruct (JSON_parse json) as [parsed|e]; simpl.
    + destruct parsed; eauto.
    + destruct (match_array (chars json)) as [m|]; simpl; [|eauto].
      destruct (JSON_parse (str m)) as [parsed|e']; simpl; [|eauto].
      destruct parsed; eauto.
  - apply strip_fences_fenced.
  - intros parsed H. apply parseResponse_parsed. by left.
  - intros e He.
    destruct (match_array (chars json)) as [m|] eqn:Hm.
    + split; [by apply match_array_greedy |].
      destruct (JSON_parse (str m)) as [parsed|e'] eqn:Hp.
      * apply parseResponse_parsed. right. by exists e, m.
      * unfold parseResponse. fold json. by rewrite He; simpl; rewrite Hm, Hp.
    + unfold parseResponse. fold json. by rewrite He; simpl; rewrite Hm.
Qed.

(** C5, counterexample. On a reply with two bracketed spans the fallback
    does not parse the first balanced array: the text matched runs to
    the last closing bracket, it is not JSON, and the memory of the
    first array is lost. *)
Lemma parseResponse_first_array_counterexample :
  str <$> match_array (chars reply_two_spans)
  = Some (quoted "[{'text': 'use tabs', 'rationale': 'convention'}] (see [1]")
  ∧ str <$> first_balanced_array (chars reply_two_spans)
    = Some (quoted "[{'text': 'use tabs', 'rationale': 'convention'}]")
  ∧ parseResponse JSON_parse reply_two_spans = Ok []
  ∧ parseResponse_as_specified JSON_parse reply_two_spans
    = Ok [{| text := "use tabs"; rationale := "convention" |}].
Proof. repeat split; vm_compute; reflexivity. Qed.

(** C9. When the reply parses to an array, the result of
    [parseResponse] is the list of the accepted elements in their
    original order; an element is accepted exactly when it is an object
    whose [text] is a string, not empty once trimmed, and whose
    [rationale] is a string, and it is accepted as its two trimmed
    fields; every other element is dropped. *)
Theorem parseResponse_items (JSON_parse : string → outcome json)
    (response : string) (items : list json) :
  parses_to JSON_parse response (JArray items) →
  parseResponse JSON_parse response = Ok (omap accept items)
  ∧ ∀ item,
      (∀ m, accept item = Some m ↔
            ∃ t r, valid_item item t r
                   ∧ m = {| text := trim t; rationale := trim r |})
      ∧ (accept item = None ↔ ∀ t r, ¬ valid_item item t r).
Proof.
  intros H. split.
  - rewrite (parseResponse_parsed _ _ _ H). simpl. by rewrite collect_omap.
  - intros item. split; [apply accept_valid |].
    split.
    + intros Hnone t r Hv.
      assert (accept item = Some {| text := trim t; rationale := trim r |})
        as Hsome by (apply accept_valid; eauto).
      congruence.
    + intros Hnot. destruct (accept item) as [m|] eqn:Hacc; [|done].
      apply accept_valid in Hacc as (t & r & Hv & _). by destruct (Hnot t r).
Qed.

(** The reply of the test "skips items with missing fields": the two
    valid elements are kept, in order. *)
Lemma parseResponse_items_witness :
  let items :=
    [ JObject [("text", JString "valid"); ("rationale", JString "good")];
      JObject [("text", JString "missing rationale")];
      JObject [("rationale", JString "missing text")];
      JObject [("text", JString ""); ("rationale", JString "empty text")];
      JObject [("text", JString "also valid"); ("rationale", JString "fine")] ] in
  parses_to JSON_parse reply_mixed (JArray items)
  ∧ parseResponse JSON_parse reply_mixed = Ok (omap accept items)
  ∧ omap accept items
    = [ {| text := "valid"; rationale := "good" |};
        {| text := "also valid"; rationale := "fine" |} ].
Proof.
  intros items.
  assert (H : parses_to JSON_parse reply_mixed (JArray items))
    by (left; vm_compute; reflexivity).
  split; [exact H |].
  split; [exact (proj1 (parseResponse_items _ _ _ H)) | reflexivity].
Defined.
End ExtractorClaims.

(** ** Signatures *)

Section SignatureFacts.
Import JS Signature SignatureSpec.

Lemma Node_children_ind (P : Node → Prop) :
  (∀ n, Forall (λ fc : option string * Node, P fc.2) (children n) → P n) →
  ∀ n, P n.
Proof.
  intros H. fix IH 1. intros [i ty s t ch]. apply H. simpl.
  induction ch as [|[f c] ch IHch]; constructor; [apply IH | apply IHch].
Qed.

(** *** The loop of [extractSignature] *)

Lemma first_occurrences_elem (l : list string) (x : string) :
  x ∈ first_occurrences l ↔ x ∈ l.
Proof.
  induction l as [|y l IH]; simpl; [done |].
  rewrite !elem_of_cons, list_elem_of_filter, IH.
  destruct (decide (x = y)); naive_solver.
Qed.

Lemma first_occurrences_NoDup (l : list string) : NoDup (first_occurrences l).
Proof.
  induction l as [|y l IH]; simpl; constructor.
  - rewrite list_elem_of_filter. naive_solver.
  - by apply NoDup_filter.
Qed.

Lemma filter_not_in_snoc (names : list string) (t : string) (l : list string) :
  filter (λ y, y ∉ names ++ [t]) l = filter (λ y, y ∉ names) (filter (λ y, y ≠ t) l).
Proof.
  rewrite list_filter_filter. apply list_filter_iff. intros y.
  rewrite elem_of_app, list_elem_of_singleton. naive_solver.
Qed.

Lemma filter_not_in_seen (names : list string) (t : string) (l : list string) :
  t ∈ names →
  filter (λ y, y ∉ names) (filter (λ y, y ≠ t) l) = filter (λ y, y ∉ names) l.
Proof.
  intros Ht. rewrite list_filter_filter. apply list_filter_iff. intros y.
  naive_solver.
Qed.

Lemma filter_all {A} (P : A → Prop) `{!∀ x, Decision (P x)} (l : list A) :
  (∀ x, P x) → filter P l = l.
Proof.
  intros HP. induction l as [|x l IH]; [done |].
  rewrite filter_cons_True by done. by rewrite IH.
Qed.

Lemma names_loop (captures : list QueryCapture) (names : list string)
    (seen : gset string) :
  (∀ x, x ∈ seen ↔ x ∈ names) →
  (fold_left names_step captures (names, seen)).1
  = names ++ filter (λ y, y ∉ names) (names_of captures).
Proof.
  revert names seen.
  induction captures as [|c captures IH]; intros names seen Hseen; simpl.
  - by rewrite app_nil_r.
  - unfold names_of. rewrite fmap_cons.
    set (t := trim (text (node c))).
    destruct (String.eqb_spec t "") as [Ht | Ht]; simpl.
    + rewrite filter_cons_False by naive_solver. by apply IH.
    + rewrite filter_cons_True by done. simpl.
      destruct (decide (t ∈ seen)) as [Hin | Hin].
      * rewrite bool_decide_eq_true_2 by done. simpl.
        rewrite filter_cons_False by (rewrite <- Hseen; naive_solver).
        rewrite filter_not_in_seen by by apply Hseen.
        by apply IH.
      * rewrite bool_decide_eq_false_2 by done. simpl.
        rewrite filter_cons_True by by rewrite <- Hseen.
        rewrite (IH (names ++ [t]) ({[t]} ∪ seen)).
        -- rewrite <- app_assoc. simpl. by rewrite filter_not_in_snoc.
        -- intros x. rewrite elem_of_union, elem_of_singleton, elem_of_app,
             list_elem_of_singleton, Hseen. naive_solver.
Qed.

Lemma collect_names_spec (captures : list QueryCapture) :
  collect_names captures = names_of captures.
Proof.
  unfold collect_names. rewrite (names_loop captures [] ∅) by set_solver.
  simpl. apply filter_all. intros x. set_solver.
Qed.

Lemma names_of_elem (captures : list QueryCapture) (s : string) :
  s ∈ names_of captures ↔
  s ≠ "" ∧ ∃ c, c ∈ captures ∧ s = trim (text (node c)).
Proof.
  unfold names_of.
  rewrite first_occurrences_elem, list_elem_of_filter, list_elem_of_fmap.
  naive_solver.
Qed.

(** *** The query cursor *)

Lemma insert_capture_elem (c x : QueryCapture) (l : list QueryCapture) :
  x ∈ insert_capture c l ↔ x = c ∨ x ∈ l.
Proof.
  induction l as [|d l IH]; simpl.
  - rewrite list_elem_of_singleton, elem_of_nil. naive_solver.
  - destruct (startIndex (node c) <=? startIndex (node d))%nat.
    + by rewrite elem_of_cons.
    + rewrite !elem_of_cons, IH. naive_solver.
Qed.

Lemma Query_captures_elem (q : list Pattern) (rootNode : Node) (c : QueryCapture) :
  c ∈ Query_captures q rootNode ↔ c ∈ matches_below q [] rootNode.
Proof.
  unfold Query_captures.
  induction (matches_below q [] rootNode) as [|d l IH]; simpl; [done |].
  rewrite insert_capture_elem, elem_of_cons, IH. done.
Qed.

Lemma matches_below_subnodes (q : list Pattern) (n : Node) :
  ∀ ps c,
    In c (matches_below q ps n) ↔
    ∃ m ps' p, In (m, ps') (subnodes ps n) ∧ In p q ∧ In c (match_pattern p ps' m).
Proof.
  induction n as [n IH] using Node_children_ind. intros ps c.
  rewrite Forall_forall in IH.
  destruct n as [i ty s t ch]. simpl in *.
  rewrite in_app_iff, !in_flat_map. split.
  - intros [(p & Hp & Hc) | ([f ch'] & Hch & Hc)].
    + exists (mkNode i ty s t ch), ps, p. auto.
    + apply list_elem_of_In in Hch as Hch'.
      apply (IH _ Hch') in Hc as (m & ps' & p & Hm & Hp & Hc).
      exists m, ps', p. split_and!; [|done..]. right.
      apply in_flat_map. by exists (f, ch').
  - intros (m & ps' & p & [[= <- <-] | Hm] & Hp & Hc).
    + left. by exists p.
    + apply in_flat_map in Hm as ([f ch'] & Hch & Hm).
      right. exists (f, ch'). split; [done |].
      apply list_elem_of_In in Hch as Hch'. apply (IH _ Hch').
      by exists m, ps', p.
Qed.

Lemma childless_no_match (p : Pattern) (ps : list Node) (n : Node) :
  is_child_pattern p = true → children n = [] → match_pattern p ps n = [].
Proof.
  destruct p as [ty | ty f inner]; simpl; [done |]. intros _ ->.
  by destruct (String.eqb (type n) ty).
Qed.

Lemma childless_no_captures (q : list Pattern) (n : Node) :
  forallb is_child_pattern q = true → children n = [] → Query_captures q n = [].
Proof.
  intros Hq Hn. unfold Query_captures.
  destruct n as [i ty s t ch]. simpl in *. subst ch. simpl.
  rewrite app_nil_r.
  induction q as [|p q IH]; simpl in *; [done |].
  apply andb_true_iff in Hq as [Hp Hq].
  rewrite (childless_no_match p) by done. simpl. by apply IH.
Qed.

(** *** The tables *)

Lemma LANGUAGES_child_patterns (langKey : string) (config : LanguageConfig) :
  LANGUAGES !! langKey = Some config →
  forallb is_child_pattern (query config) = true.
Proof.
  intros H. apply elem_of_list_to_map_2 in H.
  assert (Hall : forallb (λ kc : string * LanguageConfig,
                            forallb is_child_pattern (query kc.2))
                   LANGUAGES_table = true) by reflexivity.
  rewrite forallb_forall in Hall.
  apply (Hall (langKey, config)). by apply list_elem_of_In.
Qed.

Lemma detectLanguage_configured (filePath langKey : string) :
  detectLanguage filePath = Some langKey → is_Some (LANGUAGES !! langKey).
Proof.
  unfold detectLanguage. destruct (lastIndexOf filePath ".") as [i|]; [|done].
  intros H. apply elem_of_list_to_map_2 in H.
  assert (Hall : forallb (λ el : string * string,
                            bool_decide (is_Some (LANGUAGES !! el.2)))
                   [ (".ts", "typescript"); (".tsx", "tsx");
                     (".js", "javascript"); (".jsx", "javascript");
                     (".mjs", "javascript"); (".cjs", "javascript");
                     (".py", "python"); (".rb", "ruby"); (".go", "go");
                     (".rs", "rust"); (".c", "c"); (".h", "c");
                     (".cpp", "cpp"); (".hpp", "cpp"); (".cc", "cpp");
                     (".cxx", "cpp"); (".java", "java"); (".swift", "swift");
                     (".dart", "dart"); (".php", "php"); (".cs", "csharp") ]
                 = true) by (vm_compute; reflexivity).
  rewrite forallb_forall in Hall. apply list_elem_of_In in H.
  apply Hall in H. by apply bool_decide_eq_true_1 in H.
Qed.
End SignatureFacts.

Section SignatureLines.
Import JS Signature SignatureSpec.

Lemma lines_step_mono (st : list string * gset nat) (c : QueryCapture) (x : string) :
  x ∈ st.1 → x ∈ (lines_step st c).1.
Proof.
  destruct st as [lines seen]. unfold lines_step. simpl.
  intros Hx. fold (declaration_of c).
  destruct (bool_decide (id (declaration_of c) ∈ seen)); [done |].
  destruct (negb _); simpl; [|done]. rewrite elem_of_app. by left.
Qed.

Lemma lines_loop_mono (captures : list QueryCapture)
    (st : list string * gset nat) (x : string) :
  x ∈ st.1 → x ∈ (fold_left lines_step captures st).1.
Proof.
  revert st. induction captures as [|c captures IH]; intros st Hx; simpl.
  - done.
  - by apply IH, lines_step_mono.
Qed.

Lemma lines_step_eq (lines : list string) (seen : gset nat) (c : QueryCapture) :
  lines_step (lines, seen) c
  = if decide (id (declaration_of c) ∈ seen) then (lines, seen)
    else (if decide (line_of c = "") then lines else lines ++ [line_of c],
          {[id (declaration_of c)]} ∪ seen).
Proof.
  unfold lines_step. fold (declaration_of c). fold (line_of c).
  destruct (decide (id (declaration_of c) ∈ seen)).
  - by rewrite bool_decide_eq_true_2.
  - rewrite bool_decide_eq_false_2 by done.
    destruct (decide (line_of c = "")) as [-> | Hne]; [done |].
    by destruct (String.eqb_spec (line_of c) "").
Qed.

Lemma lines_loop (captures : list QueryCapture) :
  ∀ lines seen,
    distinct_ids captures →
    (∀ c, c ∈ captures → id (declaration_of c) ∈ seen →
          line_of c ≠ "" → line_of c ∈ lines) →
    ∀ c, c ∈ captures → line_of c ≠ "" →
         line_of c ∈ (fold_left lines_step captures (lines, seen)).1.
Proof.
  induction captures as [|c0 captures IH]; intros lines seen Hids Hseen c Hc Hline.
  - by apply elem_of_nil in Hc.
  - assert (Hids' : distinct_ids captures).
    { intros c1 c2 H1 H2. apply Hids; by right. }
    cbn [fold_left]. rewrite lines_step_eq.
    destruct (decide (id (declaration_of c0) ∈ seen)) as [Hin | Hin].
    + apply elem_of_cons in Hc as [-> | Hc].
      * apply lines_loop_mono; simpl. apply Hseen; [by left | done..].
      * apply IH; [done | | done..].
        intros c' Hc'. apply Hseen. by right.
    + set (lines' := if decide (line_of c0 = "") then lines
                     else lines ++ [line_of c0]).
      assert (Hsub : ∀ x, x ∈ lines → x ∈ lines').
      { intros x Hx. unfold lines'. destruct (decide _); [done |].
        rewrite elem_of_app. by left. }
      assert (H0 : line_of c0 ≠ "" → line_of c0 ∈ lines').
      { intros Hne. unfold lines'. destruct (decide _); [done |].
        rewrite elem_of_app, list_elem_of_singleton. by right. }
      apply elem_of_cons in Hc as [-> | Hc].
      * apply lines_loop_mono; simpl. by apply H0.
      * apply IH; [done | | done..].
        intros c' Hc' Hid Hne.
        apply elem_of_union in Hid as [Hid | Hid].
        -- apply elem_of_singleton in Hid.
           assert (declaration_of c' = declaration_of c0) as Heq
             by (apply Hids; [by right | by left | done]).
           unfold line_of in *. rewrite Heq in *. by apply H0.
        -- apply Hsub, Hseen; [by right | done..].
Qed.

Lemma collect_lines_elem (captures : list QueryCapture) (c : QueryCapture) :
  distinct_ids captures → c ∈ captures → line_of c ≠ "" →
  line_of c ∈ collect_lines captures.
Proof.
  intros Hids Hc Hline. unfold collect_lines.
  apply lines_loop; [done | | done..]. intros c' _ Hin. set_solver.
Qed.

(** The loop skips a capture only for a declaration node met before:
    the first capture with the declaration node of [c], by node
    identity, gives its line. *)
Lemma lines_loop_first (captures : list QueryCapture) (c : QueryCapture) :
  ∀ lines seen,
    c ∈ captures →
    id (declaration_of c) ∉ seen →
    ∃ i c0,
      list_find (λ c', id (declaration_of c') = id (declaration_of c)) captures
      = Some (i, c0)
      ∧ (line_of c0 ≠ "" →
         line_of c0 ∈ (fold_left lines_step captures (lines, seen)).1).
Proof.
  induction captures as [|c1 captures IH]; intros lines seen Hc Hseen.
  - by apply elem_of_nil in Hc.
  - cbn [fold_left list_find]. rewrite lines_step_eq.
    destruct (decide (id (declaration_of c1) = id (declaration_of c)))
      as [Heq | Hne].
    + exists 0%nat, c1. split; [done |]. intros Hline.
      rewrite decide_False by (by rewrite Heq).
      apply lines_loop_mono. simpl.
      rewrite decide_False by done.
      rewrite elem_of_app, list_elem_of_singleton. by right.
    + apply elem_of_cons in Hc as [-> | Hc]; [done |].
      destruct (decide (id (declaration_of c1) ∈ seen)) as [Hin | Hin].
      * destruct (IH lines seen Hc Hseen) as (i & c0 & Hfind & Hline).
        exists (S i), c0. by rewrite Hfind.
      * destruct (IH (if decide (line_of c1 = "") then lines
                      else lines ++ [line_of c1])
                    ({[id (declaration_of c1)]} ∪ seen) Hc)
          as (i & c0 & Hfind & Hline); [set_solver |].
        exists (S i), c0. by rewrite Hfind.
Qed.

Lemma collect_lines_first (captures : list QueryCapture) (c : QueryCapture) :
  c ∈ captures →
  ∃ i c0,
    list_find (λ c', id (declaration_of c') = id (declaration_of c)) captures
    = Some (i, c0)
    ∧ (line_of c0 ≠ "" → line_of c0 ∈ collect_lines captures).
Proof.
  intros Hc. unfold collect_lines. apply lines_loop_first; [done | set_solver].
Qed.
End SignatureLines.

Section SignatureClaims.
Import JS Signature SignatureSpec.

Lemma extractSignature_eq (parse : string → string → option Node)
    (filePath content langKey : string) (config : LanguageConfig)
    (rootNode : Node) :
  detectLanguage filePath = Some langKey →
  LANGUAGES !! langKey = Some config →
  parse langKey content = Some rootNode →
  extractSignature parse filePath content
  = match names_of (Query_captures (query config) rootNode) with
    | [] => None
    | names => Some (filePath +:+ " | " +:+ join " | " names)
    end.
Proof.
  intros Hd Hl Hp. unfold extractSignature.
  rewrite Hd, Hl, Hp, collect_names_spec.
  by destruct (names_of _).
Qed.

Lemma extractSignature_empty (parse : string → string → option Node)
    (filePath : string) :
  (∀ key root, parse key "" = Some root → children root = []) →
  extractSignature parse filePath "" = None.
Proof.
  intros Hempty. unfold extractSignature.
  destruct (detectLanguage filePath) as [langKey|]; [|done].
  destruct (LANGUAGES !! langKey) as [config|] eqn:Hl; [|done].
  destruct (parse langKey "") as [rootNode|] eqn:Hp; [|done].
  rewrite childless_no_captures; [done | | by eapply Hempty].
  by eapply LANGUAGES_child_patterns.
Qed.

(** C7. For a file of a detected language that the parser turns into a
    tree, the names of [extractSignature] are the trimmed texts of the
    captured nodes, the empty ones left out, each once and in the order
    of first appearance. With at least one name the result is the path
    and the names joined by [" | "]; with no name it is none. Captures
    whose texts are not blank give at least one name. The empty file,
    whose tree has no node below the root, gives none for every
    path. *)
Theorem extractSignature_format (parse : string → string → option Node)
    (filePath content langKey : string) (rootNode : Node) :
  detectLanguage filePath = Some langKey →
  parse langKey content = Some rootNode →
  (∀ key root, parse key "" = Some root → children root = []) →
  ∃ config,
    LANGUAGES !! langKey = Some config
    ∧ let captures := Query_captures (query config) rootNode in
      let names := names_of captures in
      (names ≠ [] →
       extractSignature parse filePath content
       = Some (filePath +:+ " | " +:+ join " | " names))
      ∧ (names = [] → extractSignature parse filePath content = None)
      ∧ NoDup names
      ∧ (∀ s, s ∈ names ↔
              s ≠ "" ∧ ∃ c, c ∈ captures ∧ s = trim (text (node c)))
      ∧ (captures ≠ [] →
         (∀ c, c ∈ captures → trim (text (node c)) ≠ "") → names ≠ [])
      ∧ (∀ path, extractSignature parse path "" = None).
Proof.
  intros Hd Hp Hempty.
  destruct (detectLanguage_configured _ _ Hd) as [config Hl].
  exists config. split; [done |]. intros captures names.
  pose proof (extractSignature_eq parse _ _ _ _ _ Hd Hl Hp) as Heq.
  fold captures names in Heq. split_and!.
  - intros Hne. rewrite Heq. by destruct names.
  - intros Hnil. by rewrite Heq, Hnil.
  - apply first_occurrences_NoDup.
  - apply names_of_elem.
  - intros Hcap Htexts Hnil. destruct captures as [|c l] eqn:Hc; [done |].
    assert (trim (text (node c)) ∈ names) as Hin.
    { apply names_of_elem. split; [apply Htexts; by left |].
      exists c. split; [by left | done]. }
    rewrite Hnil in Hin. by apply elem_of_nil in Hin.
  - intros path. by apply extractSignature_empty.
Qed.

(** The Ruby file of the test: four names, in source order. *)
Lemma extractSignature_format_witness :
  extractSignature test_parse "lib/payments/refund.rb" ruby_source
  = Some "lib/payments/refund.rb | Payments | RefundProcessor | initialize | process"
  ∧ extractSignature test_parse "empty.ts" "" = None.
Proof.
  assert (Hempty : ∀ key root,
             test_parse key "" = Some root → children root = [])
    by (intros key root [= <-]; reflexivity).
  destruct (extractSignature_format test_parse "lib/payments/refund.rb"
              ruby_source "ruby" ruby_tree eq_refl eq_refl Hempty)
    as (config & Hl & Hsome & _ & _ & _ & _ & Hnone).
  split; [| apply Hnone].
  injection Hl as <-. rewrite Hsome; [reflexivity | discriminate].
Defined.

(** C4, as the code has it. The query runs without a start-depth limit:
    every node of the tree, at whatever depth, at which a pattern of
    the query matches contributes the capture of that match. Whatever
    list of captures holds it, its trimmed text, when not empty, is
    among the names of [extractSignature]; and the loop of
    [extractSignatureLines] skips no capture for being nested: the
    first capture of the list for which [findDeclarationAncestor]
    returns the node that it returns for this one, by node identity,
    adds the first line of that node, when not empty, to the lines.
    Which node that is, is the matter of [findDeclarationAncestor]: it
    need not be the nested declaration itself. *)
Theorem captures_at_every_depth (q : list Pattern) (rootNode n : Node)
    (ps : list Node) (p : Pattern) (c : QueryCapture) :
  (n, ps) ∈ subnodes [] rootNode →
  p ∈ q →
  c ∈ match_pattern p ps n →
  c ∈ Query_captures q rootNode
  ∧ ∀ captures,
      c ∈ captures →
      (trim (text (node c)) ≠ "" →
       trim (text (node c)) ∈ collect_names captures)
      ∧ ∃ i c0,
          list_find (λ c', id (declaration_of c') = id (declaration_of c))
            captures
          = Some (i, c0)
          ∧ (line_of c0 ≠ "" → line_of c0 ∈ collect_lines captures).
Proof.
  intros Hn Hp Hc. split.
  - apply Query_captures_elem, list_elem_of_In, matches_below_subnodes.
    exists n, ps, p. by rewrite <- !list_elem_of_In.
  - intros captures Hin. split.
    + intros Hne. rewrite collect_names_spec. apply names_of_elem. eauto.
    + by apply collect_lines_first.
Qed.

(** The class of the Ruby test file, three levels below the root: its
    name and the first line of its declaration are in the lists. *)
Lemma captures_at_every_depth_witness :
  capture_RefundProcessor ∈ Query_captures (query_of "ruby") ruby_tree
  ∧ "RefundProcessor"
    ∈ collect_names (Query_captures (query_of "ruby") ruby_tree)
  ∧ "class RefundProcessor"
    ∈ collect_lines (Query_captures (query_of "ruby") ruby_tree).
Proof.
  assert (Hn : (ruby_class, [ruby_module_body; ruby_module; ruby_tree])
               ∈ subnodes [] ruby_tree).
  { apply list_elem_of_In. vm_compute. auto 10. }
  assert (Hp : named "class" "constant" ∈ query_of "ruby").
  { apply list_elem_of_In. vm_compute. auto. }
  assert (Hc : capture_RefundProcessor
               ∈ match_pattern (named "class" "constant")
                   [ruby_module_body; ruby_module; ruby_tree] ruby_class).
  { apply list_elem_of_In. vm_compute. auto. }
  destruct (captures_at_every_depth _ _ _ _ _ _ Hn Hp Hc) as (H1 & H23).
  destruct (H23 _ H1) as (H2 & i & c0 & Hfind & H3).
  split; [exact H1 |]. split; [apply H2; discriminate |].
  assert (Hc0 : Some (i, c0) = Some (1%nat, capture_RefundProcessor))
    by (rewrite <- Hfind; vm_compute; reflexivity).
  injection Hc0 as -> ->.
  assert (Hline : line_of capture_RefundProcessor = "class RefundProcessor")
    by (vm_compute; reflexivity).
  rewrite Hline in H3. apply H3. discriminate.
Defined.

(** C4, counterexample. In the Ruby file of the repository's test the
    class [RefundProcessor] is declared inside the module [Payments],
    whose node is among its parents; the query still captures it, and
    it contributes a name to [extractSignature] and a line to
    [extractSignatureLines]. *)
Lemma nested_declaration_counterexample :
  ¬ top_level_only (query_of "ruby") ruby_tree
  ∧ extractSignature test_parse "lib/payments/refund.rb" ruby_source
    = Some "lib/payments/refund.rb | Payments | RefundProcessor | initialize | process"
  ∧ extractSignatureLines test_parse "lib/payments/refund.rb" ruby_source
    = Some "lib/payments/refund.rb | Payments | class RefundProcessor".
Proof.
  split; [| split; vm_compute; reflexivity].
  intros Htop. apply (Htop capture_RefundProcessor).
  - apply list_elem_of_In. vm_compute. auto.
  - exists capture_Payments, ruby_module. split_and!.
    + apply list_elem_of_In. vm_compute. auto.
    + reflexivity.
    + apply list_elem_of_In. simpl. auto.
Qed.
End SignatureClaims.

(** ** The store *)

Section VectorFacts.
Import Vector.
Local Open Scope R_scope.

Lemma dot_self_nonneg (a : list R) : 0 <= dot a a.
Proof.
  unfold dot. induction a as [|x a IH]; simpl; [lra |].
  pose proof (Rle_0_sqr x) as Hx. unfold Rsqr in Hx. lra.
Qed.

Lemma dot_sub_expand (a b : list R) :
  length a = length b →
  dot (sub a b) (sub a b) = dot a a - 2 * dot a b + dot b b.
Proof.
  unfold dot, sub. revert b.
  induction a as [|x a IH]; intros [|y b] Hlen; simpl in *; try done.
  - lra.
  - rewrite IH by lia. ring.
Qed.

Lemma norm_nonneg (a : list R) : 0 <= norm a.
Proof. apply sqrt_pos. Qed.

Lemma norm_sqr (a : list R) : norm a * norm a = dot a a.
Proof. apply sqrt_sqrt, dot_self_nonneg. Qed.

Lemma l2_distance_nonneg (a b : list R) : 0 <= l2_distance a b.
Proof. apply norm_nonneg. Qed.

Lemma unit_dot (a : list R) : norm a = 1 → dot a a = 1.
Proof. intros H. rewrite <- norm_sqr, H. ring. Qed.

Lemma unit_distance_sqr (a b : list R) :
  length a = length b → norm a = 1 → norm b = 1 →
  l2_distance a b * l2_distance a b = 2 - 2 * cosine a b.
Proof.
  intros Hlen Ha Hb. unfold l2_distance, cosine.
  rewrite norm_sqr, dot_sub_expand, Ha, Hb by done.
  rewrite (unit_dot a), (unit_dot b) by done. field.
Qed.

Lemma l2ToCosine_unit (a b : list R) :
  length a = length b → norm a = 1 → norm b = 1 →
  Store.l2ToCosine (l2_distance a b) = cosine a b.
Proof.
  intros Hlen Ha Hb. unfold Store.l2ToCosine.
  rewrite unit_distance_sqr by done. field.
Qed.

Lemma l2ToCosine_antitone (d1 d2 : R) :
  0 <= d1 → d1 <= d2 → Store.l2ToCosine d2 <= Store.l2ToCosine d1.
Proof. intros H0 H. unfold Store.l2ToCosine. nra. Qed.

(** C2. The conversion computes [1 - d² / 2]; for two unit vectors at
    distance [d] the squared distance is [2 - 2·cos(a, b)], so the value
    computed is the cosine similarity of the two vectors. *)
Theorem l2ToCosine_is_cosine (d : R) (a b : list R) :
  0 <= d →
  length a = length b → norm a = 1 → norm b = 1 →
  l2_distance a b = d →
  Store.l2ToCosine d = 1 - d ^ 2 / 2
  ∧ d ^ 2 = 2 - 2 * cosine a b
  ∧ Store.l2ToCosine d = cosine a b.
Proof.
  intros _ Hlen Ha Hb <-. split_and!.
  - unfold Store.l2ToCosine. field.
  - rewrite <- unit_distance_sqr by done. ring.
  - by apply l2ToCosine_unit.
Qed.

Lemma norm_e1 : norm StoreSpec.e1 = 1.
Proof.
  unfold norm, dot, StoreSpec.e1. simpl.
  replace (1 * 1 + (0 * 0 + (0 * 0 + (0 * 0 + 0)))) with 1 by ring.
  apply sqrt_1.
Qed.

Lemma norm_e2 : norm StoreSpec.e2 = 1.
Proof.
  unfold norm, dot, StoreSpec.e2. simpl.
  replace (0 * 0 + (1 * 1 + (0 * 0 + (0 * 0 + 0)))) with 1 by ring.
  apply sqrt_1.
Qed.

(** Two orthogonal unit vectors: distance [√2], similarity [0]. *)
Lemma l2ToCosine_is_cosine_witness :
  Store.l2ToCosine (l2_distance StoreSpec.e1 StoreSpec.e2)
  = cosine StoreSpec.e1 StoreSpec.e2.
Proof.
  apply (l2ToCosine_is_cosine (l2_distance StoreSpec.e1 StoreSpec.e2)
           StoreSpec.e1 StoreSpec.e2).
  - apply l2_distance_nonneg.
  - reflexivity.
  - apply norm_e1.
  - apply norm_e2.
  - reflexivity.
Defined.
End VectorFacts.

Section IndexFacts.
Import JS Vector StoreSpec.

Lemma insert_nearest_elem (x z : Z * R) (l : list (Z * R)) :
  z ∈ Store.insert_nearest x l ↔ z = x ∨ z ∈ l.
Proof.
  induction l as [|y l IH]; simpl.
  - rewrite list_elem_of_singleton, elem_of_nil. naive_solver.
  - destruct (Rle_dec x.2 y.2).
    + by rewrite elem_of_cons.
    + rewrite !elem_of_cons, IH. naive_solver.
Qed.

Lemma insert_nearest_sorted (x : Z * R) (l : list (Z * R)) :
  StronglySorted nearer l → StronglySorted nearer (Store.insert_nearest x l).
Proof.
  induction 1 as [|y l Hl IH Hy]; simpl.
  - repeat constructor.
  - destruct (Rle_dec x.2 y.2) as [Hle | Hgt].
    + constructor; [by constructor |]. constructor; [done |].
      eapply Forall_impl; [exact Hy |]. unfold nearer. intros z Hz. lra.
    + constructor; [done |]. rewrite Forall_forall. intros z Hz.
      apply insert_nearest_elem in Hz as [-> | Hz].
      * unfold nearer. lra.
      * rewrite Forall_forall in Hy. by apply Hy.
Qed.

Lemma sort_nearest_sorted (l : list (Z * R)) :
  StronglySorted nearer (foldr Store.insert_nearest [] l).
Proof.
  induction l as [|x l IH]; simpl; [constructor |].
  by apply insert_nearest_sorted.
Qed.

Lemma sort_nearest_elem (l : list (Z * R)) (z : Z * R) :
  z ∈ foldr Store.insert_nearest [] l ↔ z ∈ l.
Proof.
  induction l as [|x l IH]; simpl; [done |].
  by rewrite insert_nearest_elem, elem_of_cons, IH.
Qed.

Lemma StronglySorted_take {A} (R : relation A) (n : nat) (l : list A) :
  StronglySorted R l → StronglySorted R (take n l).
Proof.
  intros H. rewrite <- (take_drop n l) in H.
  by apply StronglySorted_app_1_l in H.
Qed.

Lemma elem_of_take_1 {A} (n : nat) (l : list A) (x : A) : x ∈ take n l → x ∈ l.
Proof.
  rewrite elem_of_take. intros (i & Hi & _). by eapply list_elem_of_lookup_2.
Qed.

Lemma knn_sorted (distance : Store.Distance) (vec : gmap Z (list R))
    (query : list R) (k : Z) :
  StronglySorted nearer (Store.knn distance vec query k).
Proof. apply StronglySorted_take, sort_nearest_sorted. Qed.

Lemma knn_elem (distance : Store.Distance) (vec : gmap Z (list R))
    (query : list R) (k : Z) (rowid : Z) (d : R) :
  (rowid, d) ∈ Store.knn distance vec query k →
  ∃ e, vec !! rowid = Some e ∧ d = Store.reported distance e query.
Proof.
  unfold Store.knn. intros H%elem_of_take_1.
  apply sort_nearest_elem, list_elem_of_fmap in H as ([r e] & [= -> ->] & H).
  apply elem_of_map_to_list in H. by exists e.
Qed.

Lemma StronglySorted_omap {A B} (R1 : relation A) (R2 : relation B)
    (f : A → option B) (l : list A) :
  (∀ x y x' y', f x = Some x' → f y = Some y' → R1 x y → R2 x' y') →
  StronglySorted R1 l → StronglySorted R2 (omap f l).
Proof.
  intros Hf. induction 1 as [|x l Hl IH Hx]; simpl; [constructor |].
  destruct (f x) as [x'|] eqn:Hfx; [|done].
  constructor; [done |]. rewrite Forall_forall. intros y' Hy'.
  apply list_elem_of_omap in Hy' as (y & Hy & Hfy).
  rewrite Forall_forall in Hx. eauto.
Qed.

Lemma select_nearest_sorted (query : list R) (k : Z) (d : Store.Database) :
  StronglySorted row_nearer (Store.select_nearest query k d).
Proof.
  unfold Store.select_nearest.
  eapply StronglySorted_omap; [| apply knn_sorted].
  intros x y x' y' Hx Hy Hxy.
  destruct (Store.memories d !! x.1); [|done].
  destruct (Store.memories d !! y.1); [|done].
  simpl in *. injection Hx as <-. injection Hy as <-. done.
Qed.

Lemma select_nearest_elem (query : list R) (k : Z) (d : Store.Database)
    (row : Store.SearchRow) :
  row ∈ Store.select_nearest query k d →
  ∃ e m,
    Store.memories_vec d !! Store.rowid row = Some e
    ∧ Store.memories d !! Store.rowid row = Some m
    ∧ Store.distance row = Store.reported (Store.vec_distance d) e query
    ∧ Store.s_text row = Store.row_text m
    ∧ Store.s_created_at row = Store.created_at m
    ∧ Store.s_session_id row = Store.session_id m.
Proof.
  unfold Store.select_nearest. intros H.
  apply list_elem_of_omap in H as ([r dist] & Hin & Hrow).
  apply knn_elem in Hin as (e & He & ->). simpl in Hrow.
  destruct (Store.memories d !! r) as [m|] eqn:Hm; [|done].
  simpl in Hrow. injection Hrow as <-. by exists e, m.
Qed.

Lemma select_nearest_distance (query : list R) (k : Z) (d : Store.Database) :
  Forall (λ row, (0 <= Store.distance row)%R) (Store.select_nearest query k d).
Proof.
  rewrite Forall_forall. intros row Hrow.
  apply select_nearest_elem in Hrow as (e & m & _ & _ & -> & _).
  apply Store.reported_nonneg.
Qed.
End IndexFacts.

Section SearchFacts.
Import JS Vector StoreSpec.

Lemma passing_cons_keep (t : R) (row : Store.SearchRow) (rows : list Store.SearchRow) :
  ¬ (Store.l2ToCosine (Store.distance row) < t)%R →
  passing t (row :: rows) = match_of row :: passing t rows.
Proof. intros H. unfold passing. by rewrite filter_cons_True. Qed.

Lemma passing_cons_drop (t : R) (row : Store.SearchRow) (rows : list Store.SearchRow) :
  (Store.l2ToCosine (Store.distance row) < t)%R →
  passing t (row :: rows) = passing t rows.
Proof. intros H. unfold passing. rewrite filter_cons_False; [done | tauto]. Qed.

Lemma search_loop_spec (t : R) (limit : Z) (rows : list Store.SearchRow) :
  ∀ results,
    (length results < stop_after limit)%nat →
    Store.search_loop t limit rows results
    = results ++ take (stop_after limit - length results) (passing t rows).
Proof.
  unfold stop_after.
  induction rows as [|row rows IH]; intros results Hlen; simpl.
  - change (passing t []) with (@nil Store.MemoryMatch).
    by rewrite take_nil, app_nil_r.
  - destruct (Rlt_dec (Store.l2ToCosine (Store.distance row)) t) as [Hlt | Hge].
    + rewrite passing_cons_drop by done. by apply IH.
    + rewrite passing_cons_keep by done.
      fold (match_of row). rewrite length_app. simpl.
      destruct (Z.geb_spec (Z.of_nat (length results + 1)) limit) as [Hstop | Hgo].
      * replace (Z.to_nat (Z.max limit 1) - length results) with 1 by lia.
        simpl. by rewrite take_0.
      * rewrite IH by (rewrite length_app; simpl; lia).
        rewrite length_app. simpl. rewrite <- app_assoc. simpl.
        replace (Z.to_nat (Z.max limit 1) - length results)
          with (S (Z.to_nat (Z.max limit 1) - (length results + 1))) by lia.
        done.
Qed.

Lemma found_eq (embedding : list R) (t : R) (limit : Z) (this : Store.MemoryStore) :
  searchable embedding limit this →
  Store.search embedding t limit this
  = (Ok (take (stop_after limit) (passing t (rows_of embedding limit this))),
     this).
Proof.
  intros (Hdim & Hcol & Hlimit). unfold Store.search, Store.all_nearest.
  rewrite (proj2 (Z.eqb_eq _ _) Hdim), Hcol, <- Hdim, Z.eqb_refl.
  assert (Hk : Store.is_int64 (Z.max (limit * 2) 20) = true).
  { unfold Store.is_int64. apply andb_true_iff.
    split; [apply Z.leb_le | apply Z.ltb_lt]; lia. }
  rewrite Hk. cbn [negb].
  rewrite (proj2 (Z.ltb_ge _ _)) by (unfold Store.K_MAX; lia).
  rewrite search_loop_spec by (unfold stop_after; simpl; lia).
  simpl. by rewrite Nat.sub_0_r.
Qed.

Lemma search_refused (embedding : list R) (limit : Z)
    (this : Store.MemoryStore) :
  ¬ searchable embedding limit this →
  ∃ e, ∀ t, Store.search embedding t limit this = (Throw e, this).
Proof.
  intros Hnot. unfold Store.search, Store.all_nearest.
  destruct (Z.eqb_spec (Z.of_nat (length embedding)) (Store.dimensions this))
    as [Hdim | Hdim]; cbn [negb]; [|by eexists].
  destruct (Store.vec_dimensions (Store.db this)) as [n|] eqn:Hcol;
    [|by eexists].
  destruct (Store.is_int64 (Z.max (limit * 2) 20)); cbn [negb];
    [|by eexists].
  destruct (Z.eqb_spec n (Z.of_nat (length embedding))) as [Hn | Hn];
    cbn [negb]; [|by eexists].
  destruct (Z.ltb_spec Store.K_MAX (Z.max (limit * 2) 20)) as [Hk | Hk];
    [by eexists |].
  destruct Hnot. unfold searchable, Store.K_MAX in *.
  split_and!; [done | congruence | lia].
Qed.

Lemma search_mismatch (embedding : list R) (t : R) (limit : Z)
    (this : Store.MemoryStore) :
  Z.of_nat (length embedding) ≠ Store.dimensions this →
  Store.search embedding t limit this
  = (Throw (Store.dimension_error this embedding), this).
Proof.
  intros Hdim. unfold Store.search.
  by rewrite (proj2 (Z.eqb_neq _ _) Hdim).
Qed.

Lemma found_take (embedding : list R) (t : R) (limit : Z) (this : Store.MemoryStore) :
  found embedding t limit this
  = if decide (searchable embedding limit this)
    then take (stop_after limit) (passing t (rows_of embedding limit this))
    else [].
Proof.
  unfold found. destruct (decide _) as [Hdim | Hdim].
  - by rewrite found_eq.
  - destruct (search_refused embedding limit this Hdim) as [e ->]. done.
Qed.

Lemma passing_elem (t : R) (rows : list Store.SearchRow) (m : Store.MemoryMatch) :
  m ∈ passing t rows ↔
  ∃ row, row ∈ rows ∧ m = match_of row
         ∧ (t <= Store.l2ToCosine (Store.distance row))%R.
Proof.
  unfold passing. rewrite list_elem_of_fmap.
  setoid_rewrite list_elem_of_filter. split.
  - intros (row & -> & Hge & Hrow). exists row. split_and!; [done.. | lra].
  - intros (row & Hrow & -> & Hge). exists row. split_and!; [done | lra | done].
Qed.

Lemma passing_sorted (t : R) (rows : list Store.SearchRow) :
  StronglySorted row_nearer rows →
  Forall (λ row, (0 <= Store.distance row)%R) rows →
  by_similarity_desc (passing t rows).
Proof.
  intros Hsorted Hpos. unfold by_similarity_desc, passing.
  apply (StronglySorted_fmap _
           (λ a b, row_nearer a b ∧ (0 <= Store.distance a)%R)).
  - intros a b [Hab Ha]. simpl. by apply l2ToCosine_antitone.
  - induction Hsorted as [|row rows Hs IH Hrow]; [rewrite filter_nil; constructor |].
    apply Forall_cons in Hpos as [Hp Hpos].
    rewrite filter_cons. destruct (decide _); [|by apply IH].
    constructor; [by apply IH |].
    rewrite Forall_forall in *. intros b Hb%list_elem_of_filter.
    split; [apply Hrow; tauto | done].
Qed.




Lemma found_elem (embedding : list R) (t : R) (limit : Z)
    (this : Store.MemoryStore) (m : Store.MemoryMatch) :
  m ∈ found embedding t limit this →
  ∃ row, row ∈ rows_of embedding limit this ∧ m = match_of row
         ∧ (t <= Store.similarity m)%R.
Proof.
  rewrite found_take. destruct (decide _); [|by intros ?%elem_of_nil].
  intros Hm%elem_of_take_1. apply passing_elem in Hm as (row & Hrow & -> & Hge).
  by exists row.
Qed.

Lemma found_length (embedding : list R) (t : R) (limit : Z)
    (this : Store.MemoryStore) :
  (length (found embedding t limit this) <= stop_after limit)%nat.
Proof.
  rewrite found_take. destruct (decide _); simpl; [|lia].
  rewrite length_take. lia.
Qed.

Lemma found_length_limit (embedding : list R) (t : R) (limit : Z)
    (this : Store.MemoryStore) :
  (1 <= limit)%Z →
  (Z.of_nat (length (found embedding t limit this)) <= limit)%Z.
Proof.
  intros Hlimit. pose proof (found_length embedding t limit this) as H.
  unfold stop_after in H. lia.
Qed.

Lemma found_sorted (embedding : list R) (t : R) (limit : Z)
    (this : Store.MemoryStore) :
  by_similarity_desc (found embedding t limit this).
Proof.
  rewrite found_take. destruct (decide _); [|constructor].
  apply StronglySorted_take, passing_sorted.
  - apply select_nearest_sorted.
  - apply select_nearest_distance.
Qed.

End SearchFacts.

Section StoreFacts.
Import JS Vector StoreSpec.

Lemma insert_newest_elem (x z : Z * Store.MemoryRow) (l : list (Z * Store.MemoryRow)) :
  z ∈ Store.insert_newest x l ↔ z = x ∨ z ∈ l.
Proof.
  induction l as [|y l IH]; simpl.
  - rewrite list_elem_of_singleton, elem_of_nil. naive_solver.
  - destruct (String.leb _ _).
    + by rewrite elem_of_cons.
    + rewrite !elem_of_cons, IH. naive_solver.
Qed.

Lemma select_all_elem (d : Store.Database) (k : Z) (row : Store.MemoryRow) :
  (k, row) ∈ Store.select_all d ↔ Store.memories d !! k = Some row.
Proof.
  unfold Store.select_all. rewrite <- elem_of_map_to_list.
  induction (map_to_list (Store.memories d)) as [|x l IH]; simpl; [done |].
  by rewrite insert_newest_elem, elem_of_cons, IH.
Qed.

Lemma listed_elem (this : Store.MemoryStore) (m : Store.Memory) :
  m ∈ listed this ↔
  ∃ row,
    Store.memories (Store.db this) !! Store.id m = Some row
    ∧ Store.text m = Store.row_text row
    ∧ Store.createdAt m = Store.created_at row
    ∧ Store.sessionId m = Store.session_id row.
Proof.
  unfold listed, Store.list. simpl. rewrite list_elem_of_fmap. split.
  - intros ([k row] & -> & H). apply select_all_elem in H. by exists row.
  - intros (row & H & Ht & Hc & Hs). exists (Store.id m, row).
    split; [| by apply select_all_elem].
    destruct m; simpl in *. by subst.
Qed.

Lemma found_row (embedding : list R) (t : R) (limit : Z)
    (this : Store.MemoryStore) (m : Store.MemoryMatch) :
  m ∈ found embedding t limit this →
  ∃ e row,
    Store.memories_vec (Store.db this) !! Store.id (Store.memory m) = Some e
    ∧ Store.memories (Store.db this) !! Store.id (Store.memory m) = Some row
    ∧ Store.text (Store.memory m) = Store.row_text row
    ∧ Store.similarity m
      = Store.l2ToCosine
          (Store.reported (Store.vec_distance (Store.db this)) e embedding)
    ∧ (t <= Store.similarity m)%R.
Proof.
  intros (r & Hr & -> & Hge)%found_elem.
  apply select_nearest_elem in Hr as (e & row & He & Hrow & Hd & Ht & _).
  exists e, row. simpl. by rewrite <- Hd.
Qed.

(** *** [add] *)

Lemma add_mismatch (text : string) (embedding : list R) (sessionId now : string)
    (this : Store.MemoryStore) :
  Z.of_nat (length embedding) ≠ Store.dimensions this →
  Store.add text embedding sessionId now this
  = (Throw (Store.dimension_error this embedding), this).
Proof.
  intros Hdim. unfold Store.add. by rewrite (proj2 (Z.eqb_neq _ _) Hdim).
Qed.

Lemma add_cases (text : string) (embedding : list R) (sessionId now : string)
    (this : Store.MemoryStore) :
  (∃ e, Store.add text embedding sessionId now this = (Throw e, this))
  ∨ Store.add text embedding sessionId now this
    = (Ok (next_rowid (Store.db this)),
       {| Store.db :=
            {| Store.memories :=
                 <[next_rowid (Store.db this) :=
                     {| Store.row_text := text; Store.created_at := now;
                        Store.session_id := sessionId |}]>
                   (Store.memories (Store.db this));
               Store.sqlite_sequence := next_rowid (Store.db this);
               Store.memories_vec :=
                 <[next_rowid (Store.db this) := embedding]>
                   (Store.memories_vec (Store.db this));
               Store.vec_dimensions := Store.vec_dimensions (Store.db this);
               Store.vec_distance := Store.vec_distance (Store.db this) |};
          Store.dimensions := Store.dimensions this |}).
Proof.
  destruct this as [d dims]. unfold Store.add. simpl.
  destruct (Z.of_nat (length embedding) =? dims)%Z; simpl; [|eauto].
  unfold Store.transaction, Store.insert_memory, Store.insert_vec. simpl.
  fold (next_rowid d).
  destruct (Store.is_int64 (next_rowid d)); simpl; [|eauto].
  destruct (Store.vec_dimensions d) as [n|]; simpl; [|eauto].
  destruct (n =? Z.of_nat (length embedding))%Z; simpl; [|eauto].
  destruct (Store.memories_vec d !! next_rowid d); simpl; eauto.
Qed.

(** *** [search] *)

Lemma search_store (embedding : list R) (t : R) (limit : Z)
    (this : Store.MemoryStore) :
  (Store.search embedding t limit this).2 = this.
Proof.
  unfold Store.search. destruct (negb _); [done |].
  by destruct (Store.all_nearest _ _ _) as [[rows|e] d].
Qed.

(** *** [delete] *)

Lemma delete_eq (id : Z) (this : Store.MemoryStore) :
  Store.is_int64 id = true →
  Store.delete id this
  = (Ok (),
     {| Store.db :=
          {| Store.memories := base.delete id (Store.memories (Store.db this));
             Store.sqlite_sequence := Store.sqlite_sequence (Store.db this);
             Store.memories_vec :=
               base.delete id (Store.memories_vec (Store.db this));
             Store.vec_dimensions := Store.vec_dimensions (Store.db this);
             Store.vec_distance := Store.vec_distance (Store.db this) |};
        Store.dimensions := Store.dimensions this |}).
Proof.
  intros Hid. unfold Store.delete, Store.transaction, Store.delete_vec.
  simpl. by rewrite Hid.
Qed.

Lemma delete_refused (id : Z) (this : Store.MemoryStore) :
  Store.is_int64 id = false →
  Store.delete id this
  = (Throw (RangeError "The bound string, buffer, or bigint is too big"), this).
Proof.
  intros Hid. unfold Store.delete, Store.transaction, Store.delete_vec.
  simpl. rewrite Hid. simpl. by destruct this.
Qed.

Lemma delete_cases (id : Z) (this : Store.MemoryStore) :
  (Store.delete id this).2 = this
  ∨ (Store.delete id this).2
    = {| Store.db :=
           {| Store.memories := base.delete id (Store.memories (Store.db this));
              Store.sqlite_sequence := Store.sqlite_sequence (Store.db this);
              Store.memories_vec :=
                base.delete id (Store.memories_vec (Store.db this));
              Store.vec_dimensions := Store.vec_dimensions (Store.db this);
              Store.vec_distance := Store.vec_distance (Store.db this) |};
         Store.dimensions := Store.dimensions this |}.
Proof.
  destruct (Store.is_int64 id) eqn:Hid.
  - right. by rewrite delete_eq.
  - left. by rewrite delete_refused.
Qed.

(** *** Sequences of calls *)

Lemma run_snoc (ops : list operation) (op : operation) (this : Store.MemoryStore) :
  run (ops ++ [op]) this = step op (run ops this).
Proof. unfold run. by rewrite fold_left_app. Qed.

Lemma step_memories (op : operation) (this : Store.MemoryStore) :
  Store.memories (Store.db (step op this)) = Store.memories (Store.db this)
  ∨ (∃ id,
       Store.memories (Store.db (step op this))
       = base.delete id (Store.memories (Store.db this))
       ∧ Store.sqlite_sequence (Store.db (step op this))
         = Store.sqlite_sequence (Store.db this))
  ∨ (∃ text embedding sessionId now,
       op = Add text embedding sessionId now
       ∧ Store.memories (Store.db (step op this))
         = <[next_rowid (Store.db this) :=
               {| Store.row_text := text; Store.created_at := now;
                  Store.session_id := sessionId |}]>
             (Store.memories (Store.db this))
       ∧ Store.sqlite_sequence (Store.db (step op this))
         = next_rowid (Store.db this)).
Proof.
  destruct op as [text e s now | e t k | id | |]; simpl.
  - destruct (add_cases text e s now this) as [[err ->] | ->]; simpl.
    + by left.
    + right. right. by exists text, e, s, now.
  - left. by rewrite search_store.
  - destruct (delete_cases id this) as [-> | ->]; [by left |].
    right. left. by exists id.
  - by left.
  - by left.
Qed.

Lemma step_sequence_ok (op : operation) (this : Store.MemoryStore) :
  sequence_ok this →
  sequence_ok (step op this)
  ∧ (Store.sqlite_sequence (Store.db this)
     <= Store.sqlite_sequence (Store.db (step op this)))%Z.
Proof.
  intros Hok.
  assert (Hsame : Store.memories (Store.db (step op this))
                  = Store.memories (Store.db this) →
                  Store.sqlite_sequence (Store.db (step op this))
                  = Store.sqlite_sequence (Store.db this) →
                  sequence_ok (step op this)
                  ∧ (Store.sqlite_sequence (Store.db this)
                     <= Store.sqlite_sequence (Store.db (step op this)))%Z).
  { intros Hm Hs. unfold sequence_ok. rewrite Hm, Hs. split; [done | lia]. }
  destruct op as [text e s now | e t k | id | |]; simpl in *.
  - destruct (add_cases text e s now this) as [[err ->] | ->]; simpl.
    + split; [done | lia].
    + unfold sequence_ok, next_rowid. simpl. split; [|lia].
      intros k [row Hk]. destruct (decide (k = next_rowid (Store.db this))) as [-> | Hne].
      * unfold next_rowid. lia.
      * rewrite lookup_insert_ne in Hk by done.
        specialize (Hok k (mk_is_Some _ _ Hk)). lia.
  - apply Hsame; by rewrite search_store.
  - destruct (delete_cases id this) as [-> | ->]; [split; [done | lia] |].
    unfold sequence_ok. simpl. split; [|lia].
    intros k [row Hk]. apply Hok.
    destruct (decide (k = id)) as [-> | Hne].
    + by rewrite lookup_delete_eq in Hk.
    + rewrite lookup_delete_ne in Hk by done. eauto.
  - by apply Hsame.
  - by apply Hsame.
Qed.

Lemma step_absent (op : operation) (this : Store.MemoryStore) (id : Z) :
  sequence_ok this →
  (id <= Store.sqlite_sequence (Store.db this))%Z →
  Store.memories (Store.db this) !! id = None →
  Store.memories (Store.db (step op this)) !! id = None.
Proof.
  intros Hok Hid Hnone.
  destruct (step_memories op this)
    as [-> | [(id' & -> & _) | (text & e & s & now & _ & -> & _)]].
  - done.
  - destruct (decide (id = id')) as [-> | Hne].
    + apply lookup_delete_eq.
    + by rewrite lookup_delete_ne.
  - rewrite lookup_insert_ne; [done |]. unfold next_rowid. lia.
Qed.

Lemma run_absent (ops : list operation) (this : Store.MemoryStore) (id : Z) :
  sequence_ok this →
  (id <= Store.sqlite_sequence (Store.db this))%Z →
  Store.memories (Store.db this) !! id = None →
  Store.memories (Store.db (run ops this)) !! id = None.
Proof.
  intros Hok Hid Hnone.
  enough (H : sequence_ok (run ops this)
              ∧ (id <= Store.sqlite_sequence (Store.db (run ops this)))%Z
              ∧ Store.memories (Store.db (run ops this)) !! id = None)
    by tauto.
  induction ops as [|op ops IH] using rev_ind; [done |].
  destruct IH as (Hok' & Hid' & Hnone'). rewrite run_snoc.
  destruct (step_sequence_ok op _ Hok') as [Hok'' Hle].
  split_and!; [done | lia | by apply step_absent].
Qed.

Lemma run_provenance (ops : list operation) (dims : option Z) (k : Z)
    (row : Store.MemoryRow) :
  Store.memories (Store.db (run ops (Store.constructor dims Store.empty_database)))
    !! k = Some row →
  ∃ embedding sessionId now,
    Add (Store.row_text row) embedding sessionId now ∈ ops.
Proof.
  revert k row. induction ops as [|op ops IH] using rev_ind; intros k row.
  - simpl. by rewrite lookup_empty.
  - rewrite run_snoc.
    set (st := run ops (Store.constructor dims Store.empty_database)) in *.
    assert (Hold : ∀ k' row',
               Store.memories (Store.db st) !! k' = Some row' →
               ∃ embedding sessionId now,
                 Add (Store.row_text row') embedding sessionId now
                 ∈ ops ++ [op]).
    { intros k' row' H. destruct (IH _ _ H) as (e & s & now & Hin).
      exists e, s, now. apply elem_of_app. by left. }
    destruct (step_memories op st)
      as [-> | [(id' & -> & _) | (text & e & s & now & -> & -> & _)]].
    + apply Hold.
    + intros H. apply (Hold k).
      destruct (decide (k = id')) as [-> | Hne].
      * by rewrite lookup_delete_eq in H.
      * by rewrite lookup_delete_ne in H.
    + destruct (decide (k = next_rowid (Store.db st))) as [-> | Hne].
      * rewrite lookup_insert_eq. intros [= <-]. simpl.
        exists e, s, now. apply elem_of_app. right. by left.
      * rewrite lookup_insert_ne by done. apply Hold.
Qed.
End StoreFacts.

Section StoreClaims.
Import JS Vector StoreSpec.

Lemma l2_distance_self (a : list R) : l2_distance a a = 0%R.
Proof.
  unfold l2_distance, norm.
  replace (dot (sub a a) (sub a a)) with 0%R; [apply sqrt_0 |].
  unfold dot, sub. induction a as [|x a IH]; simpl; [done |].
  rewrite <- IH. ring.
Qed.

Lemma store1_db :
  Store.db store1
  = {| Store.memories :=
         {[ 1%Z := {| Store.row_text := "to be deleted";
                      Store.created_at := "2026-01-01T00:00:00.000Z";
                      Store.session_id := "s1" |} ]};
       Store.sqlite_sequence := 1;
       Store.memories_vec := {[ 1%Z := e1 ]};
       Store.vec_dimensions := Some 4%Z;
       Store.vec_distance := Store.exact_distance |}.
Proof. reflexivity. Qed.

Lemma store1_searchable (limit : Z) :
  (limit <= 2048)%Z → searchable e1 limit store1.
Proof. intros H. by split_and!. Qed.

Lemma store1_rows (limit : Z) :
  rows_of e1 limit store1
  = [ {| Store.rowid := 1; Store.distance := l2_distance e1 e1;
         Store.s_text := "to be deleted";
         Store.s_created_at := "2026-01-01T00:00:00.000Z";
         Store.s_session_id := "s1" |} ].
Proof.
  unfold rows_of, Store.select_nearest, Store.knn. rewrite store1_db. simpl.
  rewrite map_to_list_singleton. simpl.
  replace (Z.to_nat (Z.max (limit * 2) 20)) with (S (Z.to_nat (Z.max (limit * 2) 20) - 1))
    by lia.
  simpl. rewrite take_nil. simpl. by rewrite lookup_singleton_eq.
Qed.

(** C1, the failing input. The store holds one memory and is searched
    with that memory's own embedding, threshold 0 and limit 0: the
    result has one match, one more than the limit. The loop tests the
    limit only after it has pushed a match. *)
Theorem search_limit_zero_returns_one :
  ∃ m,
    Store.search e1 0 0 store1 = (Ok [m], store1)
    ∧ Store.text (Store.memory m) = "to be deleted"
    ∧ Store.similarity m = 1%R
    ∧ (Z.of_nat (length [m]) > 0)%Z.
Proof.
  eexists. rewrite found_eq by (by apply store1_searchable).
  rewrite store1_rows.
  rewrite passing_cons_keep.
  - split; [reflexivity |]. split; [reflexivity |]. split; [|simpl; lia].
    simpl. rewrite l2_distance_self. unfold Store.l2ToCosine. lra.
  - simpl. rewrite l2_distance_self. unfold Store.l2ToCosine. lra.
Qed.






(** C6. With an embedding whose length is not the dimension of the
    store, [add] and [search] throw the error whose message names the
    expected dimension and the length received, and the store they
    leave is the store they were given: nothing is inserted and
    [count()] is the same. *)
Theorem dimension_mismatch_rejected (this : Store.MemoryStore) (text : string)
    (embedding : list R) (sessionId now : string) (threshold : R) (limit : Z) :
  Z.of_nat (length embedding) ≠ Store.dimensions this →
  let e := Error ("Expected " +:+ pretty (Store.dimensions this)
                  +:+ "-dim embedding, got "
                  +:+ pretty (Z.of_nat (length embedding))) in
  Store.add text embedding sessionId now this = (Throw e, this)
  ∧ Store.search embedding threshold limit this = (Throw e, this)
  ∧ Store.count (Store.add text embedding sessionId now this).2
    = Store.count this
  ∧ Store.count (Store.search embedding threshold limit this).2
    = Store.count this
  ∧ listed (Store.add text embedding sessionId now this).2 = listed this.
Proof.
  intros Hdim e. rewrite add_mismatch, search_mismatch by done. done.
Qed.

(** The calls of the test "rejects wrong dimension embeddings". *)
Lemma dimension_mismatch_rejected_witness :
  Store.add "bad" [1; 2; 3]%R "s1" "2026-01-01T00:00:00.000Z" store0
  = (Throw (Error "Expected 4-dim embedding, got 3"), store0)
  ∧ Store.search [1; 2; 3]%R (/ 2) 10 store0
    = (Throw (Error "Expected 4-dim embedding, got 3"), store0).
Proof.
  assert (H : Z.of_nat (length [1; 2; 3]%R) ≠ Store.dimensions store0)
    by (simpl; lia).
  destruct (dimension_mismatch_rejected store0 "bad" [1; 2; 3]%R "s1"
              "2026-01-01T00:00:00.000Z" (/ 2) 10 H) as (Hadd & Hsearch & _).
  split; [exact Hadd | exact Hsearch].
Defined.
End StoreClaims.

Section StoreLifecycleClaims.
Import JS Vector StoreSpec.

(** C8, the failing input. The store holds one memory, with id 1, and
    [delete] is called with 2⁶³, which is the id of no memory. The call
    is not the no-op without error of the specification: the second
    statement of the transaction cannot bind [BigInt(id)], which is not
    a 64-bit integer, and [delete] throws a [RangeError]. The store is
    left as it was. *)
Theorem delete_nonexistent_throws :
  Store.memories (Store.db store1) !! (2 ^ 63)%Z = None
  ∧ Store.memories_vec (Store.db store1) !! (2 ^ 63)%Z = None
  ∧ Store.delete (2 ^ 63) store1
    = (Throw (RangeError "The bound string, buffer, or bigint is too big"),
       store1)
  ∧ Store.delete 2 store1 = (Ok (), store1).
Proof.
  split_and!; [reflexivity | reflexivity | by apply delete_refused |].
  rewrite delete_eq by reflexivity. reflexivity.
Qed.

(** X23. [delete] on the ids that sqlite can hold. With a 64-bit id
    [delete] returns; afterwards neither the table of the memories nor
    the vector index has a row with that id, and their other rows are
    as before; no memory with that id is listed, the other memories are
    listed as before, and no search returns a match with that id; when
    the id was in use, in a store whose ids are bounded by the
    [AUTOINCREMENT] counter, this stays so after any further sequence
    of calls. When the id is not in the table, [count()] is unchanged,
    and the store is unchanged when the id is not in the index either.
    With any other id [delete] throws a [RangeError] and the store is
    unchanged. *)
Theorem delete_removes (this : Store.MemoryStore) (id : Z) :
  (Store.is_int64 id = true →
   ∃ this',
     Store.delete id this = (Ok (), this')
     ∧ Store.memories (Store.db this') !! id = None
     ∧ Store.memories_vec (Store.db this') !! id = None
     ∧ (∀ k, k ≠ id →
             Store.memories (Store.db this') !! k
             = Store.memories (Store.db this) !! k
             ∧ Store.memories_vec (Store.db this') !! k
               = Store.memories_vec (Store.db this) !! k)
     ∧ (∀ m, m ∈ listed this' ↔ m ∈ listed this ∧ Store.id m ≠ id)
     ∧ (∀ q t k m, m ∈ found q t k this' → Store.id (Store.memory m) ≠ id)
     ∧ (sequence_ok this →
        is_Some (Store.memories (Store.db this) !! id) →
        ∀ ops,
          (∀ m, m ∈ listed (run ops this') → Store.id m ≠ id)
          ∧ (∀ q t k m, m ∈ found q t k (run ops this') →
                        Store.id (Store.memory m) ≠ id))
     ∧ (Store.memories (Store.db this) !! id = None →
        (Store.count this').1 = (Store.count this).1)
     ∧ (Store.memories (Store.db this) !! id = None →
        Store.memories_vec (Store.db this) !! id = None →
        this' = this))
  ∧ (Store.is_int64 id = false →
     ∃ message, Store.delete id this = (Throw (RangeError message), this)).
Proof.
  split; [| intros Hid; eexists; by apply delete_refused].
  intros Hid.
  eexists. split; [by apply delete_eq |].
  set (this' := {| Store.db := _ |}).
  assert (Hgone : Store.memories (Store.db this') !! id = None)
    by apply lookup_delete_eq.
  assert (Hlisted : ∀ st, Store.memories (Store.db st) !! id = None →
                          ∀ m, m ∈ listed st → Store.id m ≠ id).
  { intros st Hst m (row & Hrow & _)%listed_elem Heq.
    rewrite Heq in Hrow. congruence. }
  assert (Hfound : ∀ st, Store.memories (Store.db st) !! id = None →
                         ∀ q t k m, m ∈ found q t k st →
                                    Store.id (Store.memory m) ≠ id).
  { intros st Hst q t k m (e & row & _ & Hrow & _)%found_row Heq.
    rewrite Heq in Hrow. congruence. }
  split_and!.
  - done.
  - apply lookup_delete_eq.
  - intros k Hk. simpl. by rewrite !lookup_delete_ne.
  - intros m. rewrite !listed_elem. simpl. split.
    + intros (row & Hrow & Hfields).
      destruct (decide (Store.id m = id)) as [Heq | Hne].
      * rewrite Heq, lookup_delete_eq in Hrow. done.
      * rewrite lookup_delete_ne in Hrow by done. eauto.
    + intros [(row & Hrow & Hfields) Hne]. exists row.
      by rewrite lookup_delete_ne.
  - by apply Hfound.
  - intros Hok Hsome ops.
    assert (Habsent : Store.memories (Store.db (run ops this')) !! id = None).
    { apply run_absent; [| | done].
      - unfold sequence_ok, this'. simpl. intros k [row Hk]. apply Hok.
        destruct (decide (k = id)) as [-> | Hne].
        + by rewrite lookup_delete_eq in Hk.
        + rewrite lookup_delete_ne in Hk by done. eauto.
      - simpl. by apply Hok. }
    split; [by apply Hlisted | by apply Hfound].
  - intros Hnone. simpl. by rewrite delete_id.
  - intros Hm Hv. unfold this'. rewrite !delete_id by done.
    by destruct this as [[] ?].
Qed.

(** The store of the test: after [delete(1)] neither table has a row
    under 1. *)
Lemma delete_removes_witness :
  ∃ this',
    Store.delete 1 store1 = (Ok (), this')
    ∧ Store.memories (Store.db this') !! 1%Z = None
    ∧ Store.memories_vec (Store.db this') !! 1%Z = None.
Proof.
  destruct (delete_removes store1 1) as [Hok _].
  destruct (Hok eq_refl) as (this' & Hdel & Hm & Hv & _).
  exists this'. split; [exact Hdel |]. split; assumption.
Defined.

(** C10, counterexample. [add] stores the text it is given: with the
    empty string it returns id 1, and [list()] then returns a memory
    whose text is empty. *)
Lemma add_empty_text_counterexample :
  let r := Store.add "" e1 "s1" "2026-01-01T00:00:00.000Z" store0 in
  r.1 = Ok 1%Z
  ∧ listed r.2
    = [ {| Store.id := 1; Store.text := "";
           Store.createdAt := "2026-01-01T00:00:00.000Z";
           Store.sessionId := "s1" |} ].
Proof. split; vm_compute; reflexivity. Qed.

(** C10, as the code has it. The store does not look at the text: after
    any sequence of calls on a new store, the text of every memory that
    [list()] or [search] returns is the text given to an [add] of the
    sequence. So the texts are non-empty whenever every [add] was given
    a non-empty text. *)
Theorem persisted_text_from_add (ops : list operation) (dims : option Z) :
  let this := run ops (Store.constructor dims Store.empty_database) in
  (∀ m, m ∈ listed this →
        ∃ embedding sessionId now,
          Add (Store.text m) embedding sessionId now ∈ ops)
  ∧ (∀ q t k mm, mm ∈ found q t k this →
        ∃ embedding sessionId now,
          Add (Store.text (Store.memory mm)) embedding sessionId now ∈ ops)
  ∧ ((∀ text embedding sessionId now,
        Add text embedding sessionId now ∈ ops → text ≠ "") →
     (∀ m, m ∈ listed this → Store.text m ≠ "")
     ∧ (∀ q t k mm, mm ∈ found q t k this →
                    Store.text (Store.memory mm) ≠ "")).
Proof.
  intros this.
  assert (Hl : ∀ m, m ∈ listed this →
               ∃ embedding sessionId now,
                 Add (Store.text m) embedding sessionId now ∈ ops).
  { intros m (row & Hrow & -> & _)%listed_elem.
    by apply run_provenance in Hrow. }
  assert (Hf : ∀ q t k mm, mm ∈ found q t k this →
               ∃ embedding sessionId now,
                 Add (Store.text (Store.memory mm)) embedding sessionId now
                 ∈ ops).
  { intros q t k mm (e & row & _ & Hrow & -> & _)%found_row.
    by apply run_provenance in Hrow. }
  split_and!; [done.. |].
  intros Hne. split.
  - intros m (e & s & now & Hin)%Hl. by eapply Hne.
  - intros q t k mm (e & s & now & Hin)%Hf. by eapply Hne.
Qed.
End StoreLifecycleClaims.

(** ** The behaviour that the repository's tests expect *)

Section RepositoryTests.
Import JS Json.

Example detectLanguage_common :
  Signature.detectLanguage <$>
    ["foo.ts"; "foo.tsx"; "foo.js"; "foo.py"; "foo.rb"; "foo.go"; "foo.rs";
     "foo.java"; "foo.swift"; "foo.c"; "foo.cpp"; "foo.cs"; "foo.dart";
     "foo.php"]
  = Some <$>
    ["typescript"; "tsx"; "javascript"; "python"; "ruby"; "go"; "rust";
     "java"; "swift"; "c"; "cpp"; "csharp"; "dart"; "php"].
Proof. vm_compute. reflexivity. Qed.

Example detectLanguage_unsupported :
  Signature.detectLanguage <$> ["foo.txt"; "foo"; "Makefile"; "README.md"]
  = [None; None; None; None].
Proof. vm_compute. reflexivity. Qed.

Example detectLanguage_case_insensitive :
  Signature.detectLanguage "src/Main.JAVA" = Some "java".
Proof. vm_compute. reflexivity. Qed.

Example extractSignature_exported_class :
  (λ c, Signature.text (Signature.node c))
    <$> Signature.Query_captures (SignatureSpec.query_of "typescript")
          SignatureSpec.ts_tree
  = ["A"; "A"]
  ∧ Signature.extractSignature SignatureSpec.test_parse "src/a.ts"
      SignatureSpec.ts_source
    = Some "src/a.ts | A"
  ∧ Signature.extractSignatureLines SignatureSpec.test_parse "src/a.ts"
      SignatureSpec.ts_source
    = Some "src/a.ts | class A {}".
Proof. repeat split; vm_compute; reflexivity. Qed.

Example supportedLanguages_count :
  length Signature.supportedLanguages = 14.
Proof. reflexivity. Qed.

Example parseResponse_fenced_json :
  Extractor.parseResponse JSON_parse
    (ExtractorSpec.fenced "json"
       (ExtractorSpec.quoted "[{'text': 'use tabs', 'rationale': 'convention'}]"))
  = Ok [ {| Extractor.text := "use tabs"; Extractor.rationale := "convention" |} ].
Proof. vm_compute. reflexivity. Qed.

Example parseResponse_fenced_bare :
  Extractor.parseResponse JSON_parse
    (ExtractorSpec.fenced ""
       (ExtractorSpec.quoted "[{'text': 'use tabs', 'rationale': 'convention'}]"))
  = Ok [ {| Extractor.text := "use tabs"; Extractor.rationale := "convention" |} ].
Proof. vm_compute. reflexivity. Qed.

Example parseResponse_not_json :
  Extractor.parseResponse JSON_parse "this is not json" = Ok [].
Proof. vm_compute. reflexivity. Qed.

Example parseResponse_not_an_array :
  Extractor.parseResponse JSON_parse (ExtractorSpec.quoted "{'text': 'hello'}")
  = Ok [].
Proof. vm_compute. reflexivity. Qed.

Example parseResponse_trims :
  Extractor.parseResponse JSON_parse
    (ExtractorSpec.quoted
       "[{'text': '  spaced out  ', 'rationale': '  also spaced  '}]")
  = Ok [ {| Extractor.text := "spaced out";
            Extractor.rationale := "also spaced" |} ].
Proof. vm_compute. reflexivity. Qed.

Example parseResponse_surrounding_text :
  Extractor.parseResponse JSON_parse
    ("Here are the memories I extracted:" +:+ LF
     +:+ ExtractorSpec.quoted "[{'text': 'found it', 'rationale': 'buried in text'}]"
     +:+ LF +:+ "Hope that helps!")
  = Ok [ {| Extractor.text := "found it";
            Extractor.rationale := "buried in text" |} ].
Proof. vm_compute. reflexivity. Qed.

Example store_ids_and_count :
  let now := "2026-01-01T00:00:00.000Z" in
  let r1 := Store.add "events soft-delete" StoreSpec.e1 "session-1" now
              StoreSpec.store0 in
  let r2 := Store.add "auth tokens expire" StoreSpec.e2 "session-1" now r1.2 in
  r1.1 = Ok 1%Z ∧ r2.1 = Ok 2%Z
  ∧ (Store.count StoreSpec.store0).1 = Ok 0%Z
  ∧ (Store.count r1.2).1 = Ok 1%Z
  ∧ (Store.count r2.2).1 = Ok 2%Z
  ∧ length (StoreSpec.listed r2.2) = 2.
Proof. repeat split; vm_compute; reflexivity. Qed.

Example store_delete :
  let deleted := (Store.delete 1 StoreSpec.store1).2 in
  (Store.count StoreSpec.store1).1 = Ok 1%Z
  ∧ (Store.count deleted).1 = Ok 0%Z
  ∧ StoreSpec.found StoreSpec.e1 0 10 deleted = [].
Proof. repeat split; vm_compute; reflexivity. Qed.

Example store_empty_search :
  StoreSpec.found StoreSpec.e1 0 10 StoreSpec.store0 = [].
Proof. vm_compute. reflexivity. Qed.
End RepositoryTests.

(** ** The store: invariants and the lifecycle of a memory *)

Section StoreInvariantFacts.
Import JS Vector StoreSpec StoreInvariants.

Lemma next_rowid_above (this : Store.MemoryStore) :
  sequence_ok this →
  (Store.sqlite_sequence (Store.db this) < next_rowid (Store.db this))%Z
  ∧ ∀ k, is_Some (Store.memories (Store.db this) !! k) →
         (k < next_rowid (Store.db this))%Z.
Proof.
  intros Hok. unfold next_rowid. split; [lia |].
  intros k Hk. specialize (Hok k Hk). lia.
Qed.

Lemma consistent_next_free (this : Store.MemoryStore) :
  consistent this →
  Store.memories (Store.db this) !! next_rowid (Store.db this) = None
  ∧ Store.memories_vec (Store.db this) !! next_rowid (Store.db this) = None.
Proof.
  intros (Hdom & _ & Hok).
  assert (Hm : Store.memories (Store.db this) !! next_rowid (Store.db this) = None).
  { apply eq_None_not_Some. intros Hk.
    apply (next_rowid_above this Hok) in Hk. lia. }
  split; [done |]. apply eq_None_not_Some. intros Hk. apply Hdom in Hk.
  rewrite Hm in Hk. by destruct Hk.
Qed.

Lemma max_rowid_bounds (m : gmap Z Store.MemoryRow) (b : Z) :
  (0 <= b)%Z →
  (∀ k, is_Some (m !! k) → (k <= b)%Z) →
  (0 <= Store.max_rowid m <= b)%Z.
Proof.
  intros Hb. unfold Store.max_rowid.
  apply (map_fold_weak_ind
           (λ r m, (∀ k, is_Some (m !! k) → (k <= b)%Z) → (0 <= r <= b)%Z)).
  - intros _. lia.
  - intros k row m' r Hnone IH Hkeys.
    assert (Hk : (k <= b)%Z)
      by (apply Hkeys; rewrite lookup_insert_eq; by eexists).
    assert (Hr : (0 <= r <= b)%Z).
    { apply IH. intros k' Hk'. apply Hkeys.
      rewrite lookup_insert_is_Some. destruct (decide (k = k')); eauto. }
    lia.
Qed.

(** With the row ids bounded by the counter, the next row id is one more
    than the counter, and 1 when the counter is negative. *)
Lemma next_rowid_eq (this : Store.MemoryStore) :
  sequence_ok this →
  next_rowid (Store.db this)
  = (Z.max (Store.sqlite_sequence (Store.db this)) 0 + 1)%Z.
Proof.
  intros Hok. unfold next_rowid.
  pose proof (max_rowid_bounds (Store.memories (Store.db this))
                (Z.max (Store.sqlite_sequence (Store.db this)) 0)) as H.
  destruct H as [H0 H1]; [lia | | lia].
  intros k Hk. specialize (Hok k Hk). lia.
Qed.

Lemma add_ok (text : string) (embedding : list R) (sessionId now : string)
    (this : Store.MemoryStore) :
  addable embedding this →
  Store.add text embedding sessionId now this
  = (Ok (next_rowid (Store.db this)), added text embedding sessionId now this).
Proof.
  intros (Hdim & Hcol & Hid & Hfree).
  destruct this as [d dims]. unfold Store.add, added. simpl in *.
  rewrite (proj2 (Z.eqb_eq _ _) Hdim). simpl.
  unfold Store.transaction, Store.insert_memory, Store.insert_vec. simpl.
  fold (next_rowid d). rewrite Hid. simpl.
  rewrite Hcol, <- Hdim, Z.eqb_refl. simpl. by rewrite Hfree.
Qed.

Lemma add_inv (text : string) (embedding : list R) (sessionId now : string)
    (this this' : Store.MemoryStore) (id : Z) :
  Store.add text embedding sessionId now this = (Ok id, this') →
  addable embedding this
  ∧ id = next_rowid (Store.db this)
  ∧ this' = added text embedding sessionId now this.
Proof.
  destruct this as [d dims]. unfold Store.add, added, addable. simpl.
  destruct (Z.eqb_spec (Z.of_nat (length embedding)) dims) as [Hdim | Hdim];
    simpl; [|done].
  unfold Store.transaction, Store.insert_memory, Store.insert_vec. simpl.
  fold (next_rowid d).
  destruct (Store.is_int64 (next_rowid d)) eqn:Hid; simpl; [|done].
  destruct (Store.vec_dimensions d) as [n|] eqn:Hcol; simpl; [|done].
  destruct (Z.eqb_spec n (Z.of_nat (length embedding))) as [Hn | Hn];
    simpl; [|done].
  destruct (Store.memories_vec d !! next_rowid d) eqn:Hfree; simpl; [done |].
  intros [= <- <-]. split_and!; try done. congruence.
Qed.

Lemma add_throws (text : string) (embedding : list R) (sessionId now : string)
    (this this' : Store.MemoryStore) (e : exn) :
  Store.add text embedding sessionId now this = (Throw e, this') →
  this' = this.
Proof.
  destruct (add_cases text embedding sessionId now this) as [[e' ->] | ->];
    [by intros [= _ <-] | done].
Qed.

Lemma consistent_addable (embedding : list R) (this : Store.MemoryStore) :
  consistent this →
  index_matches this →
  Z.of_nat (length embedding) = Store.dimensions this →
  (Store.sqlite_sequence (Store.db this) < 2 ^ 63 - 1)%Z →
  addable embedding this.
Proof.
  intros Hc Hcol Hdim Hroom.
  destruct (consistent_next_free this Hc) as [_ Hfree].
  destruct Hc as (_ & _ & Hok).
  split_and!; try done.
  rewrite (next_rowid_eq this Hok). unfold Store.is_int64.
  apply andb_true_iff. split; [apply Z.leb_le | apply Z.ltb_lt]; lia.
Qed.

Lemma add_consistent_ok (text : string) (embedding : list R)
    (sessionId now : string) (this : Store.MemoryStore) :
  consistent this →
  index_matches this →
  Z.of_nat (length embedding) = Store.dimensions this →
  (Store.sqlite_sequence (Store.db this) < 2 ^ 63 - 1)%Z →
  Store.add text embedding sessionId now this
  = (Ok (next_rowid (Store.db this)), added text embedding sessionId now this).
Proof. intros Hc Hcol Hdim Hroom. by apply add_ok, consistent_addable. Qed.

Lemma added_consistent (text : string) (embedding : list R)
    (sessionId now : string) (this : Store.MemoryStore) :
  consistent this →
  Z.of_nat (length embedding) = Store.dimensions this →
  consistent (added text embedding sessionId now this).
Proof.
  intros (Hdom & Hdim & Hok) Hlen. unfold consistent, added. simpl.
  split_and!.
  - intros k. rewrite !lookup_insert_is_Some. by rewrite Hdom.
  - intros k e. destruct (decide (k = next_rowid (Store.db this))) as [-> | Hne].
    + rewrite lookup_insert_eq. by intros [= <-].
    + rewrite lookup_insert_ne by done. apply Hdim.
  - intros k. unfold sequence_ok. simpl. rewrite lookup_insert_is_Some.
    intros [-> | [_ Hk]]; [lia |].
    pose proof (proj2 (next_rowid_above this Hok) k Hk). lia.
Qed.

Lemma added_index_matches (text : string) (embedding : list R)
    (sessionId now : string) (this : Store.MemoryStore) :
  index_matches this → index_matches (added text embedding sessionId now this).
Proof. done. Qed.

Lemma step_consistent (op : operation) (this : Store.MemoryStore) :
  consistent this → consistent (step op this).
Proof.
  intros Hc. destruct op as [text e s now | e t k | id | |]; simpl.
  - destruct (Store.add text e s now this) as [[id|err] this'] eqn:Hadd.
    + apply add_inv in Hadd as ((Hdim & _) & _ & ->). simpl.
      by apply added_consistent.
    + apply add_throws in Hadd as ->. done.
  - by rewrite search_store.
  - destruct (delete_cases id this) as [-> | ->]; [done |].
    destruct Hc as (Hdom & Hdim & Hok). unfold consistent. simpl.
    split_and!.
    + intros k. rewrite !lookup_delete_is_Some. by rewrite Hdom.
    + intros k e. destruct (decide (k = id)) as [-> | Hne].
      * by rewrite lookup_delete_eq.
      * rewrite lookup_delete_ne by done. apply Hdim.
    + unfold sequence_ok. simpl. intros k [row Hk]. apply Hok.
      destruct (decide (k = id)) as [-> | Hne].
      * by rewrite lookup_delete_eq in Hk.
      * rewrite lookup_delete_ne in Hk by done. eauto.
  - done.
  - done.
Qed.

Lemma new_consistent (dims : option Z) :
  consistent (Store.constructor dims Store.empty_database).
Proof.
  unfold consistent, sequence_ok. simpl. split_and!.
  - intros k. by rewrite !lookup_empty.
  - intros k e. by rewrite lookup_empty.
  - intros k. rewrite lookup_empty. by intros [? ?].
Qed.

Lemma new_index_matches (dims : option Z) :
  index_matches (Store.constructor dims Store.empty_database).
Proof. done. Qed.







(** X3. In a consistent store whose index was created with the
    dimension of the store, [add] with an embedding of that dimension
    succeeds as long as the next row id is below 2^53, an
    integer that a number of JS holds exactly (the [AUTOINCREMENT]
    counter is below 2^53 - 1): the id it returns is above the counter
    and above every id in use, [count()] grows by one, [list()] shows
    the new memory and the memories it showed before, and the store
    stays consistent. In a store opened on a file whose index has
    another dimension, [add] with an embedding of the dimension of the
    store throws and leaves the store as it was. *)
Theorem add_succeeds (text : string) (embedding : list R)
    (sessionId now : string) (this : Store.MemoryStore) :
  Z.of_nat (length embedding) = Store.dimensions this →
  (consistent this →
   index_matches this →
   (Store.sqlite_sequence (Store.db this) < 2 ^ 53 - 1)%Z →
   ∃ id this',
     Store.add text embedding sessionId now this = (Ok id, this')
     ∧ (Store.sqlite_sequence (Store.db this) < id)%Z
     ∧ (∀ m, m ∈ listed this → (Store.id m < id)%Z)
     ∧ (Store.count this').1
       = Ok (Z.of_nat (size (Store.memories (Store.db this))) + 1)%Z
     ∧ (∀ m, m ∈ listed this' ↔
             m = {| Store.id := id; Store.text := text;
                    Store.createdAt := now; Store.sessionId := sessionId |}
             ∨ m ∈ listed this)
     ∧ consistent this'
     ∧ index_matches this')
  ∧ (¬ index_matches this →
     ∃ e, Store.add text embedding sessionId now this = (Throw e, this)).
Proof.
  intros Hdim. split.
  2: { intros Hcol.
       destruct (Store.add text embedding sessionId now this)
         as [[id|err] this'] eqn:Hadd.
       - by apply add_inv in Hadd as ((_ & Hcol' & _) & _).
       - apply add_throws in Hadd as ->. by exists err. }
  intros Hc Hcol Hroom.
  exists (next_rowid (Store.db this)), (added text embedding sessionId now this).
  destruct (consistent_next_free this Hc) as [Hm Hv].
  pose proof Hc as (Hdom & Hdims & Hok).
  destruct (next_rowid_above this Hok) as [Hseq Hkeys].
  split_and!.
  - apply add_consistent_ok; [done.. | lia].
  - done.
  - intros m (row & Hrow & _)%listed_elem. apply Hkeys. by eexists.
  - unfold added. simpl. rewrite map_size_insert_None by done.
    f_equal. lia.
  - intros m. rewrite !listed_elem. unfold added. simpl. split.
    + intros (row & Hrow & Ht & Hcr & Hs).
      destruct (decide (Store.id m = next_rowid (Store.db this))) as [Heq | Hne].
      * rewrite Heq, lookup_insert_eq in Hrow. injection Hrow as <-.
        left. destruct m; simpl in *. by subst.
      * rewrite lookup_insert_ne in Hrow by done. right. by exists row.
    + intros [-> | (row & Hrow & Hfields)]; simpl.
      * rewrite lookup_insert_eq. by eexists.
      * exists row. split; [| done]. rewrite lookup_insert_ne; [done |].
        intros Heq. rewrite <- Heq in Hrow. congruence.
  - by apply added_consistent.
  - done.
Qed.

Lemma add_succeeds_witness :
  ∃ id this',
    Store.add "auth tokens expire" e2 "s1" "2026-01-02T00:00:00.000Z" store1
    = (Ok id, this')
    ∧ (Store.sqlite_sequence (Store.db store1) < id)%Z.
Proof.
  assert (Hc : consistent store1).
  { apply (step_consistent (Add "to be deleted" e1 "s1" "2026-01-01T00:00:00.000Z")),
      new_consistent. }
  assert (Hroom : (Store.sqlite_sequence (Store.db store1) < 2 ^ 53 - 1)%Z)
    by reflexivity.
  destruct (add_succeeds "auth tokens expire" e2 "s1" "2026-01-02T00:00:00.000Z"
              store1 eq_refl) as [Hok _].
  destruct (Hok Hc eq_refl Hroom) as (id & this' & Hadd & Hseq & _).
  by exists id, this'.
Defined.




End StoreInvariantFacts.

(** ** The store: what a search returns *)

Section SearchRanking.
Import JS Vector StoreSpec StoreInvariants.

Lemma insert_nearest_perm (x : Z * R) (l : list (Z * R)) :
  Store.insert_nearest x l ≡ₚ x :: l.
Proof.
  induction l as [|y l IH]; simpl; [done |].
  destruct (Rle_dec x.2 y.2); [done |]. rewrite IH. apply Permutation_swap.
Qed.

Lemma sort_nearest_perm (l : list (Z * R)) :
  foldr Store.insert_nearest [] l ≡ₚ l.
Proof.
  induction l as [|x l IH]; simpl; [done |].
  by rewrite insert_nearest_perm, IH.
Qed.

(** The whole index, nearest first. *)
Lemma ranked_spec (distance : Store.Distance) (vec : gmap Z (list R))
    (query : list R) :
  let ranked :=
    foldr Store.insert_nearest []
      ((λ re : Z * list R, (re.1, Store.reported distance re.2 query))
         <$> map_to_list vec) in
  StronglySorted nearer ranked
  ∧ NoDup ranked.*1
  ∧ length ranked = size vec
  ∧ ∀ k d, (k, d) ∈ ranked ↔
           ∃ e, vec !! k = Some e ∧ d = Store.reported distance e query.
Proof.
  intros ranked. split_and!.
  - apply sort_nearest_sorted.
  - unfold ranked. rewrite sort_nearest_perm, <- list_fmap_compose.
    apply NoDup_fst_map_to_list.
  - unfold ranked. rewrite sort_nearest_perm, length_fmap.
    apply length_map_to_list.
  - intros k d. unfold ranked. rewrite sort_nearest_elem, list_elem_of_fmap. split.
    + intros ([k' e] & [= -> ->] & H%elem_of_map_to_list). by exists e.
    + intros (e & He & ->). exists (k, e). by rewrite elem_of_map_to_list.
Qed.

Lemma omap_all_length {A B} (f : A → option B) (l : list A) :
  (∀ x, x ∈ l → is_Some (f x)) → length (omap f l) = length l.
Proof.
  induction l as [|x l IH]; intros H; csimpl; [done |].
  destruct (H x) as [y Hy]; [by left |]. rewrite Hy. csimpl.
  rewrite IH; [done |]. intros z Hz. apply H. by right.
Qed.

Lemma passing_all_length (t : R) (rows : list Store.SearchRow) :
  (∀ row, row ∈ rows → (t <= Store.l2ToCosine (Store.distance row))%R) →
  length (passing t rows) = length rows.
Proof.
  induction rows as [|row rows IH]; intros H; [done |].
  rewrite passing_cons_keep.
  - simpl. rewrite IH; [done |]. intros r Hr. apply H. by right.
  - specialize (H row (list_elem_of_here _ _)). lra.
Qed.

Lemma fetch_at_least_limit (limit : Z) :
  (stop_after limit <= Z.to_nat (Z.max (limit * 2) 20))%nat.
Proof. unfold stop_after. lia. Qed.

Lemma found_top (this : Store.MemoryStore) (query : list R) (t : R) (limit : Z)
    (k : Z) (e : list R) :
  consistent this →
  index_matches this →
  Z.of_nat (length query) = Store.dimensions this →
  (limit <= 2048)%Z →
  Store.memories_vec (Store.db this) !! k = Some e →
  (t <= similarity_to this query e)%R →
  (∃ m, m ∈ found query t limit this ∧ Store.id (Store.memory m) = k)
  ∨ (length (found query t limit this) = stop_after limit
     ∧ ∀ m, m ∈ found query t limit this →
            (similarity_to this query e <= Store.similarity m)%R).
Proof.
  intros (Hdom & _ & _) Hcol Hdim Hlimit He Ht. unfold similarity_to in *.
  rewrite found_take, decide_True by done.
  set (n := stop_after limit).
  unfold rows_of, Store.select_nearest, Store.knn.
  set (F := Z.to_nat (Z.max (limit * 2) 20)).
  assert (HnF : (n <= F)%nat) by apply fetch_at_least_limit.
  destruct (ranked_spec (Store.vec_distance (Store.db this))
              (Store.memories_vec (Store.db this)) query)
    as (Hsorted & _ & _ & Hranked).
  set (ranked := foldr Store.insert_nearest [] _) in *.
  set (join := λ rd : Z * R, _).
  assert (Hjoin : ∀ rd, rd ∈ ranked → is_Some (join rd)).
  { intros [r d] (e' & He' & _)%Hranked. unfold join. simpl.
    destruct (proj2 (Hdom r) (mk_is_Some _ _ He')) as [row ->]. by eexists. }
  set (rows := omap join (take F ranked)).
  assert (Hrows_sorted : by_similarity_desc (passing t rows)).
  { apply passing_sorted.
    - apply (select_nearest_sorted query (Z.max (limit * 2) 20) (Store.db this)).
    - apply (select_nearest_distance query (Z.max (limit * 2) 20) (Store.db this)). }
  assert (Hin : (k, Store.reported (Store.vec_distance (Store.db this)) e query) ∈ ranked) by (apply Hranked; eauto).
  rewrite <- (take_drop F ranked) in Hin, Hsorted.
  apply elem_of_app in Hin as [Hin | Hin].
  - (* the memory is among the rows fetched *)
    destruct (Hjoin (k, Store.reported (Store.vec_distance (Store.db this)) e query)) as [row Hrow];
      [by eapply elem_of_take_1 |].
    assert (Hm : match_of row ∈ passing t rows).
    { apply passing_elem. exists row. split_and!; [| done |].
      - apply list_elem_of_omap. eauto.
      - unfold join in Hrow. simpl in Hrow.
        destruct (Store.memories (Store.db this) !! k); [|done].
        injection Hrow as <-. done. }
    assert (Hid : Store.id (Store.memory (match_of row)) = k
                  ∧ Store.similarity (match_of row)
                    = Store.l2ToCosine (Store.reported (Store.vec_distance (Store.db this)) e query)).
    { unfold join in Hrow. simpl in Hrow.
      destruct (Store.memories (Store.db this) !! k); [|done].
      by injection Hrow as <-. }
    rewrite <- (take_drop n (passing t rows)) in Hm, Hrows_sorted.
    apply elem_of_app in Hm as [Hm | Hm].
    + left. exists (match_of row). tauto.
    + right. split.
      * apply length_take_le.
        assert (length (drop n (passing t rows)) ≠ 0%nat)
          by (by destruct (drop n (passing t rows)); [apply elem_of_nil in Hm |]).
        rewrite length_drop in *. lia.
      * intros m Hm'. rewrite <- (proj2 Hid).
        by apply (StronglySorted_app_1_elem_of _ _ _ _ _ Hrows_sorted).
  - (* the memory is farther than every row fetched *)
    right.
    assert (Hlen : length (take F ranked) = F).
    { apply length_take_le.
      assert (length (drop F ranked) ≠ 0%nat)
        by (by destruct (drop F ranked); [apply elem_of_nil in Hin |]).
      rewrite length_drop in *. lia. }
    assert (Hnear : ∀ row, row ∈ rows →
              (Store.l2ToCosine (Store.reported (Store.vec_distance (Store.db this)) e query)
               <= Store.l2ToCosine (Store.distance row))%R).
    { intros row ([r d] & Hrd & Hrow)%list_elem_of_omap.
      pose proof (StronglySorted_app_1_elem_of _ _ _ _ _ Hsorted Hrd Hin) as Hle.
      unfold nearer in Hle. simpl in Hle.
      apply elem_of_take_1, Hranked in Hrd as (e' & _ & ->).
      unfold join in Hrow. simpl in Hrow.
      destruct (Store.memories (Store.db this) !! r); [|done].
      injection Hrow as <-. simpl.
      apply l2ToCosine_antitone; [apply Store.reported_nonneg | done]. }
    assert (Hall : length (passing t rows) = F).
    { rewrite passing_all_length.
      - unfold rows. rewrite omap_all_length; [done |].
        intros rd Hrd. by eapply Hjoin, elem_of_take_1.
      - intros row Hrow. specialize (Hnear row Hrow). lra. }
    split.
    + apply length_take_le. lia.
    + intros m Hm%elem_of_take_1.
      apply passing_elem in Hm as (row & Hrow & -> & _). simpl. by apply Hnear.
Qed.

Lemma l2ToCosine_le_1 (d : R) : (Store.l2ToCosine d <= 1)%R.
Proof. unfold Store.l2ToCosine. nra. Qed.

Lemma found_similarity (this : Store.MemoryStore) (query : list R) (t : R)
    (limit : Z) (m : Store.MemoryMatch) (e : list R) :
  m ∈ found query t limit this →
  Store.memories_vec (Store.db this) !! Store.id (Store.memory m) = Some e →
  Store.similarity m = similarity_to this query e.
Proof.
  intros (e' & _ & He' & _ & _ & Hsim & _)%found_row He.
  rewrite He in He'. by injection He' as <-.
Qed.

Lemma found_none_iff (this : Store.MemoryStore) (query : list R) (t : R)
    (limit : Z) :
  consistent this →
  index_matches this →
  Z.of_nat (length query) = Store.dimensions this →
  (limit <= 2048)%Z →
  found query t limit this = [] ↔
  ∀ k e, Store.memories_vec (Store.db this) !! k = Some e →
         (similarity_to this query e < t)%R.
Proof.
  intros Hc Hcol Hdim Hlimit. split.
  - intros Hnil k e He. apply Rnot_le_lt. intros Ht.
    destruct (found_top this query t limit k e Hc Hcol Hdim Hlimit He Ht)
      as [(m & Hm & _) | [Hlen _]].
    + rewrite Hnil in Hm. by apply elem_of_nil in Hm.
    + rewrite Hnil in Hlen. unfold stop_after in Hlen. simpl in Hlen. lia.
  - intros Hall. destruct (found query t limit this) as [|m l] eqn:Hf; [done |].
    assert (Hm : m ∈ found query t limit this) by (rewrite Hf; by left).
    apply found_row in Hm as (e & _ & He & _ & _ & Hsim & Hge).
    specialize (Hall _ _ He). unfold similarity_to in Hall. lra.
Qed.

Lemma index_searchable (this : Store.MemoryStore) (query : list R)
    (limit : Z) :
  index_matches this →
  Z.of_nat (length query) = Store.dimensions this →
  (limit <= 2048)%Z →
  searchable query limit this.
Proof. intros Hcol Hdim Hlimit. by split_and!. Qed.

(** X6. In a consistent store whose index was created with the
    dimension of the store, [search] with a limit of at most 2048
    returns the best matches: a memory of the index whose similarity to
    the query, computed from the distance that the index reports,
    reaches the threshold is in the result, unless the result is full
    (it has as many matches as the loop collects, the limit, or one for
    a limit below one) and each of its matches is at least as similar.
    Fetching [max(2·limit, 20)] rows before the threshold filter loses
    no match. With a limit above 2048 the number of rows asked of the
    index is above the 4096 that it accepts, and [search] throws. *)
Theorem search_returns_best (this : Store.MemoryStore) (query : list R)
    (t : R) (limit : Z) (k : Z) (e : list R) :
  consistent this →
  index_matches this →
  Z.of_nat (length query) = Store.dimensions this →
  Store.memories_vec (Store.db this) !! k = Some e →
  (t <= similarity_to this query e)%R →
  ((limit <= 2048)%Z →
   ∃ results,
     Store.search query t limit this = (Ok results, this)
     ∧ ((∃ m, m ∈ results ∧ Store.id (Store.memory m) = k
              ∧ Store.similarity m = similarity_to this query e)
        ∨ (length results = Z.to_nat (Z.max limit 1)
           ∧ ∀ m, m ∈ results →
                  (similarity_to this query e <= Store.similarity m)%R)))
  ∧ ((2048 < limit)%Z →
     ∃ err, Store.search query t limit this = (Throw err, this)).
Proof.
  intros Hc Hcol Hdim He Ht. split.
  - intros Hlimit.
    assert (Hs : searchable query limit this)
      by (by apply index_searchable).
    eexists. split; [by apply found_eq |].
    pose proof (found_top this query t limit k e Hc Hcol Hdim Hlimit He Ht)
      as Htop.
    pose proof (found_similarity this query t limit) as Hsim.
    rewrite found_take, decide_True in Htop, Hsim by done.
    destruct Htop as [(m & Hm & Hid) | Hfull]; [left | by right].
    exists m. split_and!; [done.. |]. apply Hsim; [done |]. by rewrite Hid.
  - intros Hlimit.
    destruct (search_refused query limit this) as [err Herr].
    + intros (_ & _ & Hle). lia.
    + by exists err.
Qed.

Lemma store1_consistent : consistent store1.
Proof.
  apply (step_consistent (Add "to be deleted" e1 "s1" "2026-01-01T00:00:00.000Z")),
    new_consistent.
Qed.

Lemma store1_vec : Store.memories_vec (Store.db store1) !! 1%Z = Some e1.
Proof. vm_compute. reflexivity. Qed.

Lemma similarity_self (this : Store.MemoryStore) (a : list R) :
  similarity_to this a a = 1%R.
Proof.
  unfold similarity_to. rewrite Store.reported_self.
  unfold Store.l2ToCosine. lra.
Qed.

Lemma search_returns_best_witness :
  ∃ results, Store.search e1 (/ 2) 5 store1 = (Ok results, store1).
Proof.
  assert (Ht : (/ 2 <= similarity_to store1 e1 e1)%R)
    by (rewrite similarity_self; lra).
  assert (Hlimit : (5 <= 2048)%Z) by lia.
  destruct (search_returns_best store1 e1 (/ 2) 5 1 e1 store1_consistent
              eq_refl eq_refl store1_vec Ht) as [Hok _].
  destruct (Hok Hlimit) as (results & Hs & _).
  by exists results.
Defined.

(** X7. In a consistent store whose index was created with the
    dimension of the store and holds an embedding, a [search] with that
    very embedding as query, a threshold of at most 1 and a limit of at
    most 2048 (beyond which the index refuses the number of rows asked)
    is not empty, and its first match has similarity 1. *)
Theorem search_exact_match_first (this : Store.MemoryStore) (v : list R)
    (t : R) (limit : Z) (k : Z) :
  consistent this →
  index_matches this →
  Store.memories_vec (Store.db this) !! k = Some v →
  (t <= 1)%R →
  (limit <= 2048)%Z →
  ∃ m rest,
    Store.search v t limit this = (Ok (m :: rest), this)
    ∧ Store.similarity m = 1%R.
Proof.
  intros Hc Hcol Hv Ht Hlimit.
  assert (Hdim : Z.of_nat (length v) = Store.dimensions this)
    by (by apply (proj1 (proj2 Hc) k)).
  assert (Hs : searchable v limit this) by (by apply index_searchable).
  assert (Ht' : (t <= similarity_to this v v)%R)
    by (rewrite similarity_self; lra).
  pose proof (found_top this v t limit k v Hc Hcol Hdim Hlimit Hv Ht') as Htop.
  pose proof (found_sorted v t limit this) as Hsorted.
  pose proof (found_similarity this v t limit) as Hsim.
  assert (Hle : ∀ m, m ∈ found v t limit this → (Store.similarity m <= 1)%R).
  { intros m (e & _ & _ & _ & _ & -> & _)%found_row. apply l2ToCosine_le_1. }
  rewrite similarity_self in Htop.
  unfold found in *. rewrite found_eq in * by done. cbn [fst] in *.
  set (results := take _ _) in *.
  destruct results as [|m rest] eqn:Hres.
  - exfalso. destruct Htop as [(m & Hm & _) | [Hlen _]].
    + by apply elem_of_nil in Hm.
    + unfold stop_after in Hlen. simpl in Hlen. lia.
  - exists m, rest. split; [done |].
    apply Rle_antisym; [apply Hle; by left |].
    destruct Htop as [(m' & Hm' & Hid) | [_ Hall]]; [| apply Hall; by left].
    assert (Store.similarity m' = 1%R) as <-.
    { rewrite (Hsim m' v Hm') by (by rewrite Hid). apply similarity_self. }
    apply elem_of_cons in Hm' as [-> | Hm']; [lra |].
    apply StronglySorted_cons in Hsorted as [Hhead _].
    rewrite Forall_forall in Hhead. by apply Hhead.
Qed.

Lemma search_exact_match_first_witness :
  ∃ m rest,
    Store.search e1 0 0 store1 = (Ok (m :: rest), store1)
    ∧ Store.similarity m = 1%R.
Proof.
  assert (Ht : (0 <= 1)%R) by lra.
  assert (Hlimit : (0 <= 2048)%Z) by lia.
  exact (search_exact_match_first store1 e1 0 0 1 store1_consistent eq_refl
           store1_vec Ht Hlimit).
Defined.

Lemma omap_fst_sublist (d : Store.Database) (l : list (Z * R)) :
  Store.rowid <$>
    omap (λ rd : Z * R,
            m ← Store.memories d !! rd.1;
            Some {| Store.rowid := rd.1; Store.distance := rd.2;
                    Store.s_text := Store.row_text m;
                    Store.s_created_at := Store.created_at m;
                    Store.s_session_id := Store.session_id m |}) l
  `sublist_of` l.*1.
Proof.
  induction l as [|[r dist] l IH]; csimpl; [done |].
  destruct (Store.memories d !! r); csimpl.
  - by apply sublist_skip.
  - by apply sublist_cons.
Qed.

Lemma passing_ids (t : R) (rows : list Store.SearchRow) :
  ids (passing t rows) `sublist_of` Store.rowid <$> rows.
Proof.
  unfold ids, passing. rewrite <- list_fmap_compose.
  change ((λ m, Store.id (Store.memory m)) ∘ match_of) with Store.rowid.
  apply fmap_sublist, sublist_filter.
Qed.

(** X8. No [search] returns a memory twice, and none returns more
    matches than the index has rows: the ids of the matches are pairwise
    distinct, on every store. *)
Theorem search_ids_distinct (this : Store.MemoryStore) (query : list R)
    (t : R) (limit : Z) :
  NoDup (ids (found query t limit this))
  ∧ (length (found query t limit this)
     <= size (Store.memories_vec (Store.db this)))%nat.
Proof.
  rewrite found_take. destruct (decide _); [| split; [constructor | simpl; lia]].
  destruct (ranked_spec (Store.vec_distance (Store.db this))
              (Store.memories_vec (Store.db this)) query)
    as (_ & Hnodup & Hlen & _).
  set (ranked := foldr Store.insert_nearest [] _) in *.
  assert (Hsub : ids (take (stop_after limit)
                        (passing t (rows_of query limit this)))
                 `sublist_of` ranked.*1).
  { unfold ids. rewrite fmap_take. etrans; [apply sublist_take |].
    etrans; [apply passing_ids |].
    unfold rows_of, Store.select_nearest, Store.knn.
    etrans; [apply omap_fst_sublist |]. rewrite fmap_take. apply sublist_take. }
  split.
  - by eapply sublist_NoDup.
  - apply sublist_length in Hsub. unfold ids in Hsub.
    rewrite !length_fmap in Hsub. lia.
Qed.
End SearchRanking.

(** ** The store: the list of the memories *)

Section ListFacts.
Import JS StoreSpec StoreInvariants StoreListSpec.

Lemma string_leb_trans (a b c : string) :
  String.leb a b = true → String.leb b c = true → String.leb a c = true.
Proof.
  unfold String.leb. revert b c.
  induction a as [|x a IH]; intros [|y b] [|z c]; simpl; try done.
  unfold Ascii.compare.
  destruct (N.compare_spec (N_of_ascii x) (N_of_ascii y)) as [Hxy | Hxy | Hxy];
    destruct (N.compare_spec (N_of_ascii y) (N_of_ascii z)) as [Hyz | Hyz | Hyz];
    try done.
  - rewrite Hxy, Hyz, N.compare_refl. apply IH.
  - intros _ _. rewrite Hxy. by apply N.compare_lt_iff in Hyz as ->.
  - intros _ _. rewrite <- Hyz. by apply N.compare_lt_iff in Hxy as ->.
  - intros _ _.
    assert (H : (N_of_ascii x < N_of_ascii z)%N) by lia.
    by apply N.compare_lt_iff in H as ->.
Qed.

Lemma insert_newest_perm (x : Z * Store.MemoryRow) (l : list (Z * Store.MemoryRow)) :
  Store.insert_newest x l ≡ₚ x :: l.
Proof.
  induction l as [|y l IH]; simpl; [done |].
  destruct (String.leb _ _); [done |]. rewrite IH. apply Permutation_swap.
Qed.

Lemma select_all_perm (d : Store.Database) :
  Store.select_all d ≡ₚ map_to_list (Store.memories d).
Proof.
  unfold Store.select_all.
  induction (map_to_list (Store.memories d)) as [|x l IH]; simpl; [done |].
  by rewrite insert_newest_perm, IH.
Qed.

Lemma insert_newest_sorted (x : Z * Store.MemoryRow)
    (l : list (Z * Store.MemoryRow)) :
  StronglySorted
    (λ a b, String.leb (Store.created_at b.2) (Store.created_at a.2) = true) l →
  StronglySorted
    (λ a b, String.leb (Store.created_at b.2) (Store.created_at a.2) = true)
    (Store.insert_newest x l).
Proof.
  induction 1 as [|y l Hl IH Hy]; simpl.
  - repeat constructor.
  - destruct (String.leb (Store.created_at y.2) (Store.created_at x.2)) eqn:Hyx.
    + constructor; [by constructor |].
      constructor; [done |].
      eapply Forall_impl; [exact Hy |]. simpl.
      intros z Hz. by eapply string_leb_trans.
    + constructor; [done |].
      rewrite insert_newest_perm. constructor; [|done].
      destruct (String.leb_total (Store.created_at y.2) (Store.created_at x.2));
        congruence.
Qed.

Lemma select_all_sorted (d : Store.Database) :
  StronglySorted
    (λ a b, String.leb (Store.created_at b.2) (Store.created_at a.2) = true)
    (Store.select_all d).
Proof.
  unfold Store.select_all.
  induction (map_to_list (Store.memories d)) as [|x l IH]; simpl.
  - constructor.
  - by apply insert_newest_sorted.
Qed.

(** X19. [list()] returns every memory once, newest first. A memory is
    in the list exactly when the table [memories] has a row under its
    id and its text, creation time and session id are the ones of that
    row; the list is ordered by creation time, latest first; no id is
    listed twice; and its length is the number that [count()]
    returns. The store is left as it is. *)
Theorem list_newest_first (this : Store.MemoryStore) :
  ∃ l,
    Store.list this = (Ok l, this)
    ∧ (∀ m, m ∈ l ↔
            ∃ row,
              Store.memories (Store.db this) !! Store.id m = Some row
              ∧ Store.text m = Store.row_text row
              ∧ Store.createdAt m = Store.created_at row
              ∧ Store.sessionId m = Store.session_id row)
    ∧ newest_first l
    ∧ NoDup (Store.id <$> l)
    ∧ (Store.count this).1 = Ok (Z.of_nat (length l)).
Proof.
  eexists. split; [reflexivity |]. split_and!.
  - intros m. exact (listed_elem this m).
  - unfold newest_first.
    apply (StronglySorted_fmap _
             (λ a b, String.leb (Store.created_at b.2) (Store.created_at a.2)
                     = true)).
    + by intros a b.
    + apply select_all_sorted.
  - rewrite <- list_fmap_compose.
    assert (Hp : (Store.id ∘ (λ row : Z * Store.MemoryRow,
                    {| Store.id := row.1; Store.text := Store.row_text row.2;
                       Store.createdAt := Store.created_at row.2;
                       Store.sessionId := Store.session_id row.2 |}))
                 <$> Store.select_all (Store.db this)
                 ≡ₚ (map_to_list (Store.memories (Store.db this))).*1).
    { by rewrite select_all_perm. }
    rewrite Hp. apply NoDup_fst_map_to_list.
  - simpl. rewrite length_fmap, select_all_perm, length_map_to_list. done.
Qed.
End ListFacts.

(** ** The extractor: the memories returned *)

Section ExtractedMemories.
Import JS Json Extractor ExtractorSpec.

Lemma drop_while_idem {A} (p : A → bool) (l : list A) :
  drop_while p (drop_while p l) = drop_while p l.
Proof.
  induction l as [|x l IH]; simpl; [done |].
  destruct (p x) eqn:Hx; [done |]. simpl. by rewrite Hx.
Qed.

Lemma drop_while_end_idem {A} (p : A → bool) (l : list A) :
  drop_while_end p (drop_while_end p l) = drop_while_end p l.
Proof.
  unfold drop_while_end. by rewrite rev_involutive, drop_while_idem.
Qed.

Lemma trim_chars (s : string) :
  drop_while is_white_space (chars (trim s)) = chars (trim s)
  ∧ drop_while_end is_white_space (chars (trim s)) = chars (trim s).
Proof.
  unfold trim, trimEnd_chars, trimStart_chars. rewrite chars_str.
  split; [|apply drop_while_end_idem].
  set (l1 := drop_while is_white_space (chars s)).
  destruct (drop_while_end_split is_white_space l1) as (post & Hl1 & _).
  destruct (drop_while_end is_white_space l1) as [|x r] eqn:Hl2; [done |].
  apply drop_while_stop. apply (drop_while_head _ (chars s) x (r ++ post)).
  fold l1. by rewrite Hl1.
Qed.

Lemma trim_idem (s : string) : trim (trim s) = trim s.
Proof.
  destruct (trim_chars s) as [Hstart Hend].
  unfold trim at 1, trimEnd_chars, trimStart_chars.
  by rewrite Hstart, Hend, str_chars.
Qed.

Lemma collect_trimmed (items : list json) :
  Forall
    (λ m, text m ≠ "" ∧ trim (text m) = text m
          ∧ trim (rationale m) = rationale m)
    (collect items)
  ∧ (length (collect items) <= length items)%nat.
Proof.
  rewrite collect_omap. split.
  - apply Forall_forall. intros m (item & _ & Hacc)%list_elem_of_omap.
    apply accept_valid in Hacc as (t & r & (members & _ & _ & _ & Hne) & ->).
    simpl. by rewrite !trim_idem.
  - induction items as [|item items IH]; csimpl; [done |].
    destruct (accept item); simpl; lia.
Qed.

(** X18. What [parseResponse] returns. Whatever the reply and whatever
    [JSON.parse] makes of it, every memory returned has a text that is
    not empty, and its text and its rationale are trimmed: trimming
    them again changes nothing, and neither starts or ends with white
    space. A reply that parses to an array gives at most as many
    memories as the array has elements. *)
Theorem parseResponse_memories_trimmed (JSON_parse : string → outcome json)
    (response : string) :
  ∃ memories,
    parseResponse JSON_parse response = Ok memories
    ∧ Forall
        (λ m, text m ≠ ""
              ∧ trim (text m) = text m
              ∧ trim (rationale m) = rationale m
              ∧ drop_while is_white_space (chars (text m)) = chars (text m)
              ∧ drop_while_end is_white_space (chars (text m))
                = chars (text m))
        memories
    ∧ ∀ items,
        parses_to JSON_parse response (JArray items) →
        (length memories <= length items)%nat.
Proof.
  assert (Hall : ∀ parsed,
            Forall
              (λ m, text m ≠ ""
                    ∧ trim (text m) = text m
                    ∧ trim (rationale m) = rationale m
                    ∧ drop_while is_white_space (chars (text m))
                      = chars (text m)
                    ∧ drop_while_end is_white_space (chars (text m))
                      = chars (text m))
              (memories_of parsed)).
  { intros parsed. destruct parsed as [| | | |items|]; try by apply Forall_nil.
    simpl. eapply Forall_impl; [apply collect_trimmed |]. simpl.
    intros m (Hne & Ht & Hr). split_and!; try done.
    - rewrite <- Ht. apply trim_chars.
    - rewrite <- Ht. apply trim_chars. }
  assert (Hcases :
            (∃ parsed, parses_to JSON_parse response parsed)
            ∨ parseResponse JSON_parse response = Ok []
              ∧ ∀ parsed, ¬ parses_to JSON_parse response parsed).
  { unfold parses_to.
    destruct (JSON_parse (strip_fences response)) as [parsed|e] eqn:H1.
    - left. exists parsed. by left.
    - destruct (match_array (chars (strip_fences response))) as [m|] eqn:Hm.
      + destruct (JSON_parse (str m)) as [parsed|e'] eqn:H2.
        * left. exists parsed. right. by exists e, m.
        * right. split.
          -- unfold parseResponse. rewrite H1. simpl. by rewrite Hm, H2.
          -- intros parsed [? | (? & ? & _ & [= <-] & ?)]; congruence.
      + right. split.
        * unfold parseResponse. rewrite H1. simpl. by rewrite Hm.
        * intros parsed [? | (? & ? & _ & ? & _)]; congruence. }
  destruct Hcases as [[parsed Hp] | [Hnil Hnone]].
  - exists (memories_of parsed).
    split; [by apply parseResponse_parsed |]. split; [apply Hall |].
    intros items Hitems.
    pose proof (parseResponse_parsed _ _ _ Hp) as H1.
    pose proof (parseResponse_parsed _ _ _ Hitems) as H2.
    rewrite H1 in H2. injection H2 as ->. simpl. apply collect_trimmed.
  - exists []. split; [done |]. split; [by apply Forall_nil |].
    intros items Hitems. by apply Hnone in Hitems.
Qed.
End ExtractedMemories.

(** ** The signature extractor: languages and declaration lines *)

Section LanguageDetection.
Import JS Signature SignatureSpec.

Lemma lower_char_dot (c : ascii) :
  Ascii.eqb (lower_char c) "." = Ascii.eqb c ".".
Proof. destruct c as [[] [] [] [] [] [] [] []]; reflexivity. Qed.

Lemma lower_char_idem (c : ascii) : lower_char (lower_char c) = lower_char c.
Proof. destruct c as [[] [] [] [] [] [] [] []]; reflexivity. Qed.

Lemma lastIndexOf_lower (l : list ascii) :
  lastIndexOf_chars "." (map lower_char l) = lastIndexOf_chars "." l.
Proof.
  induction l as [|c l IH]; simpl; [done |].
  by rewrite IH, lower_char_dot.
Qed.

Lemma toLowerCase_idem (s : string) :
  toLowerCase (toLowerCase s) = toLowerCase s.
Proof.
  unfold toLowerCase. rewrite chars_str, map_map. f_equal.
  apply map_ext. intros c. apply lower_char_idem.
Qed.

Lemma toLowerCase_idem_chars (l : list ascii) :
  toLowerCase (str (map lower_char l)) = toLowerCase (str l).
Proof.
  unfold toLowerCase. rewrite !chars_str, map_map. f_equal.
  apply map_ext. intros c. apply lower_char_idem.
Qed.

Lemma lastIndexOf_app (c : ascii) (pre l : list ascii) (i : nat) :
  lastIndexOf_chars c l = Some i →
  lastIndexOf_chars c (pre ++ l) = Some (length pre + i)%nat.
Proof.
  intros H. induction pre as [|x pre IH]; simpl; [done |]. by rewrite IH.
Qed.

(** X14. Language detection reads the extension only and ignores its
    case: a path and its lower-case form are of the same language, and
    so are a file name that has a dot and the same name below any
    directory. *)
Theorem detectLanguage_ignores_case (filePath : string) :
  detectLanguage (toLowerCase filePath) = detectLanguage filePath
  ∧ ∀ dir name,
      is_Some (lastIndexOf name ".") →
      detectLanguage (dir +:+ name) = detectLanguage name.
Proof.
  split.
  - assert (Hc : chars (toLowerCase filePath) = map lower_char (chars filePath))
      by apply chars_str.
    unfold detectLanguage, lastIndexOf. rewrite Hc, lastIndexOf_lower.
    destruct (lastIndexOf_chars "." (chars filePath)) as [i|]; [|done].
    f_equal. unfold substring_from. rewrite Hc, skipn_map.
    apply toLowerCase_idem_chars.
  - intros dir name [i Hi]. unfold detectLanguage, lastIndexOf in *.
    rewrite chars_app, (lastIndexOf_app _ _ _ i), Hi by done.
    f_equal. f_equal. unfold substring_from. f_equal.
    rewrite chars_app, drop_app_add'; done.
Qed.

(** X15. The languages listed as supported are the detectable ones: a
    detected language is in [supportedLanguages] and has a
    configuration with a grammar file and a query, and every supported
    language is detected for some path. *)
Theorem supportedLanguages_detected :
  (∀ filePath langKey,
     detectLanguage filePath = Some langKey →
     langKey ∈ supportedLanguages
     ∧ ∃ config, LANGUAGES !! langKey = Some config ∧ query config ≠ [])
  ∧ (∀ langKey,
       langKey ∈ supportedLanguages →
       ∃ filePath, detectLanguage filePath = Some langKey).
Proof.
  split.
  - intros filePath langKey [config Hl]%detectLanguage_configured.
    pose proof Hl as Hin. apply elem_of_list_to_map_2 in Hin.
    split.
    + unfold supportedLanguages. apply list_elem_of_fmap.
      by exists (langKey, config).
    + exists config. split; [done |].
      assert (Hall : forallb (λ kc : string * LanguageConfig,
                                negb (length (query kc.2) =? 0)%nat)
                       LANGUAGES_table = true) by reflexivity.
      rewrite forallb_forall in Hall. apply list_elem_of_In, Hall in Hin.
      simpl in Hin. by destruct (query config).
  - intros langKey Hin. unfold supportedLanguages in Hin. simpl in Hin.
    repeat (apply elem_of_cons in Hin as [-> | Hin]);
      [..| by apply elem_of_nil in Hin].
    all: first
      [ by exists "a.ts" | by exists "a.tsx" | by exists "a.js"
      | by exists "a.py" | by exists "a.rb" | by exists "a.go"
      | by exists "a.rs" | by exists "a.c" | by exists "a.cpp"
      | by exists "a.java" | by exists "a.swift" | by exists "a.dart"
      | by exists "a.php" | by exists "a.cs" ].
Qed.
End LanguageDetection.

Section DeclarationLines.
Import JS Signature SignatureSpec SignatureLinesSpec.

Lemma default_last {A} (a b x : A) (l : list A) :
  default a (last (x :: l)) = default b (last (x :: l)).
Proof.
  destruct (last (x :: l)) as [y|] eqn:H; [done |].
  by apply last_None in H.
Qed.

(** X16. The declaration node of a name. [findDeclarationAncestor] walks
    up the parents of the node to the first one of a declaration type.
    It returns that parent, unless the parent is of type [program] or
    [module]: then it returns the node just below it, which is the
    name node itself for a name directly under a [module]. When no
    parent is of a declaration type it returns the last of them, the
    root of the tree. *)
Theorem findDeclarationAncestor_spec (n : Node) (ps : list Node) :
  (∀ pre p post,
     ps = pre ++ p :: post →
     Forall plain pre →
     is_declaration_type (type p) = true →
     findDeclarationAncestor n ps
     = if is_root_type (type p) then default n (last pre) else p)
  ∧ (Forall plain ps → findDeclarationAncestor n ps = default n (last ps)).
Proof.
  split.
  - intros pre. revert n ps.
    induction pre as [|q pre IH]; intros n ps p post -> Hpre Hp; simpl.
    + rewrite Hp. unfold is_root_type. by destruct (_ || _).
    + apply Forall_cons in Hpre as [Hq Hpre]. unfold plain in Hq.
      rewrite Hq. rewrite (IH q _ p post eq_refl Hpre Hp).
      destruct (is_root_type (type p)); [|done].
      destruct pre as [|x pre]; [done |].
      rewrite (default_last q n). by rewrite (last_cons_cons q).
  - revert n. induction ps as [|q ps IH]; intros n Hps; simpl; [done |].
    apply Forall_cons in Hps as [Hq Hps]. unfold plain in Hq.
    rewrite Hq, IH by done.
    destruct ps as [|x ps]; [done |].
    rewrite (default_last q n). by rewrite (last_cons_cons q).
Qed.

Lemma first_declarations_loop (captures : list QueryCapture) :
  ∀ lines seen,
    (fold_left lines_step captures (lines, seen)).1
    = lines ++ filter (λ s, s ≠ "") (line_of <$> first_declarations seen captures).
Proof.
  induction captures as [|c captures IH]; intros lines seen;
    cbn [fold_left first_declarations].
  - by rewrite app_nil_r.
  - rewrite lines_step_eq.
    destruct (decide (id (declaration_of c) ∈ seen)); [apply IH |].
    rewrite IH, fmap_cons.
    destruct (decide (line_of c = "")) as [Hempty | Hne].
    + by rewrite filter_cons_False by (by intros ?).
    + rewrite filter_cons_True by done. by rewrite <- app_assoc.
Qed.

Lemma collect_lines_spec (captures : list QueryCapture) :
  collect_lines captures = lines_of captures.
Proof. apply (first_declarations_loop captures [] ∅). Qed.

Lemma first_declarations_sublist (captures : list QueryCapture) :
  ∀ seen, sublist (first_declarations seen captures) captures.
Proof.
  induction captures as [|c captures IH]; intros seen; simpl; [done |].
  destruct (decide _); [by apply sublist_cons | by apply sublist_skip].
Qed.

Lemma first_declarations_ids (captures : list QueryCapture) :
  ∀ seen,
    NoDup ((λ c, id (declaration_of c)) <$> first_declarations seen captures)
    ∧ ∀ c, c ∈ first_declarations seen captures → id (declaration_of c) ∉ seen.
Proof.
  induction captures as [|c captures IH]; intros seen; simpl.
  - split; [constructor | by intros ? ?%elem_of_nil].
  - destruct (decide _) as [Hin | Hin]; [apply IH |].
    destruct (IH ({[id (declaration_of c)]} ∪ seen)) as [Hnd Hnot].
    split.
    + rewrite fmap_cons. constructor; [|done].
      intros (c' & Heq & Hc')%list_elem_of_fmap.
      apply Hnot in Hc'. set_solver.
    + intros c' [-> | Hc']%elem_of_cons; [done |].
      apply Hnot in Hc'. set_solver.
Qed.

Lemma extractSignatureLines_eq (parse : string → string → option Node)
    (filePath content langKey : string) (config : LanguageConfig)
    (rootNode : Node) :
  detectLanguage filePath = Some langKey →
  LANGUAGES !! langKey = Some config →
  parse langKey content = Some rootNode →
  extractSignatureLines parse filePath content
  = match lines_of (Query_captures (query config) rootNode) with
    | [] => None
    | lines => Some (filePath +:+ " | " +:+ join " | " lines)
    end.
Proof.
  intros Hd Hl Hp. unfold extractSignatureLines.
  rewrite Hd, Hl, Hp, collect_lines_spec.
  by destruct (lines_of _).
Qed.

(** X17. The format of [extractSignatureLines]. For a file of a detected
    language that the parser turns into a tree, the lines are the
    trimmed first lines of the declaration nodes of the captures, one
    line for a declaration node (by node identity) in the order of the
    captures, the empty lines left out. With at least one line the
    result is the path and the lines joined by [" | "]; with none it is
    none. There are at most as many lines as captures. Unlike the names
    of [extractSignature], the lines are not compared as texts: the
    declaration nodes that give them are distinct, the lines need not
    be. *)
Theorem extractSignatureLines_format (parse : string → string → option Node)
    (filePath content langKey : string) (rootNode : Node) :
  detectLanguage filePath = Some langKey →
  parse langKey content = Some rootNode →
  ∃ config,
    LANGUAGES !! langKey = Some config
    ∧ let captures := Query_captures (query config) rootNode in
      let firsts := first_declarations ∅ captures in
      let lines := filter (λ s, s ≠ "") (line_of <$> firsts) in
      (lines ≠ [] →
       extractSignatureLines parse filePath content
       = Some (filePath +:+ " | " +:+ join " | " lines))
      ∧ (lines = [] → extractSignatureLines parse filePath content = None)
      ∧ sublist firsts captures
      ∧ NoDup ((λ c, id (declaration_of c)) <$> firsts)
      ∧ (∀ c, c ∈ captures →
              ∃ c', c' ∈ firsts
                    ∧ id (declaration_of c') = id (declaration_of c))
      ∧ (length lines <= length captures)%nat.
Proof.
  intros Hd Hp.
  destruct (detectLanguage_configured _ _ Hd) as [config Hl].
  exists config. split; [done |]. intros captures firsts lines.
  pose proof (extractSignatureLines_eq parse _ _ _ _ _ Hd Hl Hp) as Heq.
  fold captures in Heq. unfold lines_of in Heq. fold firsts lines in Heq.
  pose proof (first_declarations_sublist captures ∅) as Hsub.
  split_and!.
  - intros Hne. rewrite Heq. by destruct lines.
  - intros Hnil. by rewrite Heq, Hnil.
  - done.
  - apply first_declarations_ids.
  - intros c Hc. unfold firsts.
    enough (H : ∀ seen,
              id (declaration_of c) ∈ seen
              ∨ ∃ c', c' ∈ first_declarations seen captures
                      ∧ id (declaration_of c') = id (declaration_of c)).
    { destruct (H ∅) as [Hin | H']; [set_solver | done]. }
    clear -Hc. induction captures as [|c0 captures IH]; intros seen.
    + by apply elem_of_nil in Hc.
    + simpl. apply elem_of_cons in Hc as [<- | Hc].
      * destruct (decide _) as [Hin | Hin]; [by left |].
        right. exists c. split; [by left | done].
      * destruct (decide _) as [Hin | Hin]; [by apply IH |].
        destruct (IH Hc ({[id (declaration_of c0)]} ∪ seen))
          as [Hin' | (c' & Hc' & Heq)].
        -- apply elem_of_union in Hin' as [Hin' | Hin']; [|by left].
           apply elem_of_singleton in Hin'. right. exists c0.
           split; [by left | done].
        -- right. exists c'. split; [by right | done].
  - unfold lines. etransitivity; [apply length_filter |].
    rewrite length_fmap. by apply sublist_length.
Qed.

(** The Ruby file of the test. The name of the module is directly under
    the [module] node and gives itself; the names of the class and of
    its two methods all lead to the node below the [module] node, which
    gives one line. *)
Lemma extractSignatureLines_format_witness :
  extractSignatureLines test_parse "lib/payments/refund.rb" ruby_source
  = Some "lib/payments/refund.rb | Payments | class RefundProcessor".
Proof.
  destruct (extractSignatureLines_format test_parse "lib/payments/refund.rb"
              ruby_source "ruby" ruby_tree eq_refl eq_refl)
    as (config & Hl & Hsome & _).
  injection Hl as <-. rewrite Hsome; [reflexivity | discriminate].
Defined.
End DeclarationLines.

(** ** The extension: storing what was extracted *)

Section ExtractionLoop.
Import JS Vector StoreSpec StoreInvariants Extension.

Variable embed : string → outcome (list R).
Variable clock : nat → string.

Lemma similarity_to_sym (this : Store.MemoryStore) (a b : list R) :
  similarity_to this a b = similarity_to this b a.
Proof. unfold similarity_to. by rewrite Store.reported_sym. Qed.

Lemma search_found (q : list R) (t : R) (k : Z) (this : Store.MemoryStore) :
  searchable q k this →
  Store.search q t k this = (Ok (found q t k this), this).
Proof.
  intros Hs. rewrite found_take, decide_True by done. by apply found_eq.
Qed.

Lemma room_for_sequence (n : nat) (this : Store.MemoryStore) :
  consistent this →
  room_for (S n) this →
  (Store.sqlite_sequence (Store.db this) < 2 ^ 63 - 1)%Z.
Proof.
  intros (_ & _ & Hok). unfold room_for.
  rewrite (next_rowid_eq this Hok). lia.
Qed.

Lemma added_room (text : string) (vec : list R) (sessionId now : string)
    (n : nat) (this : Store.MemoryStore) :
  consistent this →
  Z.of_nat (length vec) = Store.dimensions this →
  room_for (S n) this →
  room_for n (added text vec sessionId now this).
Proof.
  intros Hc Hdim. unfold room_for.
  pose proof (added_consistent text vec sessionId now this Hc Hdim)
    as (_ & _ & Hok').
  rewrite (next_rowid_eq _ Hok'). simpl.
  destruct Hc as (_ & _ & Hok). rewrite (next_rowid_eq this Hok). lia.
Qed.

Lemma room_for_le (n m : nat) (this : Store.MemoryStore) :
  (n <= m)%nat → room_for m this → room_for n this.
Proof. unfold room_for. lia. Qed.

Lemma consistent_empty (this : Store.MemoryStore) :
  consistent this →
  size (Store.memories (Store.db this)) = 0%nat →
  ∀ k, Store.memories_vec (Store.db this) !! k = None.
Proof.
  intros (Hkeys & _) Hsize k. apply map_size_empty_inv in Hsize.
  destruct (Store.memories_vec (Store.db this) !! k) as [e|] eqn:He; [|done].
  assert (is_Some (Store.memories (Store.db this) !! k)) as [row Hrow]
    by (apply Hkeys; eauto).
  rewrite Hsize in Hrow. by rewrite lookup_empty in Hrow.
Qed.

Lemma added_separated (text : string) (vec : list R) (sessionId now : string)
    (t : R) (this : Store.MemoryStore) :
  consistent this →
  separated t this →
  (∀ k e, Store.memories_vec (Store.db this) !! k = Some e →
          (similarity_to this vec e < t)%R) →
  separated t (added text vec sessionId now this).
Proof.
  intros Hc Hsep Hnew i j ei ej Hij.
  change (similarity_to (added text vec sessionId now this) ei ej)
    with (similarity_to this ei ej).
  unfold added. simpl.
  destruct (consistent_next_free _ Hc) as [_ Hfree].
  destruct (decide (i = next_rowid (Store.db this))) as [-> | Hi];
    destruct (decide (j = next_rowid (Store.db this))) as [-> | Hj];
    try done.
  - rewrite lookup_insert_eq, lookup_insert_ne by done.
    intros [= <-] Hej. by apply Hnew in Hej.
  - rewrite lookup_insert_ne, lookup_insert_eq by done.
    intros Hei [= <-]. rewrite similarity_to_sym. by apply Hnew in Hei.
  - rewrite !lookup_insert_ne by done. by apply Hsep.
Qed.

(** One round of the loop on a memory whose text embeds: it is skipped
    when the index holds an embedding as similar as the threshold, and
    stored otherwise. *)
Lemma store_extracted_cons (memory : Extractor.ExtractedMemory)
    (rest : list Extractor.ExtractedMemory) (sessionId : string) (t : R)
    (stored skipped : nat) (store : Store.MemoryStore) (vec : list R) :
  consistent store →
  index_matches store →
  (Store.sqlite_sequence (Store.db store) < 2 ^ 63 - 1)%Z →
  embed (Extractor.text memory) = Ok vec →
  Z.of_nat (length vec) = Store.dimensions store →
  store_extracted embed clock (memory :: rest) sessionId t stored skipped store
  = if decide (∀ k e, Store.memories_vec (Store.db store) !! k = Some e →
                      (similarity_to store vec e < t)%R)
    then store_extracted embed clock rest sessionId t (S stored) skipped
           (added (Extractor.text memory) vec sessionId (clock stored) store)
    else store_extracted embed clock rest sessionId t stored (S skipped) store.
Proof.
  intros Hc Hcol Hroom Hvec Hdim. cbn [store_extracted]. rewrite Hvec.
  assert (Hone : (1 <= 2048)%Z) by lia.
  unfold Store.count.
  destruct (Z.of_nat (size (Store.memories (Store.db store))) >? 0)%Z eqn:Hcnt.
  - rewrite search_found by (by apply index_searchable).
    destruct (found vec t 1 store) as [|m l] eqn:Hf.
    + simpl. rewrite add_consistent_ok by done.
      rewrite decide_True; [done |].
      by apply (found_none_iff store vec t 1 Hc Hcol Hdim Hone).
    + simpl. rewrite decide_False; [done |].
      intros Hall.
      apply (found_none_iff store vec t 1 Hc Hcol Hdim Hone) in Hall.
      congruence.
  - rewrite add_consistent_ok by done.
    rewrite decide_True; [done |].
    intros k e He. rewrite consistent_empty in He; [done.. |].
    rewrite Z.gtb_ltb in Hcnt. apply Z.ltb_ge in Hcnt. lia.
Qed.

Lemma added_size (text : string) (vec : list R) (sessionId now : string)
    (this : Store.MemoryStore) :
  consistent this →
  size (Store.memories (Store.db (added text vec sessionId now this)))
  = S (size (Store.memories (Store.db this))).
Proof.
  intros Hc. unfold added. simpl.
  apply map_size_insert_None. by apply consistent_next_free.
Qed.

Lemma store_extracted_invariant (extracted : list Extractor.ExtractedMemory)
    (sessionId : string) (t : R) :
  ∀ (stored skipped : nat) (store : Store.MemoryStore),
    consistent store →
    index_matches store →
    room_for (length extracted) store →
    (∀ memory, memory ∈ extracted →
       ∃ vec, embed (Extractor.text memory) = Ok vec
              ∧ Z.of_nat (length vec) = Store.dimensions store) →
    ∃ stored' skipped' store',
      store_extracted embed clock extracted sessionId t stored skipped store
      = (Ok (stored', skipped'), store')
      ∧ (stored' + skipped' = stored + skipped + length extracted)%nat
      ∧ (size (Store.memories (Store.db store')) + stored
         = size (Store.memories (Store.db store)) + stored')%nat
      ∧ consistent store'
      ∧ index_matches store'
      ∧ (separated t store → separated t store')
      ∧ (∀ k row, Store.memories (Store.db store) !! k = Some row →
                  Store.memories (Store.db store') !! k = Some row)
      ∧ (∀ k row, Store.memories (Store.db store') !! k = Some row →
           Store.memories (Store.db store) !! k = Some row
           ∨ ∃ memory, memory ∈ extracted
                       ∧ Store.row_text row = Extractor.text memory
                       ∧ Store.session_id row = sessionId)
      ∧ (∀ k e, Store.memories_vec (Store.db store) !! k = Some e →
                Store.memories_vec (Store.db store') !! k = Some e)
      ∧ Store.vec_distance (Store.db store') = Store.vec_distance (Store.db store)
      ∧ (∀ memory vec,
           memory ∈ extracted →
           embed (Extractor.text memory) = Ok vec →
           (∃ k row,
              Store.memories (Store.db store) !! k = None
              ∧ Store.memories (Store.db store') !! k = Some row
              ∧ Store.row_text row = Extractor.text memory
              ∧ Store.session_id row = sessionId
              ∧ Store.memories_vec (Store.db store') !! k = Some vec)
           ∨ (∃ k e,
                Store.memories_vec (Store.db store') !! k = Some e
                ∧ (t <= similarity_to store' vec e)%R)).
Proof.
  induction extracted as [|memory rest IH];
    intros stored skipped store Hc Hcol Hroom Hembed.
  - exists stored, skipped, store. simpl. split_and!; eauto with lia.
    intros memory vec Hin. by apply elem_of_nil in Hin.
  - destruct (Hembed memory) as (vec & Hvec & Hdim); [by left |].
    simpl in Hroom.
    rewrite (store_extracted_cons _ _ _ _ _ _ _ vec)
      by (done || by apply (room_for_sequence (length rest))).
    destruct (decide _) as [Hnew | Hdup].
    + set (store1 := added (Extractor.text memory) vec sessionId
                       (clock stored) store).
      destruct (IH (S stored) skipped store1)
        as (stored' & skipped' & store' & Heq & Hsum & Hsize & Hc' & Hcol'
            & Hsep' & Hkeep & Hfrom & Hvkeep & Hdist & Hcover).
      { by apply added_consistent. }
      { done. }
      { by apply added_room. }
      { intros m Hm. apply Hembed. by right. }
      exists stored', skipped', store'. split; [done |].
      destruct (consistent_next_free _ Hc) as [Hfree Hvfree].
      unfold store1 in Hsize. rewrite added_size in Hsize by done.
      assert (Hsub : ∀ k row, Store.memories (Store.db store) !! k = Some row →
                              Store.memories (Store.db store1) !! k = Some row).
      { intros k row Hrow. unfold store1, added. simpl.
        rewrite lookup_insert_ne; [done |]. intros <-. congruence. }
      split_and!; [simpl; lia | lia | done | done | | | | | done |].
      * intros Hsep. by apply Hsep', added_separated.
      * intros k row Hrow. by apply Hkeep, Hsub.
      * intros k row Hrow. apply Hfrom in Hrow as [Hrow | (m & Hm & Hrest)].
        -- unfold store1, added in Hrow. simpl in Hrow.
           destruct (decide (k = next_rowid (Store.db store))) as [-> | Hk].
           ++ rewrite lookup_insert_eq in Hrow. injection Hrow as <-.
              right. exists memory. split; [by left | done].
           ++ rewrite lookup_insert_ne in Hrow by done. by left.
        -- right. exists m. split; [by right | done].
      * intros k e He. apply Hvkeep. unfold store1, added. simpl.
        rewrite lookup_insert_ne; [done |]. intros <-. congruence.
      * intros m v Hm Hv. apply elem_of_cons in Hm as [-> | Hm].
        -- assert (v = vec) as -> by congruence.
           left. exists (next_rowid (Store.db store)).
           eexists. split; [done |]. split.
           { apply Hkeep. unfold store1, added. simpl.
             by rewrite lookup_insert_eq. }
           split; [done |]. split; [done |].
           apply Hvkeep. unfold store1, added. simpl.
           by rewrite lookup_insert_eq.
        -- destruct (Hcover m v Hm Hv)
             as [(k & row & Hnone & Hrow & Hrest) | Hsim]; [left | by right].
           exists k, row. split; [| done].
           destruct (Store.memories (Store.db store) !! k) as [row0|] eqn:Hk;
             [| done].
           apply Hsub in Hk. congruence.
    + destruct (IH stored (S skipped) store)
        as (stored' & skipped' & store' & Heq & Hsum & Hsize & Hc' & Hcol'
            & Hsep' & Hkeep & Hfrom & Hvkeep & Hdist & Hcover);
        [done | done | | |].
      { apply (room_for_le _ (S (length rest))); [lia | done]. }
      { intros m Hm. apply Hembed. by right. }
      exists stored', skipped', store'.
      split_and!;
        [done | simpl; lia | done | done | done | done | done | | done | done |].
      * intros k row Hrow.
        apply Hfrom in Hrow as [Hrow | (m & Hm & Hrest)]; [by left |].
        right. exists m. split; [by right | done].
      * intros m v Hm Hv. apply elem_of_cons in Hm as [-> | Hm];
          [| by apply Hcover].
        assert (v = vec) as -> by congruence.
        right.
        assert (Hex : map_Exists
                        (λ (_ : Z) e, ¬ (similarity_to store vec e < t)%R)
                        (Store.memories_vec (Store.db store))).
        { apply map_not_Forall; [apply _ | exact Hdup]. }
        destruct Hex as (k & e & He & Hnlt). exists k, e.
        split; [by apply Hvkeep |].
        apply Rnot_lt_le in Hnlt. unfold similarity_to in *. by rewrite Hdist.
Qed.

Lemma store_extracted_app (pre rest : list Extractor.ExtractedMemory)
    (sessionId : string) (t : R) :
  ∀ (stored skipped : nat) (store : Store.MemoryStore),
    store_extracted embed clock (pre ++ rest) sessionId t stored skipped store
    = match store_extracted embed clock pre sessionId t stored skipped store with
      | (Ok (stored', skipped'), store') =>
          store_extracted embed clock rest sessionId t stored' skipped' store'
      | (Throw e, store') => (Throw e, store')
      end.
Proof.
  induction pre as [|memory pre IH]; intros stored skipped store;
    [done |].
  rewrite <- app_comm_cons. cbn [store_extracted].
  destruct (embed (Extractor.text memory)) as [vec|e]; [|done].
  destruct (Store.count store) as [[cnt|e] store1]; [|done].
  destruct (if (cnt >? 0)%Z then _ else _) as [[[|]|e] store2]; [| |done].
  - apply IH.
  - destruct (Store.add _ _ _ _ _) as [[id|e] store3]; [|done]. apply IH.
Qed.

(** X9. Storing the extracted memories. When the store is consistent
    and its index was created with its dimension, every text embeds to
    a vector of that dimension, and the row ids
    that the loop may assign are below 2^53 (the integers that a number
    of JS holds exactly, as the row id that [add] returns is), the loop
    ends normally; every memory is either stored or skipped; the count
    grows by the number stored; the store stays consistent; the rows
    that were there stay, and every new row carries the text of an
    extracted memory and the session id. Every extracted memory is
    covered afterwards: either it was stored, and a row that was not
    there holds its text and the session id, with its embedding under
    the same row id in the index, or the index holds an embedding at
    least as similar to its own as the dedup threshold (by the
    similarity that [search] computes from the distance the index
    reports). All of this holds whether or not the index held
    near-duplicates before. When, in addition, no two embeddings of the
    index were as similar as the dedup threshold before, none are
    after: a memory is stored only if nothing as similar is in the
    index, the memories stored earlier in the same loop included. *)
Theorem store_extracted_deduplicates
    (extracted : list Extractor.ExtractedMemory) (sessionId : string) (t : R)
    (store : Store.MemoryStore) :
  consistent store →
  index_matches store →
  (next_rowid (Store.db store) + Z.of_nat (length extracted) <= 2 ^ 53)%Z →
  (∀ memory, memory ∈ extracted →
     ∃ vec, embed (Extractor.text memory) = Ok vec
            ∧ Z.of_nat (length vec) = Store.dimensions store) →
  ∃ stored skipped store',
    store_extracted embed clock extracted sessionId t 0 0 store
    = (Ok (stored, skipped), store')
    ∧ (stored + skipped = length extracted)%nat
    ∧ (Store.count store').1
      = Ok (Z.of_nat (size (Store.memories (Store.db store)) + stored))
    ∧ consistent store'
    ∧ (∀ m, m ∈ listed store → m ∈ listed store')
    ∧ (∀ m, m ∈ listed store' →
         m ∈ listed store
         ∨ ∃ memory, memory ∈ extracted
                     ∧ Store.text m = Extractor.text memory
                     ∧ Store.sessionId m = sessionId)
    ∧ (∀ memory vec,
         memory ∈ extracted →
         embed (Extractor.text memory) = Ok vec →
         (∃ k row,
            Store.memories (Store.db store) !! k = None
            ∧ Store.memories (Store.db store') !! k = Some row
            ∧ Store.row_text row = Extractor.text memory
            ∧ Store.session_id row = sessionId
            ∧ Store.memories_vec (Store.db store') !! k = Some vec)
         ∨ (∃ k e,
              Store.memories_vec (Store.db store') !! k = Some e
              ∧ (t <= similarity_to store' vec e)%R))
    ∧ (separated t store → separated t store').
Proof.
  intros Hc Hcol Hroom Hembed.
  destruct (store_extracted_invariant extracted sessionId t 0 0 store Hc Hcol
              Hroom Hembed)
    as (stored & skipped & store' & Heq & Hsum & Hsize & Hc' & _ & Hsep'
        & Hkeep & Hfrom & _ & _ & Hcover).
  exists stored, skipped, store'. split_and!; try done.
  - simpl. do 2 f_equal. lia.
  - intros m (row & Hrow & Hm)%listed_elem. apply listed_elem.
    exists row. split; [by apply Hkeep | done].
  - intros m (row & Hrow & Ht & Hcr & Hs)%listed_elem.
    apply Hfrom in Hrow as [Hrow | (memory & Hm & Htext & Hsid)].
    + left. apply listed_elem. by exists row.
    + right. exists memory. split; [done |]. split; congruence.
Qed.

(** X10. No rollback across the loop. When [embed] is rejected for a
    memory, the loop ends with that error and the store holds what the
    memories before it left there: the ones stored before the failure
    stay stored. *)
Theorem store_extracted_stops_at_failure
    (pre rest : list Extractor.ExtractedMemory)
    (memory : Extractor.ExtractedMemory) (sessionId : string) (t : R)
    (store store1 : Store.MemoryStore) (stored skipped : nat) (e : exn) :
  store_extracted embed clock pre sessionId t 0 0 store
  = (Ok (stored, skipped), store1) →
  embed (Extractor.text memory) = Throw e →
  store_extracted embed clock (pre ++ memory :: rest) sessionId t 0 0 store
  = (Throw e, store1).
Proof.
  intros Hpre He. rewrite store_extracted_app, Hpre.
  cbn [store_extracted]. by rewrite He.
Qed.
End ExtractionLoop.

Section ExtractionLoopWitnesses.
Import JS Vector StoreSpec StoreInvariants Extension.

Lemma separated_new (t : R) (dims : option Z) :
  separated t (Store.constructor dims Store.empty_database).
Proof. intros i j ei ej _ Hi. simpl in Hi. by rewrite lookup_empty in Hi. Qed.

(** Two memories with the same embedding on the empty store: both are
    handled, and the index stays separated at threshold 0.9. *)
Lemma store_extracted_deduplicates_witness :
  ∃ stored skipped store',
    store_extracted (λ _, Ok e1) (λ _, "2026-01-01T00:00:00.000Z")
      [ {| Extractor.text := "use tabs"; Extractor.rationale := "convention" |};
        {| Extractor.text := "tabs, not spaces"; Extractor.rationale := "same" |} ]
      "s1" DEDUP_THRESHOLD 0 0 store0
    = (Ok (stored, skipped), store')
    ∧ (stored + skipped = 2)%nat
    ∧ separated DEDUP_THRESHOLD store'.
Proof.
  destruct (store_extracted_deduplicates (λ _, Ok e1)
              (λ _, "2026-01-01T00:00:00.000Z")
              [ {| Extractor.text := "use tabs";
                   Extractor.rationale := "convention" |};
                {| Extractor.text := "tabs, not spaces";
                   Extractor.rationale := "same" |} ]
              "s1" DEDUP_THRESHOLD store0)
    as (stored & skipped & store' & Heq & Hsum & _ & _ & _ & _ & _ & Hsep).
  - apply new_consistent.
  - reflexivity.
  - apply Z.leb_le. reflexivity.
  - intros memory _. exists e1. split; reflexivity.
  - exists stored, skipped, store'. split; [exact Heq |].
    split; [assumption |]. apply Hsep, separated_new.
Defined.

(** The first memory is stored, the embedder fails on the second: the
    loop throws and the first memory is in the store. *)
Lemma store_extracted_stops_at_failure_witness :
  let embed := λ s : string,
    if String.eqb s "bad" then Throw (Error "embedder failed") else Ok e1 in
  let clock := λ _ : nat, "2026-01-01T00:00:00.000Z" in
  let good := {| Extractor.text := "to be deleted"; Extractor.rationale := "r" |} in
  let bad := {| Extractor.text := "bad"; Extractor.rationale := "r" |} in
  store_extracted embed clock ([good] ++ bad :: [good]) "s1" DEDUP_THRESHOLD
    0 0 store0
  = (Throw (Error "embedder failed"), store1).
Proof.
  intros embed clock good bad.
  apply (store_extracted_stops_at_failure embed clock [good] [good] bad "s1"
           DEDUP_THRESHOLD store0 store1 1 0 (Error "embedder failed")).
  - reflexivity.
  - reflexivity.
Defined.
End ExtractionLoopWitnesses.

(** ** The extension: recall on read *)

Section RecallFacts.
Import JS StoreSpec StoreInvariants Extension.

Variable parse : string → string → option Signature.Node.
Variable embed : string → outcome (list R).

Lemma imap_at {A} (g : A → A) (i : nat) (l : list A) (x : A) :
  l !! i = Some x →
  imap (λ j c, if decide (j = i) then g c else c) l = <[i := g x]> l.
Proof.
  intros Hx. apply list_eq. intros j. rewrite list_lookup_imap.
  destruct (decide (j = i)) as [-> | Hj].
  - rewrite Hx, list_lookup_insert_eq by (by eapply lookup_lt_Some).
    cbn [fmap option_fmap option_map]. by destruct (decide (i = i)).
  - rewrite list_lookup_insert_ne by done.
    destruct (l !! j); cbn [fmap option_fmap option_map]; [|done].
    by destruct (decide (j = i)).
Qed.

Lemma found_listed (q : list R) (t : R) (k : Z) (this : Store.MemoryStore)
    (m : Store.MemoryMatch) :
  m ∈ found q t k this →
  Store.memory m ∈ listed this ∧ (t <= Store.similarity m)%R.
Proof.
  intros (row & Hrow & -> & Ht)%found_elem. split; [|done].
  apply select_nearest_elem in Hrow as (e & mrow & _ & Hm & _ & H1 & H2 & H3).
  apply listed_elem. by exists mrow.
Qed.

Lemma recall_Some (filePath text : string) (i : nat) (content0 : list Part)
    (this : Store.MemoryStore) (textContent : Part) (newContent : list Part) :
  content0 !! i = Some textContent →
  recall parse embed filePath text i content0 this = Ok (Some newContent) →
  ∃ signature queryVec,
    Signature.extractSignature parse filePath text = Some signature
    ∧ embed signature = Ok queryVec
    ∧ found queryVec SIMILARITY_THRESHOLD MAX_MEMORIES_PER_READ this ≠ []
    ∧ newContent
      = <[i := {| part_type := part_type textContent;
                  part_text :=
                    Some (text +:+ formatMemoryBlock
                            (found queryVec SIMILARITY_THRESHOLD
                               MAX_MEMORIES_PER_READ this));
                  part_rest := part_rest textContent |}]> content0.
Proof.
  intros Hi. unfold recall.
  destruct (Signature.extractSignature parse filePath text) as [signature|];
    [|done].
  destruct (String.eqb signature ""); [done |].
  destruct (embed signature) as [queryVec|e] eqn:Hembed; [|done]. simpl.
  destruct (Store.search queryVec SIMILARITY_THRESHOLD MAX_MEMORIES_PER_READ
              this).1 as [matches|e] eqn:Hsearch; [|done]. simpl.
  destruct matches as [|m matches]; [done |]. simpl.
  intros [= <-]. exists signature, queryVec.
  unfold found. rewrite Hsearch. split_and!; [done.. |].
  by rewrite <- (imap_at
                   (λ c, {| part_type := part_type c;
                            part_text :=
                              Some (text +:+ formatMemoryBlock (m :: matches));
                            part_rest := part_rest c |})
                   i content0 textContent).
Qed.

(** X11. Recall on read. The handler of [tool_result] never throws. When
    it changes the result, the tool is [read], the call did not fail,
    the path is of a detected language and the extension is ready; the
    new content is the old one with the first text part replaced: its
    text is the old text followed by the memory block. The block lists
    the matches of the search for the embedded signature of the file:
    at least one and at most five of them, each a stored memory at
    similarity 0.3 or more, most similar first, one line a match
    between the [<memory>] tags. Every other part, and every other
    property of the text part, is as before. *)
Theorem on_tool_result_appends (event : ToolResultEvent)
    (store : option Store.MemoryStore) :
  ∃ r,
    on_tool_result parse embed event store = Ok r
    ∧ ∀ newContent,
        r = Some newContent →
        ∃ this filePath content0 i textContent text signature queryVec matches,
          toolName event = "read" ∧ isError event = false
          ∧ input_path event = Some filePath
          ∧ is_Some (Signature.detectLanguage filePath)
          ∧ store = Some this
          ∧ content event = Some content0
          ∧ content0 !! i = Some textContent
          ∧ part_type textContent = Some "text"
          ∧ part_text textContent = Some text
          ∧ (∀ j c, content0 !! j = Some c → (j < i)%nat →
                    part_type c ≠ Some "text")
          ∧ Signature.extractSignature parse filePath text = Some signature
          ∧ embed signature = Ok queryVec
          ∧ (Store.search queryVec (3 / 10) 5 this).1 = Ok matches
          ∧ (1 <= length matches <= 5)%nat
          ∧ (∀ m, m ∈ matches →
                  Store.memory m ∈ listed this
                  ∧ (3 / 10 <= Store.similarity m)%R)
          ∧ by_similarity_desc matches
          ∧ newContent
            = <[i := {| part_type := Some "text";
                        part_text :=
                          Some (text +:+ LF +:+ LF +:+ "<memory>" +:+ LF
                                +:+ join LF
                                      ((λ m, "- " +:+ Store.text (Store.memory m))
                                         <$> matches)
                                +:+ LF +:+ "</memory>");
                        part_rest := part_rest textContent |}]> content0.
Proof.
  unfold on_tool_result.
  destruct (String.eqb_spec (toolName event) "read") as [Hname|];
    simpl; [|by eexists].
  destruct (isError event) eqn:Herr; [by eexists |].
  destruct (input_path event) as [filePath|] eqn:Hpath; [|by eexists].
  destruct (String.eqb filePath ""); [by eexists |].
  destruct (Signature.detectLanguage filePath) as [langKey|] eqn:Hlang;
    [|by eexists].
  destruct (String.eqb langKey ""); [by eexists |].
  destruct (content event) as [content0|] eqn:Hcontent; simpl; [|by eexists].
  destruct (list_find _ content0) as [[i textContent]|] eqn:Hfind;
    [|by eexists].
  apply list_find_Some in Hfind as (Hi & Htype & Hfirst).
  destruct (part_text textContent) as [text|] eqn:Htext; [|by eexists].
  destruct (String.eqb text ""); [by eexists |].
  destruct store as [this|]; [|by eexists]. simpl.
  destruct (_ =? 0)%Z; [by eexists |].
  destruct (recall parse embed filePath text i content0 this)
    as [[newContent|]|e] eqn:Hrecall; simpl; [| by eexists..].
  eexists. split; [done |]. intros ? [= <-].
  apply (recall_Some _ _ _ _ _ textContent) in Hrecall
    as (signature & queryVec & Hsig & Hembed & Hne & ->); [|done].
  set (matches := found queryVec SIMILARITY_THRESHOLD MAX_MEMORIES_PER_READ
                    this) in *.
  assert (Hsearch : (Store.search queryVec (3 / 10) 5 this).1 = Ok matches).
  { unfold matches, found, SIMILARITY_THRESHOLD, MAX_MEMORIES_PER_READ in *.
    destruct (Store.search queryVec (3 / 10) 5 this).1; done. }
  exists this, filePath, content0, i, textContent, text, signature, queryVec,
    matches.
  assert (Hlen : (Z.of_nat (length matches) <= 5)%Z)
    by apply (found_length_limit queryVec SIMILARITY_THRESHOLD 5 this ltac:(lia)).
  split_and!; try done.
  - destruct matches; [done | simpl; lia].
  - lia.
  - intros m Hm. by apply found_listed in Hm.
  - apply found_sorted.
  - by rewrite Htype.
Qed.

Lemma detectLanguage_nonempty (filePath langKey : string) :
  Signature.detectLanguage filePath = Some langKey →
  filePath ≠ "" ∧ langKey ≠ "".
Proof.
  intros H. split.
  - by intros ->.
  - intros ->. by apply detectLanguage_configured in H as [? ?].
Qed.

Lemma extractSignature_nonempty (filePath content signature : string) :
  Signature.extractSignature parse filePath content = Some signature →
  signature ≠ "".
Proof.
  unfold Signature.extractSignature.
  destruct (Signature.detectLanguage filePath) as [langKey|] eqn:Hd; [|done].
  apply detectLanguage_nonempty in Hd as [Hpath _].
  destruct (Signature.LANGUAGES !! langKey); [|done].
  destruct (parse langKey content); [|done].
  destruct (_ =? 0)%nat; [done |]. intros [= <-].
  by destruct filePath.
Qed.

(** X12. Recall on read finds what is stored. When a successful [read]
    of a file of a detected language returns a text part that is not
    empty, the extension is ready with a consistent store whose index
    was created with its dimension, the file has a signature whose
    embedding has the dimension of the store, and
    the index holds an embedding at similarity 0.3 or more to it (the
    similarity that [search] computes from the distance the index
    reports), the handler returns a new content: the memory block is
    never left out when there is a memory to recall. *)
Theorem on_tool_result_recalls (event : ToolResultEvent)
    (this : Store.MemoryStore) (filePath text signature : string)
    (content0 : list Part) (i : nat) (textContent : Part)
    (queryVec e : list R) (k : Z) :
  toolName event = "read" →
  isError event = false →
  input_path event = Some filePath →
  content event = Some content0 →
  list_find (λ c, part_type c = Some "text") content0 = Some (i, textContent) →
  part_text textContent = Some text →
  text ≠ "" →
  consistent this →
  index_matches this →
  Signature.extractSignature parse filePath text = Some signature →
  embed signature = Ok queryVec →
  Z.of_nat (length queryVec) = Store.dimensions this →
  Store.memories_vec (Store.db this) !! k = Some e →
  (3 / 10 <= similarity_to this queryVec e)%R →
  ∃ matches,
    (Store.search queryVec (3 / 10) 5 this).1 = Ok matches
    ∧ matches ≠ []
    ∧ on_tool_result parse embed event (Some this)
      = Ok (Some (<[i := {| part_type := Some "text";
                            part_text := Some (text +:+ formatMemoryBlock matches);
                            part_rest := part_rest textContent |}]> content0)).
Proof.
  intros Hname Herr Hpath Hcontent Hfind Htext Hne Hc Hcol Hsig Hembed Hdim He
    Hsim.
  assert (Hlang : is_Some (Signature.detectLanguage filePath)).
  { unfold Signature.extractSignature in Hsig.
    destruct (Signature.detectLanguage filePath); [by eexists | done]. }
  destruct Hlang as [langKey Hlang].
  destruct (detectLanguage_nonempty _ _ Hlang) as [Hp Hl].
  pose proof (extractSignature_nonempty _ _ _ Hsig) as Hs.
  exists (found queryVec (3 / 10) 5 this).
  assert (Hfive : (5 <= 2048)%Z) by lia.
  assert (Hfound : found queryVec (3 / 10) 5 this ≠ []).
  { intros Hnil.
    pose proof (proj1 (found_none_iff this queryVec (3 / 10) 5 Hc Hcol Hdim
                         Hfive) Hnil k e He). lra. }
  assert (Hable : searchable queryVec 5 this)
    by (by apply index_searchable).
  assert (Hsearch : Store.search queryVec (3 / 10) 5 this
                    = (Ok (found queryVec (3 / 10) 5 this), this)).
  { rewrite found_take, decide_True by done. by apply found_eq. }
  split; [by rewrite Hsearch |]. split; [done |].
  unfold on_tool_result. rewrite Hname, Herr, Hpath, Hlang, Hcontent. simpl.
  rewrite Hfind, Htext.
  destruct (String.eqb_spec filePath ""); [done |].
  destruct (String.eqb_spec langKey ""); [done |].
  destruct (String.eqb_spec text ""); [done |]. simpl.
  assert (Hcnt : (Z.of_nat (size (Store.memories (Store.db this))) =? 0)%Z
                 = false).
  { apply Z.eqb_neq. intros Hz.
    assert (Hsize : size (Store.memories (Store.db this)) = 0%nat) by lia.
    apply map_size_empty_inv in Hsize.
    destruct Hc as (Hkeys & _).
    assert (is_Some (Store.memories (Store.db this) !! k)) as [row Hrow]
      by (apply Hkeys; eauto).
    rewrite Hsize in Hrow. by rewrite lookup_empty in Hrow. }
  rewrite Hcnt. unfold recall. rewrite Hsig.
  destruct (String.eqb_spec signature ""); [done |].
  rewrite Hembed. simpl. unfold SIMILARITY_THRESHOLD, MAX_MEMORIES_PER_READ.
  rewrite Hsearch. simpl.
  destruct (found queryVec (3 / 10) 5 this) as [|m l] eqn:Hf; [done |]. simpl.
  apply list_find_Some in Hfind as (Hi & Htype & _).
  rewrite (imap_at
             (λ c, {| part_type := part_type c;
                      part_text := Some (text +:+ formatMemoryBlock (m :: l));
                      part_rest := part_rest c |}) i content0 textContent)
    by done.
  by rewrite Htype.
Qed.
End RecallFacts.

Section RecallWitness.
Import JS StoreSpec StoreInvariants SignatureSpec Extension.

(** Reading the Ruby file of the tests with one memory in the store,
    whose embedding is the one of the signature: the memory is
    recalled. *)
Lemma on_tool_result_recalls_witness :
  let textContent :=
    {| part_type := Some "text"; part_text := Some ruby_source;
       part_rest := [] |} in
  let event :=
    {| toolName := "read"; isError := false;
       input_path := Some "lib/payments/refund.rb";
       content := Some [textContent] |} in
  ∃ matches,
    (Store.search e1 (3 / 10) 5 store1).1 = Ok matches
    ∧ matches ≠ []
    ∧ on_tool_result test_parse (λ _, Ok e1) event (Some store1)
      = Ok (Some (<[0%nat := {| part_type := Some "text";
                               part_text :=
                                 Some (ruby_source +:+ formatMemoryBlock matches);
                               part_rest := [] |}]> [textContent])).
Proof.
  intros textContent event.
  apply (on_tool_result_recalls test_parse (λ _, Ok e1) event store1
           "lib/payments/refund.rb" ruby_source
           "lib/payments/refund.rb | Payments | RefundProcessor | initialize | process"
           [textContent] 0 textContent e1 e1 1).
  - reflexivity.
  - reflexivity.
  - reflexivity.
  - reflexivity.
  - reflexivity.
  - reflexivity.
  - discriminate.
  - apply store1_consistent.
  - reflexivity.
  - reflexivity.
  - reflexivity.
  - reflexivity.
  - apply store1_vec.
  - rewrite similarity_self. lra.
Defined.
End RecallWitness.

(** ** The extension: the messages of a session *)

Section SessionMessages.
Import JS Extension.

Lemma texts_loop (parts : list Part) :
  ∀ texts,
    Forall (λ t, t ≠ "") texts →
    Forall (λ t, t ≠ "") (fold_left texts_step parts texts).
Proof.
  induction parts as [|part parts IH]; intros texts Hall; [done |].
  cbn [fold_left]. apply IH. unfold texts_step.
  destruct (part_type part) as [type|]; [|done].
  destruct (String.eqb type "text"); [|done].
  destruct (part_text part) as [t|]; [|done].
  destruct (String.eqb_spec t ""); [done |].
  apply Forall_app. split; [done |]. by apply Forall_singleton.
Qed.

Lemma join_nonempty (sep : string) (l : list string) :
  l ≠ [] → Forall (λ t, t ≠ "") l → join sep l ≠ "".
Proof.
  destruct l as [|s l]; [done |]. intros _ Hall.
  apply Forall_cons in Hall as [Hs _].
  destruct s; [done |]. by destruct l.
Qed.

Lemma extractText_parts (parts : list Part) :
  extractText (CParts parts) ≠ Some "".
Proof.
  unfold extractText.
  pose proof (texts_loop parts [] (Forall_nil_2 _)) as Hall.
  destruct (fold_left texts_step parts []) as [|t l] eqn:Hl; [done |].
  simpl. intros [= H]. by apply (join_nonempty LF (t :: l)) in H.
Qed.

Lemma collect_step_spec (messages : list SessionMessage) (entry : Entry) :
  collect_step messages entry = messages ++ collect_step [] entry.
Proof.
  unfold collect_step.
  destruct (negb _); [by rewrite app_nil_r |].
  destruct (msg_content (entry_message entry) ≫= extractText) as [text|];
    [destruct (String.eqb text "") |];
    repeat (destruct (_ && _)); by rewrite ?app_nil_r.
Qed.

Lemma collect_loop (branch : list Entry) :
  ∀ messages,
    fold_left collect_step branch messages
    = messages ++ fold_left collect_step branch [].
Proof.
  induction branch as [|entry branch IH]; intros messages; cbn [fold_left].
  - by rewrite app_nil_r.
  - rewrite IH, (IH (collect_step [] entry)), collect_step_spec.
    by rewrite app_assoc.
Qed.

Lemma collectSessionMessages_cons (entry : Entry) (branch : list Entry) :
  collectSessionMessages (entry :: branch)
  = collect_step [] entry ++ collectSessionMessages branch.
Proof. unfold collectSessionMessages. cbn [fold_left]. apply collect_loop. Qed.

Lemma collect_step_elem (entry : Entry) (m : SessionMessage) :
  m ∈ collect_step [] entry →
  text m ≠ ""
  ∧ entry_type entry = "message"
  ∧ msg_role (entry_message entry)
    = match role m with user => "user" | assistant => "assistant" end
  ∧ ∃ c, msg_content (entry_message entry) = Some c
         ∧ extractText c = Some (text m).
Proof.
  unfold collect_step.
  destruct (String.eqb_spec (entry_type entry) "message") as [Htype|];
    cbn [negb]; [|by intros ?%elem_of_nil].
  destruct (msg_content (entry_message entry)) as [c|] eqn:Hc.
  2: { cbn [truthy]. rewrite !andb_false_r. by intros ?%elem_of_nil. }
  cbn [mbind option_bind]. generalize (truthy (Some c)). intros b.
  destruct (extractText c) as [t|] eqn:Ht.
  2: { repeat (destruct (_ && _)); by intros ?%elem_of_nil. }
  destruct (String.eqb_spec t "").
  { repeat (destruct (_ && _)); by intros ?%elem_of_nil. }
  destruct (String.eqb_spec (msg_role (entry_message entry)) "user") as [Hu|];
    [|destruct (String.eqb_spec (msg_role (entry_message entry)) "assistant")
        as [Ha|]];
    destruct b; cbn [andb]; try (by intros ?%elem_of_nil).
  all: try (destruct (String.eqb_spec (msg_role (entry_message entry))
                        "assistant"); cbn [andb]);
    try (by intros ?%elem_of_nil).
  all: intros ->%list_elem_of_singleton; simpl; eauto 10.
Qed.

(** X13. The messages handed to the extractor. Every collected message
    has a text that is not empty and comes from an entry of type
    [message] whose role is [user] or [assistant], with the text that
    [extractText] reads from its content. The messages come in the
    order of the branch. An entry of another type or of another role,
    a tool result for one, gives no message. The text read from an
    array of parts is never the empty string. *)
Theorem collectSessionMessages_texts (branch : list Entry) :
  Forall
    (λ m, text m ≠ ""
          ∧ ∃ entry c,
              entry ∈ branch
              ∧ entry_type entry = "message"
              ∧ msg_role (entry_message entry)
                = match role m with user => "user" | assistant => "assistant" end
              ∧ msg_content (entry_message entry) = Some c
              ∧ extractText c = Some (text m))
    (collectSessionMessages branch)
  ∧ (∀ b1 b2,
       collectSessionMessages (b1 ++ b2)
       = collectSessionMessages b1 ++ collectSessionMessages b2)
  ∧ (∀ entry,
       entry_type entry ≠ "message"
       ∨ (msg_role (entry_message entry) ≠ "user"
          ∧ msg_role (entry_message entry) ≠ "assistant") →
       collectSessionMessages [entry] = [])
  ∧ (∀ parts, extractText (CParts parts) ≠ Some "").
Proof.
  split_and!.
  - induction branch as [|entry branch IH]; [by apply Forall_nil |].
    rewrite collectSessionMessages_cons. apply Forall_app. split.
    + apply Forall_forall. intros m Hm.
      apply collect_step_elem in Hm as (Ht & Htype & Hrole & c & Hc & Hx).
      split; [done |]. exists entry, c. split; [by left | done].
    + eapply Forall_impl; [exact IH |]. simpl.
      intros m (Ht & e & c & He & Hrest). split; [done |].
      exists e, c. split; [by right | done].
  - intros b1 b2. unfold collectSessionMessages.
    by rewrite fold_left_app, collect_loop.
  - intros entry H. unfold collectSessionMessages, collect_step. simpl.
    destruct (String.eqb_spec (entry_type entry) "message"); simpl; [|done].
    destruct H as [H | [Hu Ha]]; [done |].
    destruct (String.eqb_spec (msg_role (entry_message entry)) "user"); [done |].
    by destruct (String.eqb_spec (msg_role (entry_message entry)) "assistant").
  - apply extractText_parts.
Qed.
End SessionMessages.

(** ** The extension: the command [/remember] *)

Section RememberFacts.
Import JS StoreSpec StoreInvariants Extension.

Variable embed : string → outcome (list R).

End RememberFacts.

Section RememberWitness.
Import JS StoreSpec StoreInvariants Extension.

End RememberWitness.

(** ** The signature extractor: the caches of the parser *)

Section ParserCaches.
Import JS Signature SignatureRuntime.

Variable wasmDir : string.
Variable Parser_init : outcome unit.
Variable Language_load : string → outcome unit.
Variable Query_new : Language → list Pattern → outcome unit.
Variable parse_with : string → string → option Node.

#[local] Abbreviation cache_ok := (cache_ok wasmDir).
#[local] Abbreviation ensureInit := (ensureInit Parser_init).
#[local] Abbreviation getLanguage := (getLanguage wasmDir Language_load).
#[local] Abbreviation getQuery := (getQuery Query_new).
#[local] Abbreviation extract_with :=
  (extract_with wasmDir Parser_init Language_load Query_new parse_with).
#[local] Abbreviation step := (step wasmDir Parser_init Language_load Query_new parse_with).
#[local] Abbreviation run := (run wasmDir Parser_init Language_load Query_new parse_with).

Lemma initial_ok : cache_ok initial.
Proof.
  unfold cache_ok, initial. simpl. split_and!; try done.
  intros i. split; [set_solver |]. by intros (k & q & Hq & _).
Qed.

Lemma registerExitHandler_ok (s : State) :
  cache_ok s → cache_ok (registerExitHandler s).
Proof.
  unfold registerExitHandler. intros Hs.
  destruct (exitHandlerRegistered s) eqn:Hreg; [done |].
  destruct Hs as (H1 & H2 & H3 & H4 & H5). rewrite Hreg in H5.
  unfold SignatureRuntime.cache_ok. simpl. split_and!; try done. by rewrite H5.
Qed.

Lemma ensureInit_ok (s : State) : cache_ok s → cache_ok (ensureInit s).2.
Proof.
  unfold SignatureRuntime.ensureInit. intros Hs.
  destruct (parserInitialized s); simpl; [done |].
  destruct Parser_init; simpl; [|done].
  apply registerExitHandler_ok. by destruct s.
Qed.

Lemma ensureInit_fields (s : State) :
  loadedLanguages (ensureInit s).2 = loadedLanguages s
  ∧ compiledQueries (ensureInit s).2 = compiledQueries s
  ∧ (parserInitialized s = true → (ensureInit s).2 = s).
Proof.
  unfold SignatureRuntime.ensureInit, registerExitHandler.
  destruct (parserInitialized s); simpl; [done |].
  destruct Parser_init; simpl; [|done].
  by destruct (exitHandlerRegistered s).
Qed.

Lemma getLanguage_ok (langKey : string) (s : State) :
  cache_ok s →
  cache_ok (getLanguage langKey s).2
  ∧ ∀ language,
      (getLanguage langKey s).1 = Ok (Some language) →
      loadedLanguages (getLanguage langKey s).2 !! langKey = Some language.
Proof.
  unfold SignatureRuntime.getLanguage. intros Hs.
  destruct (LANGUAGES !! langKey) as [config|] eqn:Hconfig; [|done].
  destruct (loadedLanguages s !! langKey) as [cached|] eqn:Hcached;
    [split; [done | by intros ? [= <-]] |].
  destruct (Language_load _); [|done]. simpl.
  split; [| intros ? [= <-]; by rewrite lookup_insert_eq].
  destruct Hs as (H1 & H2 & H3 & H4 & H5).
  unfold SignatureRuntime.cache_ok. simpl. split_and!; try done.
  - intros k l. destruct (decide (k = langKey)) as [-> | Hk].
    + rewrite lookup_insert_eq. intros [= <-]. by exists config.
    + rewrite lookup_insert_ne by done. apply H1.
  - intros k q Hq. destruct (H2 k q Hq) as (Hc & Hl & Hid).
    split_and!; [done | | lia].
    rewrite lookup_insert_ne; [done |]. intros <-. congruence.
Qed.

Lemma getQuery_ok (langKey : string) (language : Language) (s : State) :
  cache_ok s →
  loadedLanguages s !! langKey = Some language →
  cache_ok (getQuery langKey language s).2
  ∧ loadedLanguages (getQuery langKey language s).2 = loadedLanguages s
  ∧ ∀ query,
      (getQuery langKey language s).1 = Ok query →
      compiledQueries (getQuery langKey language s).2 !! langKey = Some query.
Proof.
  unfold SignatureRuntime.getQuery. intros Hs Hlang.
  destruct (compiledQueries s !! langKey) as [cached|] eqn:Hcached;
    [split_and!; [done.. | by intros ? [= <-]] |].
  destruct (LANGUAGES !! langKey) as [config|] eqn:Hconfig; [|done].
  destruct (Query_new _ _); [|done]. simpl.
  split_and!; [| done | intros ? [= <-]; by rewrite lookup_insert_eq].
  destruct Hs as (H1 & H2 & H3 & H4 & H5).
  unfold SignatureRuntime.cache_ok. simpl. split_and!; try done.
  - intros k q. destruct (decide (k = langKey)) as [-> | Hk].
    + rewrite lookup_insert_eq. intros [= <-]. simpl.
      split_and!; [by exists config | done | lia].
    + rewrite lookup_insert_ne by done. intros Hq.
      destruct (H2 k q Hq) as (Hc & Hl & Hid). split_and!; [done.. | lia].
  - intros k1 k2 q1 q2.
    destruct (decide (k1 = langKey)) as [-> | Hk1];
      destruct (decide (k2 = langKey)) as [-> | Hk2]; [done | | |].
    + rewrite lookup_insert_eq, lookup_insert_ne by done.
      intros [= <-] Hq2 Heq. simpl in Heq.
      destruct (H2 k2 q2 Hq2) as (_ & _ & Hid). lia.
    + rewrite lookup_insert_ne, lookup_insert_eq by done.
      intros Hq1 [= <-] Heq. simpl in Heq.
      destruct (H2 k1 q1 Hq1) as (_ & _ & Hid). lia.
    + rewrite !lookup_insert_ne by done. apply H3.
  - intros i. rewrite elem_of_union, elem_of_singleton, H4. split.
    + intros [-> | (k & q & Hq & Hid)].
      * eexists langKey, _. by rewrite lookup_insert_eq.
      * exists k, q. rewrite lookup_insert_ne; [done |]. intros <-. congruence.
    + intros (k & q & Hq & Hid).
      destruct (decide (k = langKey)) as [-> | Hk].
      * rewrite lookup_insert_eq in Hq. injection Hq as <-. by left.
      * rewrite lookup_insert_ne in Hq by done. right. by exists k, q.
Qed.

Lemma foldr_delete (l : list Query) (live : gset nat) (i : nat) :
  i ∈ foldr (λ query live, live ∖ {[ query_id query ]}) live l
  ↔ i ∈ live ∧ i ∉ query_id <$> l.
Proof.
  induction l as [|q l IH]; simpl.
  - split; [intros H; split; [done | by intros ?%elem_of_nil] | by intros [? _]].
  - rewrite elem_of_difference, IH, elem_of_singleton, not_elem_of_cons.
    naive_solver.
Qed.

Lemma dispose_ok (s : State) :
  cache_ok s →
  cache_ok (disposeSignatureExtractor s)
  ∧ live_queries (disposeSignatureExtractor s) = ∅.
Proof.
  intros (H1 & H2 & H3 & H4 & H5).
  assert (Hlive : live_queries (disposeSignatureExtractor s) = ∅).
  { apply set_eq. intros i. simpl. rewrite foldr_delete, H4. split; [|set_solver].
    intros [(k & q & Hq & Hid) Hnot]. destruct Hnot.
    apply list_elem_of_fmap. exists q. split; [done |].
    apply list_elem_of_fmap. exists (k, q). split; [done |].
    by apply elem_of_map_to_list. }
  split; [|done].
  unfold SignatureRuntime.cache_ok. rewrite Hlive. simpl.
  split_and!; try done.
  intros i. split; [set_solver |]. by intros (k & q & Hq & _).
Qed.

Lemma extract_with_ok (collect : list QueryCapture → list string)
    (filePath content : string) (s : State) :
  cache_ok s → cache_ok (extract_with collect filePath content s).2.
Proof.
  intros Hs. unfold SignatureRuntime.extract_with.
  destruct (detectLanguage filePath) as [langKey|]; [|done].
  pose proof (ensureInit_ok s Hs) as H1.
  destruct (ensureInit s) as [[[]|e] s1]; [|done]. simpl in H1.
  destruct (getLanguage_ok langKey s1 H1) as [H2 Hl].
  destruct (getLanguage langKey s1) as [[[language|]|e] s2]; [|done..].
  simpl in H2, Hl. specialize (Hl language eq_refl).
  destruct (parse_with (wasmPath language) content) as [rootNode|]; [|done].
  destruct (getQuery_ok langKey language s2 H2 Hl) as (H3 & _ & _).
  destruct (getQuery langKey language s2) as [[query|e] s3]; [|done].
  simpl in H3. by destruct (_ =? 0)%nat.
Qed.

Lemma step_ok (c : call) (s : State) : cache_ok s → cache_ok (step c s).
Proof.
  destruct c; simpl; [apply extract_with_ok.. |]. intros Hs.
  by apply dispose_ok.
Qed.

Lemma run_ok (calls : list call) (s : State) : cache_ok s → cache_ok (run calls s).
Proof.
  revert s. induction calls as [|c calls IH]; intros s Hs; simpl; [done |].
  by apply IH, step_ok.
Qed.

(** X21. The caches of the parser stay consistent, whatever calls are
    made and whichever of [Parser.init], [Language.load] and
    [new Query] fail. After any sequence of calls of [extractSignature],
    [extractSignatureLines] and [disposeSignatureExtractor]: a cached
    language is the grammar of its key; a cached query was compiled
    from the query of its key, for the language cached under that key;
    the queries alive in the runtime are the cached ones; and the module
    has added at most one listener to the [exit] event, however often
    the parser was initialised again after a disposal. A disposal
    deletes every query, empties both caches and resets the
    initialisation flag. *)
Theorem parser_caches_consistent (calls : list call) :
  let s := run calls initial in
  cache_ok s
  ∧ (exit_listeners s <= 1)%nat
  ∧ live_queries (disposeSignatureExtractor s) = ∅
  ∧ loadedLanguages (disposeSignatureExtractor s) = ∅
  ∧ compiledQueries (disposeSignatureExtractor s) = ∅
  ∧ parserInitialized (disposeSignatureExtractor s) = false
  ∧ exit_listeners (disposeSignatureExtractor s) = exit_listeners s.
Proof.
  intros s.
  assert (Hs : cache_ok s) by apply run_ok, initial_ok.
  split_and!; try done.
  - destruct Hs as (_ & _ & _ & _ & ->). destruct (exitHandlerRegistered s); lia.
  - by apply dispose_ok.
Qed.


(** What the two functions return without the caches. *)
Lemma extract_with_cached (collect : list QueryCapture → list string)
    (filePath content langKey : string) (config : LanguageConfig)
    (language : Language) (s : State) :
  detectLanguage filePath = Some langKey →
  LANGUAGES !! langKey = Some config →
  parserInitialized s = true →
  loadedLanguages s !! langKey = Some language →
  wasmPath language = wasm_path wasmDir config →
  (∀ rootNode,
     parse_with (wasm_path wasmDir config) content = Some rootNode →
     ∃ q, compiledQueries s !! langKey = Some q
          ∧ query_source q = query config) →
  extract_with collect filePath content s
  = (Ok match parse_with (wasm_path wasmDir config) content with
        | None => None
        | Some rootNode =>
            let names := collect (Query_captures (query config) rootNode) in
            if (length names =? 0)%nat then None
            else Some (filePath +:+ " | " +:+ join " | " names)
        end, s).
Proof.
  intros Hd Hconfig Hinit Hlang Hpath Hquery.
  unfold SignatureRuntime.extract_with, SignatureRuntime.ensureInit,
    SignatureRuntime.getLanguage, SignatureRuntime.getQuery.
  rewrite Hd, Hinit. simpl. rewrite Hconfig, Hlang, Hpath.
  destruct (parse_with (wasm_path wasmDir config) content) as [rootNode|];
    [|done].
  destruct (Hquery rootNode eq_refl) as (q & -> & ->).
  by destruct (_ =? 0)%nat.
Qed.

Lemma ensureInit_success (s : State) :
  Parser_init = Ok () →
  (ensureInit s).1 = Ok () ∧ parserInitialized (ensureInit s).2 = true.
Proof.
  intros Hinit. unfold SignatureRuntime.ensureInit, registerExitHandler.
  rewrite Hinit. destruct (parserInitialized s) eqn:Hp; simpl; [done |].
  by destruct (exitHandlerRegistered s).
Qed.

Lemma getLanguage_success (langKey : string) (config : LanguageConfig)
    (s : State) :
  cache_ok s →
  LANGUAGES !! langKey = Some config →
  (∀ path, Language_load path = Ok ()) →
  parserInitialized (getLanguage langKey s).2 = parserInitialized s
  ∧ ∃ language,
      (getLanguage langKey s).1 = Ok (Some language)
      ∧ wasmPath language = wasm_path wasmDir config.
Proof.
  intros (H1 & _) Hconfig Hload. unfold SignatureRuntime.getLanguage.
  rewrite Hconfig, Hload.
  destruct (loadedLanguages s !! langKey) as [cached|] eqn:Hc; simpl.
  - split; [done |]. exists cached. split; [done |].
    destruct (H1 _ _ Hc) as (config' & Hc' & Hp). congruence.
  - split; [done |]. by eexists.
Qed.

Lemma getQuery_success (langKey : string) (config : LanguageConfig)
    (language : Language) (s : State) :
  cache_ok s →
  LANGUAGES !! langKey = Some config →
  (∀ l source, Query_new l source = Ok ()) →
  parserInitialized (getQuery langKey language s).2 = parserInitialized s
  ∧ ∃ q,
      (getQuery langKey language s).1 = Ok q
      ∧ query_source q = query config.
Proof.
  intros (_ & H2 & _) Hconfig Hquery. unfold SignatureRuntime.getQuery.
  rewrite Hconfig, Hquery.
  destruct (compiledQueries s !! langKey) as [cached|] eqn:Hc; simpl.
  - split; [done |]. exists cached. split; [done |].
    destruct (H2 _ _ Hc) as ((config' & Hc' & Hsrc) & _). congruence.
  - split; [done |]. by eexists.
Qed.

Lemma extract_with_first (collect : list QueryCapture → list string)
    (filePath content langKey : string) (config : LanguageConfig) (s : State) :
  cache_ok s →
  Parser_init = Ok () →
  (∀ path, Language_load path = Ok ()) →
  (∀ language source, Query_new language source = Ok ()) →
  detectLanguage filePath = Some langKey →
  LANGUAGES !! langKey = Some config →
  ∃ s' language,
    extract_with collect filePath content s
    = (Ok match parse_with (wasm_path wasmDir config) content with
          | None => None
          | Some rootNode =>
              let names := collect (Query_captures (query config) rootNode) in
              if (length names =? 0)%nat then None
              else Some (filePath +:+ " | " +:+ join " | " names)
          end, s')
    ∧ parserInitialized s' = true
    ∧ loadedLanguages s' !! langKey = Some language
    ∧ wasmPath language = wasm_path wasmDir config
    ∧ ∀ rootNode,
        parse_with (wasm_path wasmDir config) content = Some rootNode →
        ∃ q, compiledQueries s' !! langKey = Some q
             ∧ query_source q = query config.
Proof.
  intros Hs Hinit Hload Hquery Hd Hconfig.
  unfold SignatureRuntime.extract_with. rewrite Hd.
  pose proof (ensureInit_ok s Hs) as H1.
  destruct (ensureInit_success s Hinit) as [He1 Hi1].
  destruct (ensureInit s) as [r1 s1]. simpl in *. subst r1.
  destruct (getLanguage_ok langKey s1 H1) as [H2 Hl2].
  destruct (getLanguage_success langKey config s1 H1 Hconfig Hload)
    as (Hi2 & language & Hg2 & Hpath).
  destruct (getLanguage langKey s1) as [r2 s2]. simpl in *. subst r2.
  specialize (Hl2 language eq_refl). rewrite Hpath.
  destruct (parse_with (wasm_path wasmDir config) content) as [rootNode|].
  2: { exists s2, language. split_and!; try done. congruence. }
  destruct (getQuery_ok langKey language s2 H2 Hl2) as (H3 & Hl3 & Hq3).
  destruct (getQuery_success langKey config language s2 H2 Hconfig Hquery)
    as (Hi3 & q & Hg3 & Hsrc).
  destruct (getQuery langKey language s2) as [r3 s3]. simpl in *. subst r3.
  specialize (Hq3 q eq_refl). rewrite Hsrc.
  exists s3, language. split_and!.
  - by destruct (_ =? 0)%nat.
  - congruence.
  - congruence.
  - done.
  - intros ? [= <-]. by exists q.
Qed.

(** X22. The caches do not change the results. From a state in which
    the caches are consistent, when [Parser.init], [Language.load] and
    [new Query] succeed, [extractSignature] and [extractSignatureLines]
    return what they return without caches, with a parser of the
    grammar file of the language: the cached language and the cached
    query of a key are the ones a fresh load would give. The same call
    made again returns the same result and finds everything cached: it
    leaves the state as it is, no grammar is loaded and no query is
    compiled a second time. *)
Theorem caches_keep_results (filePath content : string) (s : State) :
  cache_ok s →
  Parser_init = Ok () →
  (∀ path, Language_load path = Ok ()) →
  (∀ language source, Query_new language source = Ok ()) →
  ∃ s1 s2,
    SignatureRuntime.extractSignature_in wasmDir Parser_init Language_load
      Query_new parse_with filePath content s
    = (Ok (extractSignature (parse_of wasmDir parse_with) filePath content), s1)
    ∧ SignatureRuntime.extractSignature_in wasmDir Parser_init Language_load
        Query_new parse_with filePath content s1
      = (Ok (extractSignature (parse_of wasmDir parse_with) filePath content),
         s1)
    ∧ SignatureRuntime.extractSignatureLines_in wasmDir Parser_init
        Language_load Query_new parse_with filePath content s
      = (Ok (extractSignatureLines (parse_of wasmDir parse_with) filePath
               content), s2)
    ∧ SignatureRuntime.extractSignatureLines_in wasmDir Parser_init
        Language_load Query_new parse_with filePath content s2
      = (Ok (extractSignatureLines (parse_of wasmDir parse_with) filePath
               content), s2).
Proof.
  intros Hs Hinit Hload Hquery.
  unfold SignatureRuntime.extractSignature_in,
    SignatureRuntime.extractSignatureLines_in, extractSignature,
    extractSignatureLines, parse_of.
  destruct (detectLanguage filePath) as [langKey|] eqn:Hd.
  2: { exists s, s. unfold SignatureRuntime.extract_with. by rewrite Hd. }
  destruct (detectLanguage_configured _ _ Hd) as [config Hconfig].
  rewrite Hconfig.
  destruct (extract_with_first collect_names filePath content langKey config s
              Hs Hinit Hload Hquery Hd Hconfig)
    as (s1 & l1 & Heq1 & Hi1 & Hl1 & Hp1 & Hq1).
  destruct (extract_with_first collect_lines filePath content langKey config s
              Hs Hinit Hload Hquery Hd Hconfig)
    as (s2 & l2 & Heq2 & Hi2 & Hl2 & Hp2 & Hq2).
  exists s1, s2. split_and!.
  - exact Heq1.
  - by apply (extract_with_cached _ _ _ langKey config l1).
  - exact Heq2.
  - by apply (extract_with_cached _ _ _ langKey config l2).
Qed.
End ParserCaches.

Section ParserCachesWitness.
Import JS Signature SignatureSpec SignatureRuntime.

(** The Ruby file of the tests, from the state of a module just loaded:
    the first call and the second return the signature. *)
Lemma caches_keep_results_witness :
  let parse_with := λ path content : string,
    if String.eqb path "wasm/tree-sitter-ruby.wasm"
       && String.eqb content ruby_source
    then Some ruby_tree else None in
  ∃ s1,
    extractSignature_in "wasm" (Ok ()) (λ _, Ok ()) (λ _ _, Ok ()) parse_with
      "lib/payments/refund.rb" ruby_source initial
    = (Ok (Some "lib/payments/refund.rb | Payments | RefundProcessor | initialize | process"),
       s1)
    ∧ extractSignature_in "wasm" (Ok ()) (λ _, Ok ()) (λ _ _, Ok ()) parse_with
        "lib/payments/refund.rb" ruby_source s1
      = (Ok (Some "lib/payments/refund.rb | Payments | RefundProcessor | initialize | process"),
         s1).
Proof.
  intros parse_with.
  destruct (caches_keep_results "wasm" (Ok ()) (λ _, Ok ()) (λ _ _, Ok ())
              parse_with "lib/payments/refund.rb" ruby_source initial)
    as (s1 & s2 & H1 & H2 & _).
  - apply initial_ok.
  - reflexivity.
  - reflexivity.
  - reflexivity.
  - exists s1. split; [exact H1 | exact H2].
Defined.
End ParserCachesWitness.
